(** * Command monitoring of the connection layer

    A shallow embedding of connection/apm.js: the command translator
    ([extractCommand], [extractReply]) and the three event constructors
    ([CommandStartedEvent], [CommandSucceededEvent], [CommandFailedEvent]),
    together with the properties the specification states about them.

    JavaScript objects are mutable and shared by reference, so the embedding
    keeps an explicit object store: a value is either a primitive or a
    reference into the store, and every function of the source is a
    computation that threads the store and may throw.

    The connection that dispatches commands and emits these events
    (connection.js) is known from its unit test only; it is modelled as a
    state machine written from the specification. *)

From Stdlib Require Import ZArith String Ascii List Lia DecimalString.
From Stdlib Require DecimalPos DecimalZ.
From stdpp Require Import base list strings gmap.

Local Open Scope string_scope.
Local Open Scope list_scope.

(** ** Values and the object store *)

Module JS.

(** A location in the object store. *)
Abbreviation loc := nat (only parsing).

(** JavaScript values.  Numbers are the integral Numbers (timestamps, ids,
    counts, ports); fractional Numbers and NaN do not occur in the data this
    module handles and are not represented. *)
Inductive value : Type :=
| VUndefined
| VNull
| VBool (b : bool)
| VNum (n : Z)
| VStr (s : string)
| VRef (l : loc).

(** What [instanceof] and the constructors distinguish.  [GetMore] and
    [KillCursor] are the wire-message classes required from
    connection/commands; the three event classes are declared in apm.js. *)
Inductive class : Type :=
| Plain
| ArrayC
| GetMoreC
| KillCursorC
| StartedC
| SucceededC
| FailedC.

(** An object: its class and its own enumerable data properties in the order
    [Object.keys] lists them.  Every key written by this module is a name
    that is not an array index, so the order of [props] is insertion order
    for all objects built here. *)
Record object : Type := Obj { cls : class; props : list (string * value) }.

Abbreviation heap := (list object).

#[global] Instance value_eq_dec : EqDecision value.
Proof. solve_decision. Defined.

#[global] Instance class_eq_dec : EqDecision class.
Proof. solve_decision. Defined.

#[global] Instance object_eq_dec : EqDecision object.
Proof. solve_decision. Defined.

(** ** Computations: store passing with exceptions *)

Inductive error : Type := TypeError.

Inductive outcome (A : Type) : Type :=
| Returned (a : A)
| Thrown (e : error).
Arguments Returned {A} a.
Arguments Thrown {A} e.

(** A computation keeps the store when it throws: what was allocated before
    the exception stays allocated. *)
Definition js (A : Type) : Type := heap -> outcome A * heap.

Definition ret {A} (a : A) : js A := fun h => (Returned a, h).

Definition throw {A} (e : error) : js A := fun h => (Thrown e, h).

Definition bind {A B} (m : js A) (k : A -> js B) : js B :=
  fun h => match m h with
           | (Returned a, h') => k a h'
           | (Thrown e, h') => (Thrown e, h')
           end.

End JS.
Import JS.

Notation "x <- m ;; k" := (bind m (fun x => k))
  (at level 100, m at next level, right associativity).
Notation "m ;;; k" := (bind m (fun _ => k))
  (at level 100, right associativity).

Module Ops.

(** [o.k] on the own properties of an object; an absent key reads as
    [undefined]. *)
Fixpoint lookup_prop (k : string) (ps : list (string * value)) : value :=
  match ps with
  | [] => VUndefined
  | (k', v) :: ps' => if String.eqb k k' then v else lookup_prop k ps'
  end.

(** [o.k = v] on the own properties: an existing key keeps its position, a
    new key is appended. *)
Fixpoint assign_prop (k : string) (v : value) (ps : list (string * value))
  : list (string * value) :=
  match ps with
  | [] => [(k, v)]
  | (k', v') :: ps' =>
      if String.eqb k k' then (k, v) :: ps' else (k', v') :: assign_prop k v ps'
  end.

(** The own properties of the object at a location.  A location outside
    the store names no object: nothing is read from it, and nothing is
    written to it. *)
Definition props_at (h : heap) (l : loc) : list (string * value) :=
  match h !! l with
  | Some o => props o
  | None => []
  end.

(** Property read [v.k] for the names this module reads (none of them is
    defined on a built-in prototype): reading from [undefined] or [null]
    throws a TypeError; a primitive has no such property; an object answers
    from its own properties. *)
Definition get_prop (v : value) (k : string) : js value :=
  match v with
  | VUndefined | VNull => throw TypeError
  | VBool _ | VNum _ | VStr _ => ret VUndefined
  | VRef l => fun h => (Returned (lookup_prop k (props_at h l)), h)
  end.

(** Property write [target.k = v].  The module is in strict mode, where
    writing a property of a primitive throws a TypeError like writing one of
    [undefined] or [null] does. *)
Definition set_prop (target : value) (k : string) (v : value) : js unit :=
  match target with
  | VRef l => fun h =>
      match h !! l with
      | Some o =>
          (Returned tt, <[l := Obj (cls o) (assign_prop k v (props o))]> h)
      | None => (Returned tt, h)
      end
  | _ => throw TypeError
  end.

(** Object creation ([new C], or an object literal whose property values
    have been evaluated to [ps]): the new object takes the next free
    location.  Locations are not observable by the program, so a nested
    literal is allocated once its properties are evaluated. *)
Definition alloc (c : class) (ps : list (string * value)) : js value :=
  fun h => (Returned (VRef (length h)), h ++ [Obj c ps]).

(** [v instanceof C]: false on primitives, the class of the object
    otherwise. *)
Definition instanceof (v : value) (c : class) : js bool :=
  match v with
  | VRef l => fun h =>
      (Returned (match h !! l with
                 | Some o => bool_decide (cls o = c)
                 | None => false
                 end), h)
  | _ => ret false
  end.

(** ToBoolean. *)
Definition truthy (v : value) : bool :=
  match v with
  | VUndefined | VNull => false
  | VBool b => b
  | VNum n => negb (n =? 0)%Z
  | VStr s => negb (String.eqb s "")
  | VRef _ => true
  end.

(** [typeof v !== 'undefined']. *)
Definition defined (v : value) : bool :=
  match v with
  | VUndefined => false
  | _ => true
  end.

(** [s.split(sep)] for a one-character separator: never empty, one more
    segment than there are separators. *)
Fixpoint split_on (sep : ascii) (s : string) : list string :=
  match s with
  | EmptyString => [EmptyString]
  | String c s' =>
      if Ascii.eqb c sep then EmptyString :: split_on sep s'
      else match split_on sep s' with
           | seg :: segs => String c seg :: segs
           | [] => [String c EmptyString]
           end
  end.

(** [ns.split('.')[i]]: the call throws a TypeError unless [ns] is a
    string (no other value of the embedding has a [split] method); an index
    past the last segment reads as [undefined]. *)
Definition split_dot_at (ns : value) (i : nat) : js value :=
  match ns with
  | VStr s =>
      ret (match split_on "."%char s !! i with
           | Some seg => VStr seg
           | None => VUndefined
           end)
  | _ => throw TypeError
  end.

(** The index keys of a string of length [n], as [Object.keys] lists them. *)
Definition index_keys (n : nat) : list string :=
  map (fun i => NilEmpty.string_of_uint (Nat.to_uint i)) (seq 0 n).

(** [Object.keys(v)]: throws on [undefined] and [null]; a string lists its
    indices, any other primitive nothing; an object lists its own keys. *)
Definition object_keys (v : value) : js (list string) :=
  match v with
  | VUndefined | VNull => throw TypeError
  | VBool _ | VNum _ => ret []
  | VStr s => ret (index_keys (String.length s))
  | VRef l => fun h => (Returned (map fst (props_at h l)), h)
  end.

(** [xs.forEach(f)]. *)
Fixpoint for_each {A} (xs : list A) (f : A -> js unit) : js unit :=
  match xs with
  | [] => ret tt
  | x :: xs' => f x ;;; for_each xs' f
  end.

(** [Object.assign(target, source)] for a source object literal whose
    properties have been evaluated to [ps]: the literal is allocated, then
    each of its properties is written to the target in order. *)
Definition object_assign (target : value) (ps : list (string * value)) : js unit :=
  _ <- alloc Plain ps ;;
  for_each ps (fun kv => set_prop target (fst kv) (snd kv)).

(** ToString of an integral Number. *)
Definition number_to_string (n : Z) : string :=
  NilZero.string_of_int (Z.to_int n).

End Ops.
Import Ops.

(** ** connection/apm.js *)

(** The pool that originated a command, as far as this module reads it:
    [pool.options.host] and [pool.options.port]. *)
Record pool_options : Type := PoolOptions { host : string; port : Z }.
Record Pool : Type := MkPool { options : pool_options }.

Module Apm.

(** Commands that are redacted because of the sensitive nature of their
    contents. *)
Definition SENSITIVE_COMMANDS : list string :=
  [ "authenticate"; "saslStart"; "saslContinue"; "getnonce"; "createUser";
    "updateUser"; "copydbgetnonce"; "copydbsaslstart"; "copydb" ].

(** [SENSITIVE_COMMANDS.has(v)]. *)
Definition is_sensitive (v : value) : bool :=
  match v with
  | VStr s => existsb (String.eqb s) SENSITIVE_COMMANDS
  | _ => false
  end.

(** [Object.keys(command)[0]]. *)
Definition extractCommandName (command : value) : js value :=
  ks <- object_keys command ;;
  ret (match ks with
       | k :: _ => VStr k
       | [] => VUndefined
       end).

(** [Date.now() - started]; [now] is what [Date.now()] returns at the
    call. *)
Definition calculateDuration (now started : Z) : Z := (now - started)%Z.

(** [`${pool.options.host}:${pool.options.port}`]. *)
Definition generateConnectionId (pool : Pool) : string :=
  host (options pool) ++ ":" ++ number_to_string (port (options pool)).

(** [SENSITIVE_COMMANDS.has(commandName) ? {} : result]. *)
Definition maybeRedact (commandName result : value) : js value :=
  if is_sensitive commandName then alloc Plain [] else ret result.

Definition LEGACY_FIND_QUERY_MAP : list (string * string) :=
  [ ("$query", "filter"); ("$orderby", "sort"); ("$hint", "hint");
    ("$comment", "comment"); ("$maxScan", "maxScan"); ("$max", "max");
    ("$min", "min"); ("$returnKey", "returnKey");
    ("$showDiskLoc", "showRecordId"); ("$maxTimeMS", "maxTimeMS");
    ("$snapshot", "snapshot") ].

Definition LEGACY_FIND_OPTIONS_MAP : list (string * string) :=
  [ ("numberToSkip", "skip"); ("numberToReturn", "batchSize");
    ("returnFieldsSelector", "projection") ].

Definition OP_QUERY_KEYS : list string :=
  [ "tailable"; "oplogReplay"; "noCursorTimeout"; "awaitData"; "partial";
    "exhaust" ].

(** [TABLE[key]] on one of the two constant tables, as a property key: a
    key the table lacks reads as [undefined], whose property name is
    "undefined". *)
Fixpoint table_get (table : list (string * string)) (key : string) : string :=
  match table with
  | [] => "undefined"
  | (k, name) :: table' => if String.eqb key k then name else table_get table' key
  end.

(** The upconversion of a legacy find: the body of the third branch of
    [extractCommand]. *)
Definition upconvert_legacy_find (command : value) : js value :=
  ns <- get_prop command "ns" ;;
  coll <- split_dot_at ns 1 ;;
  result <- alloc Plain [("find", coll)] ;;
  for_each (map fst LEGACY_FIND_QUERY_MAP) (fun key =>
    query <- get_prop command "query" ;;
    v <- get_prop query key ;;
    if defined v then
      query' <- get_prop command "query" ;;
      v' <- get_prop query' key ;;
      set_prop result (table_get LEGACY_FIND_QUERY_MAP key) v'
    else ret tt) ;;;
  for_each (map fst LEGACY_FIND_OPTIONS_MAP) (fun key =>
    opts <- get_prop command "options" ;;
    v <- get_prop opts key ;;
    if defined v then
      opts' <- get_prop command "options" ;;
      v' <- get_prop opts' key ;;
      set_prop result (table_get LEGACY_FIND_OPTIONS_MAP key) v'
    else ret tt) ;;;
  for_each OP_QUERY_KEYS (fun key =>
    v <- get_prop command key ;;
    if truthy v then
      v' <- get_prop command key ;;
      set_prop result key v'
    else ret tt) ;;;
  pre32Limit <- get_prop command "pre32Limit" ;;
  (if defined pre32Limit then
     v <- get_prop command "pre32Limit" ;;
     set_prop result "limit" v
   else ret tt) ;;;
  query <- get_prop command "query" ;;
  explain <- get_prop query "$explain" ;;
  if truthy explain then alloc Plain [("explain", result)]
  else ret result.

(** Extract the actual command from the query, possibly upconverting if it
    is a legacy format. *)
Definition extractCommand (command : value) : js value :=
  isGetMore <- instanceof command GetMoreC ;;
  if isGetMore then
    cursorId <- get_prop command "cursorId" ;;
    ns <- get_prop command "ns" ;;
    coll <- split_dot_at ns 1 ;;
    numberToReturn <- get_prop command "numberToReturn" ;;
    alloc Plain [("getMore", cursorId); ("collection", coll);
                 ("batchSize", numberToReturn)]
  else
  isKillCursor <- instanceof command KillCursorC ;;
  if isKillCursor then
    ns <- get_prop command "ns" ;;
    coll <- split_dot_at ns 1 ;;
    cursorIds <- get_prop command "cursorIds" ;;
    alloc Plain [("killCursors", coll); ("cursors", cursorIds)]
  else
  query <- get_prop command "query" ;;
  isLegacy <- (if truthy query then
                 query' <- get_prop command "query" ;;
                 q <- get_prop query' "$query" ;;
                 ret (defined q)
               else ret false) ;;
  if isLegacy then upconvert_legacy_find command
  else
    query <- get_prop command "query" ;;
    if truthy query then get_prop command "query" else ret command.

(** The reply of a command in the shape [extractCommand] gives the
    command. *)
Definition extractReply (command reply : value) : js value :=
  isGetMore <- instanceof command GetMoreC ;;
  if isGetMore then
    message <- get_prop reply "message" ;;
    id <- get_prop message "cursorId" ;;
    ns <- get_prop command "ns" ;;
    message' <- get_prop reply "message" ;;
    documents <- get_prop message' "documents" ;;
    cursor <- alloc Plain [("id", id); ("ns", ns); ("nextBatch", documents)] ;;
    alloc Plain [("ok", VNum 1); ("cursor", cursor)]
  else
  isKillCursor <- instanceof command KillCursorC ;;
  if isKillCursor then
    cursorIds <- get_prop command "cursorIds" ;;
    alloc Plain [("ok", VNum 1); ("cursorsUnknown", cursorIds)]
  else
  query <- get_prop command "query" ;;
  isLegacy <- (if truthy query then
                 query' <- get_prop command "query" ;;
                 q <- get_prop query' "$query" ;;
                 ret (defined q)
               else ret false) ;;
  if isLegacy then
    message <- get_prop reply "message" ;;
    id <- get_prop message "cursorId" ;;
    ns <- get_prop command "ns" ;;
    message' <- get_prop reply "message" ;;
    documents <- get_prop message' "documents" ;;
    cursor <- alloc Plain [("id", id); ("ns", ns); ("firstBatch", documents)] ;;
    alloc Plain [("ok", VNum 1); ("cursor", cursor)]
  else
    get_prop reply "result".

(** [new C(...)]: a fresh object of class [C] is created and the
    constructor runs with it as [this]; the expression evaluates to it. *)
Definition new_object (c : class) (constructor : value -> js unit) : js value :=
  this <- alloc c [] ;;
  constructor this ;;;
  ret this.

(** The constructor of [CommandStartedEvent]: an event indicating the start
    of a given command. *)
Definition CommandStartedEvent (pool : Pool) (command : value) (this : value)
  : js unit :=
  cmd <- extractCommand command ;;
  commandName <- extractCommandName cmd ;;
  (if is_sensitive commandName then
     commandObj <- alloc Plain [] ;;
     set_prop this "commandObj" commandObj ;;;
     commandObj' <- get_prop this "commandObj" ;;
     match commandName with
     | VStr name => set_prop commandObj' name (VBool true)
     | _ => ret tt
     end
   else ret tt) ;;;
  ns <- get_prop command "ns" ;;
  databaseName <- split_dot_at ns 0 ;;
  commandName' <- extractCommandName cmd ;;
  requestId <- get_prop command "requestId" ;;
  object_assign this
    [ ("command", cmd);
      ("databaseName", databaseName);
      ("commandName", commandName');
      ("requestId", requestId);
      ("connectionId", VStr (generateConnectionId pool)) ].

(** The constructor of [CommandSucceededEvent]: an event indicating the
    success of a given command.  [now] is the value of [Date.now()] when the
    duration is calculated. *)
Definition CommandSucceededEvent (now : Z) (pool : Pool)
    (command reply : value) (started : Z) (this : value) : js unit :=
  cmd <- extractCommand command ;;
  commandName <- extractCommandName cmd ;;
  extracted <- extractReply command reply ;;
  redacted <- maybeRedact commandName extracted ;;
  requestId <- get_prop command "requestId" ;;
  object_assign this
    [ ("duration", VNum (calculateDuration now started));
      ("commandName", commandName);
      ("reply", redacted);
      ("requestId", requestId);
      ("connectionId", VStr (generateConnectionId pool)) ].

(** The constructor of [CommandFailedEvent]: an event indicating the failure
    of a given command. *)
Definition CommandFailedEvent (now : Z) (pool : Pool)
    (command error : value) (started : Z) (this : value) : js unit :=
  cmd <- extractCommand command ;;
  commandName <- extractCommandName cmd ;;
  redacted <- maybeRedact commandName error ;;
  requestId <- get_prop command "requestId" ;;
  object_assign this
    [ ("duration", VNum (calculateDuration now started));
      ("commandName", commandName);
      ("failure", redacted);
      ("requestId", requestId);
      ("connectionId", VStr (generateConnectionId pool)) ].

End Apm.
Import Apm.

(** ** Documents: reading and writing whole values of the store *)

Module Doc.

(** A document as a tree: what an object literal denotes, and what a value
    of the store looks like when it is read to a given depth. *)
#[warnings="-register-all"]
Inductive doc : Type :=
| DUndefined
| DNull
| DBool (b : bool)
| DNum (n : Z)
| DStr (s : string)
| DObj (c : class) (fields : list (string * doc))
| DCut.

(** Evaluating a literal: nested objects are allocated and referenced. *)
Fixpoint literal (d : doc) : js value :=
  match d with
  | DUndefined | DCut => ret VUndefined
  | DNull => ret VNull
  | DBool b => ret (VBool b)
  | DNum n => ret (VNum n)
  | DStr s => ret (VStr s)
  | DObj c fields =>
      ps <- (fix fields_of (fs : list (string * doc)) : js (list (string * value)) :=
               match fs with
               | [] => ret []
               | (k, d') :: fs' =>
                   v <- literal d' ;;
                   ps' <- fields_of fs' ;;
                   ret ((k, v) :: ps')
               end) fields ;;
      alloc c ps
  end.

(** Reading a value to depth [n]; deeper objects are cut off, so the
    reading is defined on cyclic stores too. *)
Fixpoint reify (n : nat) (h : heap) (v : value) : doc :=
  match v with
  | VUndefined => DUndefined
  | VNull => DNull
  | VBool b => DBool b
  | VNum z => DNum z
  | VStr s => DStr s
  | VRef l =>
      match n with
      | O => DCut
      | S n' =>
          match h !! l with
          | Some o => DObj (cls o) (map (fun kv => (fst kv, reify n' h (snd kv))) (props o))
          | None => DCut
          end
      end
  end.

(** Two values denote the same document: same fields, same values, same
    field order, to every depth. *)
Definition same_document (h : heap) (v1 v2 : value) : Prop :=
  forall n, reify n h v1 = reify n h v2.

(** Running a computation on the result of a literal, from the empty
    store, and reading the result back. *)
Definition run_on (d : doc) (f : value -> js value) (depth : nat) : outcome doc :=
  match (v <- literal d ;; f v) [] with
  | (Returned r, h) => Returned (reify depth h r)
  | (Thrown e, _) => Thrown e
  end.

End Doc.
Import Doc.

(** Pure reading of a field, for statements: [field h v k] is what [v.k]
    evaluates to in store [h] when [v] is an object. *)
Definition field (h : heap) (v : value) (k : string) : value :=
  match v with
  | VRef l => lookup_prop k (props_at h l)
  | _ => VUndefined
  end.

(** [undefined] and [null], from which no property can be read. *)
Definition nullish (v : value) : bool :=
  match v with
  | VUndefined | VNull => true
  | _ => false
  end.

(** The class of the object a value refers to, if it refers to one. *)
Definition class_of (h : heap) (v : value) : option class :=
  match v with
  | VRef l => cls <$> h !! l
  | _ => None
  end.

(** The store and the value an object literal evaluates to, starting from
    the empty store. *)
Definition store_of (d : doc) : heap := (literal d []).2.

Definition value_of (d : doc) : value :=
  match (literal d []).1 with
  | Returned v => v
  | Thrown _ => VUndefined
  end.

(** Whether a namespace string has a [.] separator. *)
Fixpoint contains_dot (s : string) : bool :=
  match s with
  | EmptyString => false
  | String c s' => Ascii.eqb c "."%char || contains_dot s'
  end.

(** A value that does not point outside the store. *)
Definition valid (h : heap) (v : value) : Prop :=
  match v with
  | VRef l => (l < length h)%nat
  | _ => True
  end.

(** A store none of whose objects points outside it: the stores a program
    can build. *)
Definition closed (h : heap) : Prop :=
  Forall (fun o => Forall (fun kv => valid h kv.2) (props o)) h.

(** The first key of a value, as [Object.keys(v)[0]] reads it when it does
    not throw. *)
Definition first_key (h : heap) (v : value) : value :=
  match (object_keys v h).1 with
  | Returned (k :: _) => VStr k
  | _ => VUndefined
  end.

(** Writing a list of properties in order. *)
Definition assign_all (fields ps : list (string * value)) : list (string * value) :=
  fold_left (fun acc kv => assign_prop kv.1 kv.2 acc) fields ps.

(** An empty plain object at a location. *)
Definition empty_document (h : heap) (v : value) : Prop :=
  exists l, v = VRef l /\ h !! l = Some (Obj Plain []).

(** The marker of a sensitive command: a document with the command name as
    its only key. *)
Definition name_only_marker (h : heap) (name : string) (v : value) : Prop :=
  exists l, v = VRef l /\ h !! l = Some (Obj Plain [(name, VBool true)]).

(** The fields a terminal event is assigned. *)
Definition terminal_fields (now : Z) (pool : Pool) (started : Z)
    (payload : string) (name redacted requestId : value) : list (string * value) :=
  [ ("duration", VNum (calculateDuration now started));
    ("commandName", name);
    (payload, redacted);
    ("requestId", requestId);
    ("connectionId", VStr (generateConnectionId pool)) ].

(** ** The translation rules as the specification words them *)

Module Rules.

(** The fixed tables of section 6 of the specification. *)
Definition query_modifiers : list (string * string) :=
  [ ("$query", "filter"); ("$orderby", "sort"); ("$hint", "hint");
    ("$comment", "comment"); ("$maxScan", "maxScan"); ("$max", "max");
    ("$min", "min"); ("$returnKey", "returnKey");
    ("$showDiskLoc", "showRecordId"); ("$maxTimeMS", "maxTimeMS");
    ("$snapshot", "snapshot") ].

Definition legacy_options : list (string * string) :=
  [ ("numberToSkip", "skip"); ("numberToReturn", "batchSize");
    ("returnFieldsSelector", "projection") ].

Definition boolean_flags : list string :=
  [ "tailable"; "oplogReplay"; "noCursorTimeout"; "awaitData"; "partial";
    "exhaust" ].

(** A value is copied when it passes the test of the rule. *)
Definition pick (keep : value -> bool) (v : value) : option value :=
  if keep v then Some v else None.

(** Copying the recognized fields of a source, read by [rd], into their
    canonical names, in table order. *)
Definition copied (table : list (string * string)) (keep : value -> bool)
    (rd : string -> value) : list (string * value) :=
  omap (fun e => pair e.2 <$> pick keep (rd e.1)) table.

(** The second segment of a namespace. *)
Definition collection_of (ns : string) : value :=
  match split_on "."%char ns !! 1%nat with
  | Some seg => VStr seg
  | None => VUndefined
  end.

(** The fields of the upconverted find of a legacy find [command] whose
    namespace is [ns]: [find], then the modifiers, then the options, then
    the truthy flags, then the pre-3.2 limit. *)
Definition legacy_find_fields (h : heap) (command : value) (ns : string)
  : list (string * value) :=
  ("find", collection_of ns)
  :: copied query_modifiers defined (field h (field h command "query"))
  ++ copied legacy_options defined (field h (field h command "options"))
  ++ copied (map (fun k => (k, k)) boolean_flags) truthy (field h command)
  ++ copied [("pre32Limit", "limit")] defined (field h command).

(** A legacy find is detected by a [$query] key inside a query document. *)
Definition is_legacy_find (h : heap) (command : value) : bool :=
  truthy (field h command "query")
  && defined (field h (field h command "query") "$query").

End Rules.
Import Rules.

(** ** Sample inputs *)

Module Samples.

(** The legacy find of section 8 of the specification and its expected
    upconversion. *)
Definition legacy_find_input : doc :=
  DObj Plain
    [ ("query", DObj Plain [ ("$query", DObj Plain [("a", DNum 1)]);
                             ("$orderby", DObj Plain [("b", DNum 1)]) ]);
      ("options", DObj Plain [ ("numberToSkip", DNum 5);
                               ("numberToReturn", DNum 10) ]);
      ("ns", DStr "db.coll") ].

Definition legacy_find_output : doc :=
  DObj Plain
    [ ("find", DStr "coll");
      ("filter", DObj Plain [("a", DNum 1)]);
      ("sort", DObj Plain [("b", DNum 1)]);
      ("skip", DNum 5);
      ("batchSize", DNum 10) ].

(** A legacy find, a GetMore and a KillCursors whose namespace has no
    separator. *)
Definition legacy_find_no_dot : doc :=
  DObj Plain
    [ ("query", DObj Plain [ ("$query", DObj Plain [("a", DNum 1)]) ]);
      ("options", DObj Plain []);
      ("ns", DStr "coll") ].

Definition get_more_no_dot : doc :=
  DObj GetMoreC
    [ ("cursorId", DNum 123); ("ns", DStr "coll"); ("numberToReturn", DNum 50) ].

Definition kill_cursors_no_dot : doc :=
  DObj KillCursorC
    [ ("ns", DStr "coll");
      ("cursorIds", DObj ArrayC [("0", DNum 1); ("1", DNum 2)]) ].

(** Commands of each variant with a reply each. *)
Definition get_more : doc :=
  DObj GetMoreC
    [ ("cursorId", DNum 123); ("ns", DStr "db.coll"); ("numberToReturn", DNum 50) ].

Definition kill_cursors : doc :=
  DObj KillCursorC
    [ ("ns", DStr "db.coll");
      ("cursorIds", DObj ArrayC [("0", DNum 1); ("1", DNum 2)]) ].

Definition ping : doc :=
  DObj Plain
    [ ("query", DObj Plain [("ping", DNum 1)]);
      ("ns", DStr "admin.$cmd");
      ("requestId", DNum 7) ].

Definition cursor_reply : doc :=
  DObj Plain
    [ ("message", DObj Plain
        [ ("cursorId", DNum 0);
          ("documents", DObj ArrayC [("0", DObj Plain [("x", DNum 1)])]) ]) ].

Definition ok_reply : doc :=
  DObj Plain [ ("result", DObj Plain [("ok", DNum 1)]) ].

(** A sensitive command with its credentials, and a local pool. *)
Definition sasl_start : doc :=
  DObj Plain
    [ ("query", DObj Plain [ ("saslStart", DNum 1);
                             ("mechanism", DStr "PLAIN");
                             ("payload", DStr "AHVzZXIAcGVuY2ls") ]);
      ("ns", DStr "admin.$cmd");
      ("requestId", DNum 7) ].

Definition local_pool : Pool := MkPool (PoolOptions "localhost" 27017).

(** A command paired with a reply, as one literal: the store holds both. *)
Definition exchange (command reply : doc) : doc :=
  DObj Plain [ ("command", command); ("reply", reply) ].

End Samples.
Import Samples.

(** ** The connection: dispatch, timeouts, session support

    connection.js is not among the sources at hand; only its unit test is.
    The definitions of this module are written from sections 3, 4.3 and 7 of
    the specification. *)

Module Connection.

(** Modelled from the spec: the states of the missing connection. *)
Inductive lifecycle : Type := OPEN | CLOSING | CLOSED.

(** Modelled from the spec: the error taxonomy of section 7, for the
    missing connection. *)
Inductive error_kind : Type :=
| TransportError
| TimeoutError
| ProtocolError
| ServerCommandError.

(** Modelled from the spec: what the missing dispatch resolves its caller
    with, a normalized result, nothing (a fire-and-forget write that
    succeeded), or an error. *)
Inductive resolution : Type :=
| Result
| NoResult
| Failure (e : error_kind).

(** Modelled from the spec: an event the missing connection emits, with the
    request id that correlates it. *)
Inductive event : Type :=
| Started (requestId : nat)
| Succeeded (requestId : nat) (duration : Z)
| Failed (requestId : nat) (duration : Z).

(** Modelled from the spec: a pending waiter of the missing connection,
    with the time its command was dispatched and the socket timeout of the
    dispatch if one was set. *)
Record waiter : Type := Waiter { dispatchedAt : Z; socketTimeout : option Z }.

(** Modelled from the spec: the connection of section 3, whose
    implementation is missing.  Its attributes are the session-timeout
    value, the load-balanced flag, the lifecycle state, the request-id
    counter and the table of pending waiters; [transportDestroyed] is the
    state of its transport, [monitoring] whether command monitoring is
    enabled, [now] the clock.  [dispatched], [events] and [resolutions]
    record what has happened: the dispatches accepted (request id, and
    whether fire-and-forget), the events emitted, the callers resolved. *)
Record connection : Type := Conn {
  logicalSessionTimeoutMinutes : option Z;
  loadBalanced : bool;
  monitoring : bool;
  state : lifecycle;
  transportDestroyed : bool;
  requestCounter : nat;
  waiters : gmap nat waiter;
  now : Z;
  dispatched : list (nat * bool);
  events : list event;
  resolutions : list (nat * resolution)
}.

(** Modelled from the spec: a connection as the pool creates it. *)
Definition create (sessionTimeout : option Z) (lb monitor : bool) (t : Z)
  : connection :=
  Conn sessionTimeout lb monitor OPEN false 0 ∅ t [] [] [].

(** Modelled from the spec: [hasSessionSupport] of section 4.3, whose
    implementation is missing: true if the connection carries a defined
    session-timeout value, true if it is marked load-balanced, false
    otherwise. *)
Definition hasSessionSupport (c : connection) : bool :=
  match logicalSessionTimeoutMinutes c with
  | Some _ => true
  | None => loadBalanced c
  end.

(** Updates of one attribute of a connection. *)
Definition set_state (c : connection) (st : lifecycle) (destroyed : bool)
  : connection :=
  Conn (logicalSessionTimeoutMinutes c) (loadBalanced c) (monitoring c)
       st destroyed (requestCounter c) (waiters c) (now c)
       (dispatched c) (events c) (resolutions c).

Definition set_waiters (c : connection) (ws : gmap nat waiter) : connection :=
  Conn (logicalSessionTimeoutMinutes c) (loadBalanced c) (monitoring c)
       (state c) (transportDestroyed c) (requestCounter c) ws (now c)
       (dispatched c) (events c) (resolutions c).

Definition set_now (c : connection) (t : Z) : connection :=
  Conn (logicalSessionTimeoutMinutes c) (loadBalanced c) (monitoring c)
       (state c) (transportDestroyed c) (requestCounter c) (waiters c) t
       (dispatched c) (events c) (resolutions c).

(** Modelled from the spec: emission by the missing connection, which
    happens only if monitoring is enabled (step 2 of section 4.3). *)
Definition emit (c : connection) (e : event) : connection :=
  Conn (logicalSessionTimeoutMinutes c) (loadBalanced c) (monitoring c)
       (state c) (transportDestroyed c) (requestCounter c) (waiters c) (now c)
       (dispatched c)
       (if monitoring c then events c ++ [e] else events c)
       (resolutions c).

(** Modelled from the spec: the missing connection resolving the caller of
    request [r]. *)
Definition resolve (c : connection) (r : nat) (res : resolution) : connection :=
  Conn (logicalSessionTimeoutMinutes c) (loadBalanced c) (monitoring c)
       (state c) (transportDestroyed c) (requestCounter c) (waiters c) (now c)
       (dispatched c) (events c) (resolutions c ++ [(r, res)]).

(** Modelled from the spec: step 1 of the missing dispatch, a fresh request
    id from the monotonic counter; the dispatch is recorded. *)
Definition assign_request_id (c : connection) (noResponse : bool)
  : nat * connection :=
  (requestCounter c,
   Conn (logicalSessionTimeoutMinutes c) (loadBalanced c) (monitoring c)
        (state c) (transportDestroyed c) (S (requestCounter c)) (waiters c)
        (now c) (dispatched c ++ [(requestCounter c, noResponse)])
        (events c) (resolutions c)).

(** Modelled from the spec: the missing connection failing one pending
    waiter, with a Failed event and the caller resolved with the error. *)
Definition fail_waiter (e : error_kind) (c : connection) (rw : nat * waiter)
  : connection :=
  resolve (emit c (Failed rw.1 (now c - dispatchedAt rw.2))) rw.1 (Failure e).

(** Modelled from the spec: the teardown of the missing connection (step 6
    of section 4.3, section 7).  Every
    pending waiter is resolved with the error and a Failed event is produced
    for each; the transport is destroyed and the connection is CLOSED. *)
Definition teardown (c : connection) (e : error_kind) : connection :=
  set_state
    (set_waiters (fold_left (fail_waiter e) (map_to_list (waiters c)) c) ∅)
    CLOSED true.

(** Modelled from the spec: the socket timeout of a waiter of the missing
    connection has elapsed at time [t]. *)
Definition timed_out (t : Z) (w : waiter) : bool :=
  match socketTimeout w with
  | Some ms => (dispatchedAt w + ms <=? t)%Z
  | None => false
  end.

(** Modelled from the spec: what happens to the missing connection, a
    dispatch call (with its options, and whether the write to the transport
    succeeded), a reply or an error for a request, time passing. *)
Inductive input : Type :=
| Dispatch (noResponse : bool) (timeout : option Z) (written : bool)
| Reply (requestId : nat)
| Fail (requestId : nat) (e : error_kind)
| Tick (t : Z).

(** Modelled from the spec: the dispatch operation of section 4.3 and what
    follows it.  A connection that is not OPEN accepts nothing more. *)
Definition step (c : connection) (i : input) : option connection :=
  match state c with
  | OPEN =>
      match i with
      | Dispatch noResponse timeout written =>
          let '(r, c1) := assign_request_id c noResponse in
          let c2 := emit c1 (Started r) in
          if noResponse then
            if written then Some (resolve c2 r NoResult)
            else Some (teardown (resolve c2 r (Failure TransportError))
                                TransportError)
          else
            let c3 := set_waiters c2 (<[r := Waiter (now c) timeout]> (waiters c2)) in
            if written then Some c3 else Some (teardown c3 TransportError)
      | Reply r =>
          match waiters c !! r with
          | Some w =>
              Some (resolve
                      (emit (set_waiters c (delete r (waiters c)))
                            (Succeeded r (now c - dispatchedAt w)))
                      r Result)
          | None => Some c
          end
      | Fail r e =>
          match waiters c !! r with
          | Some w =>
              match e with
              | TransportError => Some (teardown c TransportError)
              | _ =>
                  Some (fail_waiter e (set_waiters c (delete r (waiters c))) (r, w))
              end
          | None => Some c
          end
      | Tick t =>
          if (t <? now c)%Z then None
          else
            let c1 := set_now c t in
            if bool_decide (map_Exists (fun _ w => timed_out t w = true) (waiters c))
            then Some (teardown c1 TimeoutError)
            else Some c1
      end
  | _ => None
  end.

(** Running a connection through a sequence of inputs. *)
Fixpoint run (c : connection) (inputs : list input) : option connection :=
  match inputs with
  | [] => Some c
  | i :: inputs' =>
      match step c i with
      | Some c' => run c' inputs'
      | None => None
      end
  end.

(** The connection after a sequence of inputs it accepts. *)
Definition after (c : connection) (inputs : list input) : connection :=
  default c (run c inputs).

(** Counting the events and resolutions of a request. *)
Definition is_started (r : nat) (e : event) : bool :=
  match e with
  | Started r' => bool_decide (r' = r)
  | _ => false
  end.

Definition is_succeeded (r : nat) (e : event) : bool :=
  match e with
  | Succeeded r' _ => bool_decide (r' = r)
  | _ => false
  end.

Definition is_failed (r : nat) (e : event) : bool :=
  match e with
  | Failed r' _ => bool_decide (r' = r)
  | _ => false
  end.

Definition count {A} (p : A -> bool) (l : list A) : nat :=
  length (filter (fun x => p x = true) l).

Definition started_count (c : connection) (r : nat) : nat :=
  count (is_started r) (events c).

Definition succeeded_count (c : connection) (r : nat) : nat :=
  count (is_succeeded r) (events c).

Definition failed_count (c : connection) (r : nat) : nat :=
  count (is_failed r) (events c).

Definition resolved_count (c : connection) (r : nat) : nat :=
  count (fun x : nat * resolution => bool_decide (x.1 = r)) (resolutions c).

(** The number of entries of a list of pairs under a key. *)
Definition count_key {B} (r : nat) (l : list (nat * B)) : nat :=
  count (fun x => bool_decide (x.1 = r)) l.

Definition pending (c : connection) (r : nat) : bool :=
  bool_decide (is_Some (waiters c !! r)).

(** A request dispatched with a reply awaited. *)
Definition awaited (c : connection) (r : nat) : bool :=
  bool_decide ((r, false) ∈ dispatched c).

(** What holds of a connection however it was driven: request ids are
    dispatched once and below the counter; a waiter is pending only for a
    dispatch that awaits a reply; the events and the resolutions of a
    request are determined by whether it was dispatched, awaits a reply and
    is still pending; nothing is pending on a connection that is not OPEN. *)
Record invariant (c : connection) : Prop := Invariant {
  inv_nodup : NoDup (map fst (dispatched c));
  inv_below : forall r, r ∈ map fst (dispatched c) <-> (r < requestCounter c)%nat;
  inv_pending : forall r, pending c r = true -> awaited c r = true;
  inv_started : forall r,
    started_count c r
    = if monitoring c && bool_decide (r < requestCounter c)%nat then 1%nat else 0%nat;
  inv_terminal : forall r,
    (succeeded_count c r + failed_count c r)%nat
    = if monitoring c && awaited c r && negb (pending c r) then 1%nat else 0%nat;
  inv_resolved : forall r,
    resolved_count c r
    = if bool_decide (r < requestCounter c)%nat && negb (pending c r)
      then 1%nat else 0%nat;
  inv_closed : state c <> OPEN -> waiters c = ∅
}.

(** The waiter of a dispatched request is never changed: it stays as it is
    until it is removed, and no other waiter takes its place. *)
Definition stable (r : nat) (w : waiter) (c : connection) : Prop :=
  (r < requestCounter c)%nat
  /\ (waiters c !! r = Some w \/ waiters c !! r = None).

End Connection.

(** ** Notions the proofs are stated with *)

Module Frames.

(** Writing an optional value under a name. *)
Definition assign_opt (kv : string * option value) (ps : list (string * value))
  : list (string * value) :=
  match kv.2 with
  | Some v => assign_prop kv.1 v ps
  | None => ps
  end.

(** [keeps n Q m]: run in a store of at least [n] objects, [m] leaves the
    first [n] objects as they are, never shrinks the store, and returns
    only values that satisfy [Q]. *)
Definition keeps {A} (n : nat) (Q : A -> Prop) (m : js A) : Prop :=
  forall h, (n <= length h)%nat ->
    take n (m h).2 = take n h
    /\ (length h <= length (m h).2)%nat
    /\ forall a, (m h).1 = Returned a -> Q a.

(** A reference to an object created after the first [n]. *)
Definition fresh_ref (n : nat) (v : value) : Prop :=
  match v with
  | VRef l => (n <= l)%nat
  | _ => False
  end.

Definition any {A} (a : A) : Prop := True.

(** Two runs of a computation are compared: the second starts in a store
    that has [d] more objects after the first [n].  A location below [n]
    names the same object in both runs; a location created by the first run
    corresponds to the one [d] places further in the second. *)
Definition shift (n d : nat) (l : loc) : loc :=
  if decide (l < n)%nat then l else (l + d)%nat.

Definition ren (n d : nat) (v : value) : value :=
  match v with
  | VRef l => VRef (shift n d l)
  | _ => v
  end.

Definition ren_prop (n d : nat) (kv : string * value) : string * value :=
  (kv.1, ren n d kv.2).

Definition ren_obj (n d : nat) (o : object) : object :=
  Obj (cls o) (map (ren_prop n d) (props o)).

Definition heapR (n d : nat) (h1 h2 : heap) : Prop :=
  (n <= length h1)%nat
  /\ length h2 = (length h1 + d)%nat
  /\ forall l, h2 !! shift n d l = ren_obj n d <$> h1 !! l.

Definition valR (n d : nat) (v1 v2 : value) : Prop := v2 = ren n d v1.

Definition outR {A} (RA : A -> A -> Prop) (o1 o2 : outcome A) : Prop :=
  match o1, o2 with
  | Returned a1, Returned a2 => RA a1 a2
  | Thrown e1, Thrown e2 => e1 = e2
  | _, _ => False
  end.

Definition related (n d : nat) {A} (RA : A -> A -> Prop) (m1 m2 : js A) : Prop :=
  forall h1 h2, heapR n d h1 h2 ->
    outR RA (m1 h1).1 (m2 h2).1 /\ heapR n d (m1 h1).2 (m2 h2).2.

(** A value that points below [n]. *)
Definition below (n : nat) (v : value) : Prop :=
  match v with
  | VRef l => (l < n)%nat
  | _ => True
  end.

Definition unconstrained {A} (n : nat) (a : A) : Prop := True.

(** [sound n Q m]: run in a closed store of at least [n] objects, [m] ends
    in a closed store that is no shorter, and a returned value satisfies
    [Q] at the size of the final store. *)
Definition sound {A} (n : nat) (Q : nat -> A -> Prop) (m : js A) : Prop :=
  forall h, closed h -> (n <= length h)%nat ->
    closed (m h).2
    /\ (length h <= length (m h).2)%nat
    /\ forall a, (m h).1 = Returned a -> Q (length (m h).2) a.

End Frames.
Import Frames.

(** ** Notions for the further properties of connection/apm.js *)

Module Outcomes.

Definition is_string (v : value) : bool :=
  match v with
  | VStr _ => true
  | _ => false
  end.

(** The commands whose class or shape makes [extractCommand] read the
    namespace: GetMore, KillCursor and legacy finds. *)
Definition is_GetMore (h : heap) (command : value) : bool :=
  bool_decide (class_of h command = Some GetMoreC).

Definition is_KillCursor (h : heap) (command : value) : bool :=
  bool_decide (class_of h command = Some KillCursorC).

(** When [extractCommand] throws: on [undefined] and [null]; on a GetMore or
    a KillCursor whose [ns] is not a string; on a legacy find whose [ns] is
    not a string or whose [options] is [undefined] or [null]. *)
Definition extractCommand_throws (h : heap) (command : value) : bool :=
  nullish command
  || (if is_GetMore h command || is_KillCursor h command
      then negb (is_string (field h command "ns"))
      else is_legacy_find h command
           && (negb (is_string (field h command "ns"))
               || nullish (field h command "options"))).

(** When [extractReply] throws: on an [undefined] or [null] command that is
    not needed (never, for a GetMore or a KillCursor it is an object); on a
    GetMore or a legacy find whose reply has no [message]; on any other
    command but a KillCursor when the reply is [undefined] or [null]. *)
Definition extractReply_throws (h : heap) (command reply : value) : bool :=
  if is_GetMore h command then nullish (field h reply "message")
  else if is_KillCursor h command then false
  else nullish command
       || (if is_legacy_find h command then nullish (field h reply "message")
           else nullish reply).

(** The name of the command [extractCommand] builds, by variant. *)
Definition translated_name (h : heap) (command : value) : value :=
  if is_GetMore h command then VStr "getMore"
  else if is_KillCursor h command then VStr "killCursors"
  else if is_legacy_find h command then
    if truthy (field h (field h command "query") "$explain")
    then VStr "explain" else VStr "find"
  else first_key h (if truthy (field h command "query")
                    then field h command "query" else command).


(** The store after the constructor of a Started event has set
    [this.commandObj] for a command named [name]: nothing changes unless the
    name is sensitive; then a new object with the name as its only key is
    referenced from [commandObj] of the event at [t]. *)
Definition marked_store (t : nat) (name : value) (h1 : heap) : heap :=
  match name, h1 !! t with
  | VStr nm, Some o =>
      if is_sensitive name then
        <[length h1 := Obj Plain [(nm, VBool true)]]>
          (<[t := Obj (cls o) (assign_prop "commandObj" (VRef (length h1)) (props o))]>
             (h1 ++ [Obj Plain []]))
      else h1
  | _, _ => h1
  end.

(** Between two stores, only the object at [t] may have changed: every other
    object of the first is the same in the second. *)
Definition writes_only (t : nat) (h hf : heap) : Prop :=
  forall l o, l <> t -> h !! l = Some o -> hf !! l = Some o.

(** The properties of a Started event in the order they are written;
    [marker] is the location of the marker of a sensitive command. *)
Definition started_assigned (pool : Pool)
    (name cmd databaseName requestId : value) : list (string * value) :=
  [ ("command", cmd);
    ("databaseName", databaseName);
    ("commandName", name);
    ("requestId", requestId);
    ("connectionId", VStr (generateConnectionId pool)) ].

Definition started_fields (pool : Pool) (marker : nat)
    (name cmd databaseName requestId : value) : list (string * value) :=
  (if is_sensitive name then [("commandObj", VRef marker)] else [])
  ++ started_assigned pool name cmd databaseName requestId.

(** [ns.split('.')[i]] of a string. *)
Definition segment (ns : string) (i : nat) : value :=
  match split_on "."%char ns !! i with
  | Some s => VStr s
  | None => VUndefined
  end.

(** A string with a colon in it. *)
Fixpoint contains_colon (s : string) : bool :=
  match s with
  | EmptyString => false
  | String c s' => Ascii.eqb c ":"%char || contains_colon s'
  end.

(** The integers a Number holds exactly; ToString prints them as their
    decimal digits. *)
Definition safe_integer (n : Z) : Prop := (- 2 ^ 53 < n < 2 ^ 53)%Z.

(** The keys of the events, in the order they are written. *)
Definition started_keys (sensitive : bool) : list string :=
  (if sensitive then ["commandObj"] else [])
  ++ ["command"; "databaseName"; "commandName"; "requestId"; "connectionId"].

Definition terminal_keys (payload : string) : list string :=
  ["duration"; "commandName"; payload; "requestId"; "connectionId"].

End Outcomes.
Import Outcomes.

(** ** Further sample inputs *)

Module Cases.

(** A legacy find sent without an options document. *)
Definition legacy_find_without_options : doc :=
  DObj Plain
    [ ("query", DObj Plain [ ("$query", DObj Plain [("a", DNum 1)]) ]);
      ("ns", DStr "db.coll") ].

(** A legacy find sent without an options document whose namespace has no
    separator. *)
Definition legacy_find_no_dot_without_options : doc :=
  DObj Plain
    [ ("query", DObj Plain [ ("$query", DObj Plain [("a", DNum 1)]) ]);
      ("ns", DStr "coll") ].


(** A modern command that carries no namespace. *)
Definition ping_without_ns : doc :=
  DObj Plain
    [ ("query", DObj Plain [("ping", DNum 1)]);
      ("requestId", DNum 7) ].

End Cases.
Import Cases.

(** ** test/functional/unified-spec-runner/entities.ts *)

Module Entities.

(** The outcome of a method that throws [Error(message)]. *)
Inductive result (A : Type) : Type :=
| Value (a : A)
| Failure (message : string).
Arguments Value {A} a.
Arguments Failure {A} message.

(** A [Map] with string keys: its entries in insertion order.  [set] on a
    key the map has keeps the place of the entry. *)
Section StringMaps.

Context {A : Type}.

Fixpoint map_get (k : string) (m : list (string * A)) : option A :=
  match m with
  | [] => None
  | (k', v) :: m' => if String.eqb k k' then Some v else map_get k m'
  end.

Fixpoint map_set (k : string) (v : A) (m : list (string * A))
  : list (string * A) :=
  match m with
  | [] => [(k, v)]
  | (k', v') :: m' =>
      if String.eqb k k' then (k, v) :: m' else (k', v') :: map_set k v m'
  end.

(** [new Map(entries)]: the entries are set in order. *)
Definition map_of_entries (es : list (string * A)) : list (string * A) :=
  fold_left (fun m kv => map_set kv.1 kv.2 m) es [].

End StringMaps.

(** *** UnifiedMongoClient *)

Definition EVENT_NAME_LOOKUP : list (string * string) :=
  [ ("commandStartedEvent", "commandStarted");
    ("commandSucceededEvent", "commandSucceeded");
    ("commandFailedEvent", "commandFailed") ].

(** The part of a client description the capture of events reads;
    [None] is a field that is [undefined] or [null]. *)
Record ClientEntity : Type := MkClientEntity {
  uriOptions : option (list (string * doc));
  serverApi : doc;
  ignoreCommandMonitoringEvents : option (list string);
  observeEvents : option (list string)
}.

(** ToBoolean of a value given as a document. *)
Definition truthy_doc (d : doc) : bool :=
  match d with
  | DUndefined | DNull | DCut => false
  | DBool b => b
  | DNum n => negb (n =? 0)%Z
  | DStr s => negb (String.eqb s "")
  | DObj _ _ => true
  end.

(** [serverApiConfig()]; [env] is [process.env.MONGODB_API_VERSION], a
    string when it is set. *)
Definition serverApiConfig (env : option string) : doc :=
  match env with
  | Some version =>
      if negb (String.eqb version "")
      then DObj Plain [("version", DStr version)]
      else DUndefined
  | None => DUndefined
  end.

(** The options the constructor of a client gives to [super]:
    [{ monitorCommands: true, ...description.uriOptions, serverApi: ... }]. *)
Definition client_options (env : option string) (description : ClientEntity)
  : list (string * doc) :=
  map_set "serverApi"
    (if truthy_doc (serverApi description) then serverApi description
     else serverApiConfig env)
    (fold_left (fun o kv => map_set kv.1 kv.2 o)
       (default [] (uriOptions description))
       [("monitorCommands", DBool true)]).

(** [xs.includes(v)] on an array of strings. *)
Definition includes (xs : list string) (v : value) : bool :=
  match v with
  | VStr s => existsb (String.eqb s) xs
  | _ => false
  end.

(** The name a listener is registered under: the emitter keeps its
    listeners by property key, and [undefined] is the key ["undefined"]. *)
Definition event_key (name : option string) : string :=
  match name with
  | Some n => n
  | None => "undefined"
  end.

(** [xs] without the last occurrence of [x]. *)
Fixpoint remove_last (x : string) (xs : list string) : list string :=
  match xs with
  | [] => []
  | y :: ys =>
      if String.eqb x y && negb (existsb (String.eqb x) ys)
      then ys else y :: remove_last x ys
  end.

Section Clients.

(** A command event, of which the client reads [commandName]. *)
Context {CommandEvent : Type} (commandName : CommandEvent -> value).

(** The fields of a client, and the names under which the emitter it
    inherits has its [pushEvent] registered, in order of registration. *)
Record UnifiedMongoClient : Type := MkClient {
  events : list CommandEvent;
  failPoints : list doc;
  ignoredEvents : list string;
  observedEvents : list (option string);
  listeners : list string
}.

(** [this.on(eventName, this.pushEvent)]. *)
Definition on (eventName : option string) (c : UnifiedMongoClient)
  : UnifiedMongoClient :=
  MkClient (events c) (failPoints c) (ignoredEvents c) (observedEvents c)
    (listeners c ++ [event_key eventName]).

(** [this.off(eventName, this.pushEvent)]: the most recent registration
    under the name is removed, if there is one. *)
Definition off (eventName : option string) (c : UnifiedMongoClient)
  : UnifiedMongoClient :=
  MkClient (events c) (failPoints c) (ignoredEvents c) (observedEvents c)
    (remove_last (event_key eventName) (listeners c)).

(** The constructor, after [super]. *)
Definition new_UnifiedMongoClient (description : ClientEntity)
  : UnifiedMongoClient :=
  let ignored := default [] (ignoreCommandMonitoringEvents description)
                 ++ ["configureFailPoint"] in
  let observed := map (fun e => snd <$> find (fun kv => String.eqb e kv.1)
                                             EVENT_NAME_LOOKUP)
                    (default [] (observeEvents description)) in
  fold_left (fun c eventName => on eventName c) observed
    (MkClient [] [] ignored observed []).

Definition pushEvent (e : CommandEvent) (c : UnifiedMongoClient)
  : UnifiedMongoClient :=
  if negb (includes (ignoredEvents c) (commandName e))
  then MkClient (events c ++ [e]) (failPoints c) (ignoredEvents c)
         (observedEvents c) (listeners c)
  else c.

(** [this.emit(name, e)], as the driver does for a command event: the
    listeners registered under the name are called in order. *)
Definition emit (name : string) (e : CommandEvent) (c : UnifiedMongoClient)
  : UnifiedMongoClient :=
  fold_left (fun c' registered =>
               if String.eqb registered name then pushEvent e c' else c')
    (listeners c) c.

(** Disables command monitoring for the client and returns a list of the
    captured events. *)
Definition stopCapturingEvents (c : UnifiedMongoClient)
  : list CommandEvent * UnifiedMongoClient :=
  let c' := fold_left (fun c' eventName => off eventName c')
              (observedEvents c) c in
  (events c', c').

(** What happens to a client after its construction. *)
Inductive action : Type :=
| Emit (name : string) (e : CommandEvent)
| Stop.

Definition act (c : UnifiedMongoClient) (a : action) : UnifiedMongoClient :=
  match a with
  | Emit name e => emit name e c
  | Stop => (stopCapturingEvents c).2
  end.

(** How often [pushEvent] is registered under a name. *)
Definition registrations (name : string) (registered : list string) : nat :=
  length (List.filter (String.eqb name) registered).

(** What a client with the given registrations and ignored names captures
    of the emitted events. *)
Definition captured (ignored registered : list string)
    (emitted : list (string * CommandEvent)) : list CommandEvent :=
  flat_map (fun ne => if includes ignored (commandName ne.2) then []
                      else replicate (registrations ne.1 registered) ne.2)
    emitted.

End Clients.

Arguments UnifiedMongoClient CommandEvent : clear implicits.
Arguments action CommandEvent : clear implicits.
Arguments new_UnifiedMongoClient {CommandEvent} description.
Arguments Stop {CommandEvent}.

(** *** EntitiesMap *)

(** The constructors an entity type names. *)
Inductive EntityCtor : Type :=
| UnifiedMongoClientC | DbC | CollectionC | ClientSessionC | GridFSBucketC
| ChangeStreamC.

Definition ENTITY_CTORS : list (string * EntityCtor) :=
  [ ("client", UnifiedMongoClientC); ("db", DbC);
    ("collection", CollectionC); ("session", ClientSessionC);
    ("bucket", GridFSBucketC); ("stream", ChangeStreamC) ].

Section EntityMaps.

(** An entity is any value; of it the map reads whether it is truthy and
    of which constructors it is an instance. *)
Context {Entity : Type} (truthy_entity : Entity -> bool)
        (instance_of : Entity -> EntityCtor -> bool).

Record EntitiesMap : Type := MkEntitiesMap {
  entries : list (string * Entity);
  map_failPoints : list (string * doc)
}.

(** [new EntitiesMap(entries)]: the entries are set, and the fail points
    are a new empty map. *)
Definition new_EntitiesMap (es : list (string * Entity)) : EntitiesMap :=
  MkEntitiesMap (map_of_entries es) [].

Definition mapOf (m : EntitiesMap) (type : string) : result EntitiesMap :=
  match map_get type ENTITY_CTORS with
  | None => Failure ("Unknown type " ++ type)
  | Some ctor =>
      Value (new_EntitiesMap
               (List.filter (fun kv => instance_of kv.2 ctor) (entries m)))
  end.

(** [!entity] for what [this.get(key)] gives. *)
Definition absent (entity : option Entity) : bool :=
  match entity with
  | Some e => negb (truthy_entity e)
  | None => true
  end.

Definition getEntity (m : EntitiesMap) (type key : string)
    (assertExists : bool) : result (option Entity) :=
  let entity := map_get key (entries m) in
  if absent entity then
    if assertExists
    then Failure ("Entity '" ++ key ++ "' does not exist")
    else Value None
  else
    match map_get type ENTITY_CTORS with
    | None => Failure ("Unknown type " ++ type)
    | Some ctor =>
        match entity with
        | Some e =>
            if negb (instance_of e ctor)
            then Failure (key ++ " is not an instance of " ++ type)
            else Value (Some e)
        | None => Value None
        end
    end.

(** No key twice: what [set] keeps. *)
Definition distinct_keys (m : EntitiesMap) : Prop :=
  NoDup (map fst (entries m)).

End EntityMaps.

Arguments EntitiesMap Entity : clear implicits.
Arguments new_EntitiesMap {Entity} es.
Arguments distinct_keys {Entity} m.

(** *** Sample entities and events *)

(** Entities of a test: a client, a database, a collection, and the number
    an operation has returned. *)
Inductive sample_entity : Type :=
| AClient | ADatabase | ACollection | ANumber (n : Z).

Definition sample_truthy (e : sample_entity) : bool :=
  match e with
  | ANumber n => negb (n =? 0)%Z
  | _ => true
  end.

Definition sample_instance_of (e : sample_entity) (c : EntityCtor) : bool :=
  match e, c with
  | AClient, UnifiedMongoClientC => true
  | ADatabase, DbC => true
  | ACollection, CollectionC => true
  | _, _ => false
  end.

Definition sample_entities : EntitiesMap sample_entity :=
  MkEntitiesMap
    [ ("client0", AClient); ("database0", ADatabase); ("count", ANumber 0);
      ("collection0", ACollection); ("database1", ADatabase) ]
    [("localhost:27017", DStr "failCommand")].

End Entities.

(** ** Facts about property lists *)

Section PropertyLists.

Implicit Types (k : string) (v : value) (ps : list (string * value)).

Lemma lookup_assign_eq k v ps : lookup_prop k (assign_prop k v ps) = v.
Proof.
  induction ps as [|[k' v'] ps IH]; simpl.
  - by rewrite String.eqb_refl.
  - destruct (String.eqb_spec k k') as [->|Hne]; simpl.
    + by rewrite String.eqb_refl.
    + destruct (String.eqb_spec k k'); [done|]. exact IH.
Qed.

Lemma lookup_assign_ne k k' v ps :
  k <> k' -> lookup_prop k (assign_prop k' v ps) = lookup_prop k ps.
Proof.
  intros Hne. induction ps as [|[k0 v0] ps IH]; simpl.
  - destruct (String.eqb_spec k k'); [done|reflexivity].
  - destruct (String.eqb_spec k' k0) as [->|Hne0]; simpl.
    + destruct (String.eqb_spec k k0); [done|reflexivity].
    + destruct (String.eqb_spec k k0); [reflexivity|exact IH].
Qed.

Lemma assign_prop_fresh k v ps :
  k ∉ map fst ps -> assign_prop k v ps = ps ++ [(k, v)].
Proof.
  induction ps as [|[k' v'] ps IH]; simpl; intros Hk; [reflexivity|].
  apply not_elem_of_cons in Hk as [Hne Hk].
  destruct (String.eqb_spec k k'); [done|]. by rewrite IH.
Qed.

End PropertyLists.

(** ** Facts about the store operations *)

Section StoreSteps.

Implicit Types (h : heap) (l : loc) (o : object).

Lemma props_at_app_l h ex l : (l < length h)%nat -> props_at (h ++ ex) l = props_at h l.
Proof. intros Hl. unfold props_at. by rewrite lookup_app_l. Qed.

Lemma props_at_Some h l o : h !! l = Some o -> props_at h l = props o.
Proof. intros H. unfold props_at. by rewrite H. Qed.

Lemma get_prop_heap v k h : (get_prop v k h).2 = h.
Proof. by destruct v. Qed.

Lemma get_prop_ref l k h :
  get_prop (VRef l) k h = (Returned (field h (VRef l) k), h).
Proof. reflexivity. Qed.

Lemma get_prop_field v k h :
  nullish v = false -> get_prop v k h = (Returned (field h v k), h).
Proof. by destruct v. Qed.

Lemma set_prop_last h c ps k v :
  set_prop (VRef (length h)) k v (h ++ [Obj c ps])
  = (Returned tt, h ++ [Obj c (assign_prop k v ps)]).
Proof.
  simpl. rewrite list_lookup_middle by done. simpl.
  by rewrite (insert_app_r_alt h) by lia; rewrite Nat.sub_diag.
Qed.

Lemma field_app_l h ex v k :
  match v with VRef l => (l < length h)%nat | _ => True end ->
  field (h ++ ex) v k = field h v k.
Proof. destruct v; simpl; auto using props_at_app_l. intros. by rewrite props_at_app_l. Qed.

End StoreSteps.

(** ** Running a computation step by step *)

Lemma bind_returned {A B} (m : js A) (k : A -> js B) h a h' :
  m h = (Returned a, h') -> bind m k h = k a h'.
Proof. intros E. unfold bind. by rewrite E. Qed.

Lemma bind_thrown {A B} (m : js A) (k : A -> js B) h e h' :
  m h = (Thrown e, h') -> bind m k h = (Thrown e, h').
Proof. intros E. unfold bind. by rewrite E. Qed.

Lemma bind_assoc {A B C} (m : js A) (k : A -> js B) (k' : B -> js C) h :
  bind (bind m k) k' h = bind m (fun a => bind (k a) k') h.
Proof. unfold bind. destruct (m h) as [[a|e] h']; reflexivity. Qed.

(** [run_with tac] runs the first step of a computation whose result [tac]
    can establish. *)
Ltac run_with tac :=
  lazymatch goal with
  | |- bind ?m ?k ?h = _ =>
      erewrite (bind_returned m k h) by tac; cbv beta
  end.

Ltac run_in E tac :=
  lazymatch type of E with
  | bind ?m ?k ?h = _ =>
      erewrite (bind_returned m k h) in E by tac; cbv beta in E
  end.

(** ** The upconversion of a legacy find *)

Section LegacyFind.

Lemma list_omap_map_fst_snd {A} (name : A -> string) (sel : A -> option value) xs :
  omap (fun kv : string * option value => pair kv.1 <$> kv.2)
       (map (fun x => (name x, sel x)) xs)
  = omap (fun x => pair (name x) <$> sel x) xs.
Proof.
  induction xs as [|x xs IH]; [done|].
  cbn [map omap list_omap fst snd]. destruct (sel x); cbn; by rewrite <- IH.
Qed.

Lemma fold_assign_fresh (kvs : list (string * option value)) ps :
  NoDup (map fst ps ++ map fst kvs) ->
  fold_left (fun ps kv => assign_opt kv ps) kvs ps
  = ps ++ omap (fun kv => pair kv.1 <$> kv.2) kvs.
Proof.
  revert ps. induction kvs as [|[k [v|]] kvs IH]; intros ps Hnd; simpl.
  - by rewrite app_nil_r.
  - unfold assign_opt at 2; simpl.
    assert (Hk : k ∉ map fst ps).
    { apply NoDup_app in Hnd as (_ & Hdisj & _). intros Hin.
      apply (Hdisj _ Hin). simpl. left. }
    rewrite assign_prop_fresh by done. rewrite IH.
    + by rewrite <- app_assoc.
    + rewrite map_app. simpl. by rewrite <- app_assoc.
  - unfold assign_opt at 2; simpl. apply IH.
    apply NoDup_app in Hnd as (Hps & Hdisj & Hk).
    apply NoDup_cons in Hk as [_ Hk].
    apply NoDup_app. split_and!; [done| |done].
    intros x Hx Hx'. apply (Hdisj x Hx). by right.
Qed.

Lemma for_each_assign {A} (xs : list A) (body : A -> js unit)
    (name : A -> string) (sel : A -> option value) h c ps :
  (forall x ps', body x (h ++ [Obj c ps'])
                 = (Returned tt, h ++ [Obj c (assign_opt (name x, sel x) ps')])) ->
  for_each xs body (h ++ [Obj c ps])
  = (Returned tt,
     h ++ [Obj c (fold_left (fun ps kv => assign_opt kv ps)
                            (map (fun x => (name x, sel x)) xs) ps)]).
Proof.
  intros Hbody. revert ps. induction xs as [|x xs IH]; intros ps; simpl.
  - reflexivity.
  - unfold bind. rewrite Hbody. apply IH.
Qed.

Lemma upconvert_legacy_find_eq h lc ns :
  (lc < length h)%nat ->
  field h (VRef lc) "ns" = VStr ns ->
  is_legacy_find h (VRef lc) = true ->
  nullish (field h (VRef lc) "options") = false ->
  valid h (field h (VRef lc) "options") ->
  upconvert_legacy_find (VRef lc) h
  = let result := Obj Plain (legacy_find_fields h (VRef lc) ns) in
    if truthy (field h (field h (VRef lc) "query") "$explain")
    then (Returned (VRef (S (length h))),
          h ++ [result; Obj Plain [("explain", VRef (length h))]])
    else (Returned (VRef (length h)), h ++ [result]).
Proof.
  intros Hlc Hns Hleg Hopt Hval.
  apply andb_prop in Hleg as [Hq Hdq].
  set (c := VRef lc) in *.
  set (q := field h c "query") in *.
  set (o := field h c "options") in *.
  assert (Hqv : valid h q).
  { destruct q as [| | | | |lq]; simpl; try done.
    destruct (decide (lq < length h)%nat); [done|].
    simpl in Hdq. unfold props_at in Hdq.
    rewrite lookup_ge_None_2 in Hdq by lia. done. }
  assert (Hqn : nullish q = false) by (by destruct q).
  assert (Hrd : forall v ps k, nullish v = false -> valid h v ->
              get_prop v k (h ++ [Obj Plain ps])
              = (Returned (field h v k), h ++ [Obj Plain ps])).
  { intros v ps k Hn Hv. rewrite get_prop_field by done.
    by rewrite field_app_l. }
  assert (Hc : forall ps k, get_prop c k (h ++ [Obj Plain ps])
                            = (Returned (field h c k), h ++ [Obj Plain ps])).
  { intros. by apply Hrd. }
  unfold upconvert_legacy_find.
  run_with ltac:(by apply get_prop_field). rewrite Hns.
  run_with ltac:(reflexivity). fold (collection_of ns).
  run_with ltac:(reflexivity).
  run_with ltac:(
    apply (for_each_assign _ _ (table_get LEGACY_FIND_QUERY_MAP)
             (fun k => pick defined (field h q k)));
    intros k ps'; run_with ltac:(apply Hc); fold q;
    run_with ltac:(by apply Hrd);
    unfold assign_opt, pick; cbn [fst snd];
    destruct (defined (field h q k)); [|reflexivity];
    run_with ltac:(apply Hc); fold q;
    run_with ltac:(by apply Hrd); apply set_prop_last).
  run_with ltac:(
    apply (for_each_assign _ _ (table_get LEGACY_FIND_OPTIONS_MAP)
             (fun k => pick defined (field h o k)));
    intros k ps'; run_with ltac:(apply Hc); fold o;
    run_with ltac:(by apply Hrd);
    unfold assign_opt, pick; cbn [fst snd];
    destruct (defined (field h o k)); [|reflexivity];
    run_with ltac:(apply Hc); fold o;
    run_with ltac:(by apply Hrd); apply set_prop_last).
  run_with ltac:(
    apply (for_each_assign _ _ (fun k => k)
             (fun k => pick truthy (field h c k)));
    intros k ps'; run_with ltac:(apply Hc);
    unfold assign_opt, pick; cbn [fst snd];
    destruct (truthy (field h c k)); [|reflexivity];
    run_with ltac:(apply Hc); apply set_prop_last).
  rewrite <- !fold_left_app.
  run_with ltac:(apply Hc).
  match goal with
  | |- context [fold_left ?f ?l ?ps0] => set (kvs := l); set (ps3 := fold_left f kvs ps0)
  end.
  assert (Hps : assign_opt ("limit", pick defined (field h c "pre32Limit")) ps3
                = legacy_find_fields h c ns).
  { change (assign_opt ("limit", pick defined (field h c "pre32Limit")) ps3)
      with (fold_left (fun ps kv => assign_opt kv ps)
              [("limit", pick defined (field h c "pre32Limit"))] ps3).
    subst ps3. rewrite <- fold_left_app.
    rewrite fold_assign_fresh.
    - subst kvs. unfold legacy_find_fields, copied.
      rewrite !omap_app, !list_omap_map_fst_snd, <- !app_assoc.
      cbn [app]. reflexivity.
    - subst kvs. rewrite !map_app, !map_map. vm_compute.
      apply (bool_decide_unpack _). vm_compute. exact I. }
  run_with ltac:(
    instantiate (1 := h ++ [Obj Plain (legacy_find_fields h c ns)]);
    instantiate (1 := tt);
    rewrite <- Hps; unfold assign_opt, pick; cbn [fst snd];
    destruct (defined (field h c "pre32Limit")); [|reflexivity];
    run_with ltac:(apply Hc); apply set_prop_last).
  run_with ltac:(apply Hc). fold q.
  run_with ltac:(by apply Hrd).
  destruct (truthy (field h q "$explain")); cbn zeta.
  - unfold alloc. rewrite length_app. simpl. rewrite Nat.add_1_r.
    by rewrite <- app_assoc.
  - reflexivity.
Qed.

End LegacyFind.

(** ** The branches of the translator *)

Section Translator.

Implicit Types (h : heap) (c v : value).

Lemma instanceof_eq v cl h :
  instanceof v cl h = (Returned (bool_decide (class_of h v = Some cl)), h).
Proof.
  destruct v; try reflexivity. simpl. destruct (h !! l) as [o|]; simpl.
  - do 2 f_equal. apply bool_decide_ext. split; congruence.
  - reflexivity.
Qed.

Lemma legacy_test_eq c h :
  nullish c = false ->
  (query <- get_prop c "query" ;;
   if truthy query then
     query' <- get_prop c "query" ;;
     q <- get_prop query' "$query" ;;
     ret (defined q)
   else ret false) h
  = (Returned (is_legacy_find h c), h).
Proof.
  intros Hc. unfold is_legacy_find.
  run_with ltac:(by apply get_prop_field).
  destruct (truthy (field h c "query")) eqn:Hq; [|reflexivity].
  run_with ltac:(by apply get_prop_field).
  run_with ltac:(apply get_prop_field; by destruct (field h c "query")).
  reflexivity.
Qed.

Lemma extractCommand_GetMore h c ns :
  class_of h c = Some GetMoreC ->
  field h c "ns" = VStr ns ->
  extractCommand c h
  = (Returned (VRef (length h)),
     h ++ [Obj Plain [ ("getMore", field h c "cursorId");
                       ("collection", collection_of ns);
                       ("batchSize", field h c "numberToReturn") ]]).
Proof.
  intros Hcl Hns. assert (nullish c = false) by (by destruct c).
  unfold extractCommand.
  run_with ltac:(apply instanceof_eq). rewrite Hcl, bool_decide_eq_true_2 by done.
  do 2 run_with ltac:(by apply get_prop_field). rewrite Hns.
  run_with ltac:(reflexivity).
  run_with ltac:(by apply get_prop_field).
  reflexivity.
Qed.

Lemma extractCommand_KillCursor h c ns :
  class_of h c = Some KillCursorC ->
  field h c "ns" = VStr ns ->
  extractCommand c h
  = (Returned (VRef (length h)),
     h ++ [Obj Plain [ ("killCursors", collection_of ns);
                       ("cursors", field h c "cursorIds") ]]).
Proof.
  intros Hcl Hns. assert (nullish c = false) by (by destruct c).
  unfold extractCommand.
  run_with ltac:(apply instanceof_eq). rewrite Hcl, bool_decide_eq_false_2 by done.
  run_with ltac:(apply instanceof_eq). rewrite Hcl, bool_decide_eq_true_2 by done.
  run_with ltac:(by apply get_prop_field). rewrite Hns.
  run_with ltac:(reflexivity).
  run_with ltac:(by apply get_prop_field).
  reflexivity.
Qed.

Lemma extractCommand_generic h c :
  nullish c = false ->
  class_of h c <> Some GetMoreC ->
  class_of h c <> Some KillCursorC ->
  extractCommand c h
  = if is_legacy_find h c then upconvert_legacy_find c h
    else (Returned (if truthy (field h c "query") then field h c "query" else c), h).
Proof.
  intros Hc Hgm Hkc. unfold extractCommand.
  run_with ltac:(apply instanceof_eq). rewrite bool_decide_eq_false_2 by done.
  run_with ltac:(apply instanceof_eq). rewrite bool_decide_eq_false_2 by done.
  rewrite <- bind_assoc.
  run_with ltac:(by apply legacy_test_eq).
  destruct (is_legacy_find h c); [reflexivity|].
  run_with ltac:(by apply get_prop_field).
  destruct (truthy (field h c "query")); [|reflexivity].
  by apply get_prop_field.
Qed.

End Translator.

(** ** The translator: upconversion, namespaces, replies *)

Lemma contains_dot_split s :
  contains_dot s = false -> split_on "."%char s = [s].
Proof.
  induction s as [|a s IH]; simpl; [done|].
  intros H. apply orb_false_elim in H as [Ha Hs].
  rewrite Ha, IH by done. reflexivity.
Qed.

Lemma collection_of_no_dot s :
  contains_dot s = false -> collection_of s = VUndefined.
Proof. intros H. unfold collection_of. by rewrite contains_dot_split. Qed.

Lemma legacy_find_is_object h c :
  is_legacy_find h c = true -> exists l, c = VRef l /\ (l < length h)%nat.
Proof.
  unfold is_legacy_find. intros H. apply andb_prop in H as [H _].
  destruct c as [| | | | |l]; try done. exists l. split; [done|].
  destruct (decide (l < length h)%nat); [done|].
  simpl in H. unfold props_at in H. by rewrite lookup_ge_None_2 in H by lia.
Qed.

Lemma extractCommand_legacy_find h command ns :
  class_of h command <> Some GetMoreC ->
  class_of h command <> Some KillCursorC ->
  is_legacy_find h command = true ->
  field h command "ns" = VStr ns ->
  nullish (field h command "options") = false ->
  valid h (field h command "options") ->
  extractCommand command h
  = let result := Obj Plain (legacy_find_fields h command ns) in
    if truthy (field h (field h command "query") "$explain")
    then (Returned (VRef (S (length h))),
          h ++ [result; Obj Plain [("explain", VRef (length h))]])
    else (Returned (VRef (length h)), h ++ [result]).
Proof.
  intros Hgm Hkc Hleg Hns Hopt Hval.
  destruct (legacy_find_is_object _ _ Hleg) as (lc & -> & Hlc).
  rewrite extractCommand_generic, Hleg by done.
  by apply upconvert_legacy_find_eq.
Qed.

(** The GetMore and the KillCursors of section 8 of the specification. *)
Example extractCommand_get_more :
  run_on get_more extractCommand 5
  = Returned (DObj Plain [ ("getMore", DNum 123); ("collection", DStr "coll");
                           ("batchSize", DNum 50) ]).
Proof. reflexivity. Qed.

Example extractCommand_kill_cursors :
  run_on kill_cursors extractCommand 5
  = Returned (DObj Plain
                [ ("killCursors", DStr "coll");
                  ("cursors", DObj ArrayC [("0", DNum 1); ("1", DNum 2)]) ]).
Proof. reflexivity. Qed.

(** C4.  A legacy find (a command whose query document has a [$query] key)
    with a string namespace and an options document is upconverted to a
    fresh document whose fields are [find] with the collection, then each
    recognized modifier, then each recognized legacy option, then each
    truthy OP_QUERY flag, then [limit] for [pre32Limit], in this order; the
    document is wrapped as [{explain: ...}] when the query has a truthy
    [$explain].  The legacy find of the specification yields exactly
    [{find:'coll', filter:{a:1}, sort:{b:1}, skip:5, batchSize:10}]. *)
Theorem extractCommand_upconverts_legacy_find :
  (forall h command ns,
     class_of h command <> Some GetMoreC ->
     class_of h command <> Some KillCursorC ->
     is_legacy_find h command = true ->
     field h command "ns" = VStr ns ->
     nullish (field h command "options") = false ->
     valid h (field h command "options") ->
     extractCommand command h
     = let result := Obj Plain (legacy_find_fields h command ns) in
       if truthy (field h (field h command "query") "$explain")
       then (Returned (VRef (S (length h))),
             h ++ [result; Obj Plain [("explain", VRef (length h))]])
       else (Returned (VRef (length h)), h ++ [result]))
  /\ run_on legacy_find_input extractCommand 5 = Returned legacy_find_output.
Proof.
  split; [exact extractCommand_legacy_find|reflexivity].
Qed.

Lemma extractCommand_upconverts_legacy_find_witness :
  let h := store_of legacy_find_input in
  let command := value_of legacy_find_input in
  extractCommand command h
  = (Returned (VRef 5),
     h ++ [Obj Plain [ ("find", VStr "coll"); ("filter", VRef 0);
                       ("sort", VRef 1); ("skip", VNum 5);
                       ("batchSize", VNum 10) ]]).
Proof.
  intros h command.
  exact (proj1 extractCommand_upconverts_legacy_find h command "db.coll"
           ltac:(vm_compute; congruence) ltac:(vm_compute; congruence)
           eq_refl eq_refl eq_refl ltac:(vm_compute; lia)).
Defined.

(** C10, as the code has it.  When the namespace of a GetMore, of a
    KillCursors, or of a legacy find that carries an options document is a
    string without a [.], [extractCommand] returns a document and does not
    throw; its collection-valued field ([collection], [killCursors], [find])
    is present with the value [undefined].  The options document is needed:
    the upconversion reads each of its recognized fields. *)
Theorem extractCommand_namespace_without_dot h command ns :
  contains_dot ns = false ->
  field h command "ns" = VStr ns ->
  (class_of h command = Some GetMoreC ->
   extractCommand command h
   = (Returned (VRef (length h)),
      h ++ [Obj Plain [ ("getMore", field h command "cursorId");
                        ("collection", VUndefined);
                        ("batchSize", field h command "numberToReturn") ]]))
  /\ (class_of h command = Some KillCursorC ->
      extractCommand command h
      = (Returned (VRef (length h)),
         h ++ [Obj Plain [ ("killCursors", VUndefined);
                           ("cursors", field h command "cursorIds") ]]))
  /\ (class_of h command <> Some GetMoreC ->
      class_of h command <> Some KillCursorC ->
      is_legacy_find h command = true ->
      nullish (field h command "options") = false ->
      valid h (field h command "options") ->
      exists r h' rest,
        extractCommand command h = (Returned r, h')
        /\ h' !! length h = Some (Obj Plain (("find", VUndefined) :: rest))
        /\ (r = VRef (length h) \/ field h' r "explain" = VRef (length h))).
Proof.
  intros Hdot Hns. split_and!.
  - intros Hcl. rewrite (extractCommand_GetMore _ _ ns) by done.
    by rewrite collection_of_no_dot.
  - intros Hcl. rewrite (extractCommand_KillCursor _ _ ns) by done.
    by rewrite collection_of_no_dot.
  - intros Hgm Hkc Hleg Hopt Hval.
    rewrite (extractCommand_legacy_find _ _ ns) by done.
    unfold legacy_find_fields. rewrite collection_of_no_dot by done.
    cbn zeta.
    destruct (truthy (field h (field h command "query") "$explain"));
      do 3 eexists; (split; [reflexivity|]); split.
    + by rewrite lookup_app_r, Nat.sub_diag by lia.
    + right. simpl. unfold props_at.
      rewrite lookup_app_r by lia.
      replace (S (length h) - length h)%nat with 1%nat by lia. reflexivity.
    + by rewrite lookup_app_r, Nat.sub_diag by lia.
    + by left.
Qed.

Lemma extractCommand_namespace_without_dot_witness :
  (extractCommand (value_of get_more_no_dot) (store_of get_more_no_dot)
   = (Returned (VRef 1),
      store_of get_more_no_dot
        ++ [Obj Plain [ ("getMore", VNum 123); ("collection", VUndefined);
                        ("batchSize", VNum 50) ]]))
  /\ (extractCommand (value_of kill_cursors_no_dot) (store_of kill_cursors_no_dot)
      = (Returned (VRef 2),
         store_of kill_cursors_no_dot
           ++ [Obj Plain [ ("killCursors", VUndefined); ("cursors", VRef 0) ]]))
  /\ (exists r h' rest,
        extractCommand (value_of legacy_find_no_dot) (store_of legacy_find_no_dot)
        = (Returned r, h')
        /\ h' !! 4%nat = Some (Obj Plain (("find", VUndefined) :: rest))
        /\ (r = VRef 4 \/ field h' r "explain" = VRef 4)).
Proof.
  split_and!.
  - exact (proj1 (extractCommand_namespace_without_dot
                    (store_of get_more_no_dot) (value_of get_more_no_dot) "coll"
                    eq_refl eq_refl) eq_refl).
  - exact (proj1 (proj2 (extractCommand_namespace_without_dot
                    (store_of kill_cursors_no_dot) (value_of kill_cursors_no_dot)
                    "coll" eq_refl eq_refl)) eq_refl).
  - exact (proj2 (proj2 (extractCommand_namespace_without_dot
                    (store_of legacy_find_no_dot) (value_of legacy_find_no_dot)
                    "coll" eq_refl eq_refl))
             ltac:(vm_compute; congruence) ltac:(vm_compute; congruence)
             eq_refl eq_refl ltac:(vm_compute; lia)).
Defined.

(** C10 as stated fails: a legacy find whose namespace is a string without
    a [.] and that carries no options document makes [extractCommand] throw
    a TypeError, and no document is returned. *)
Lemma legacy_find_no_dot_without_options_throws :
  let h := store_of legacy_find_no_dot_without_options in
  let command := value_of legacy_find_no_dot_without_options in
  field h command "ns" = VStr "coll"
  /\ contains_dot "coll" = false
  /\ class_of h command = Some Plain
  /\ is_legacy_find h command = true
  /\ field h command "options" = VUndefined
  /\ exists h', extractCommand command h = (Thrown TypeError, h').
Proof.
  intros h command. split_and!; try reflexivity.
  eexists. vm_compute. reflexivity.
Qed.

Section Replies.

Implicit Types (h : heap) (command reply : value).

Lemma nullish_field_source h v k : nullish (field h v k) = false -> nullish v = false.
Proof. by destruct v. Qed.

Lemma cursor_reply_eq h command reply batch :
  nullish command = false ->
  nullish (field h reply "message") = false ->
  (message <- get_prop reply "message" ;;
   id <- get_prop message "cursorId" ;;
   ns <- get_prop command "ns" ;;
   message' <- get_prop reply "message" ;;
   documents <- get_prop message' "documents" ;;
   cursor <- alloc Plain [("id", id); ("ns", ns); (batch, documents)] ;;
   alloc Plain [("ok", VNum 1); ("cursor", cursor)]) h
  = (Returned (VRef (S (length h))),
     h ++ [ Obj Plain [ ("id", field h (field h reply "message") "cursorId");
                        ("ns", field h command "ns");
                        (batch, field h (field h reply "message") "documents") ];
            Obj Plain [ ("ok", VNum 1); ("cursor", VRef (length h)) ] ]).
Proof.
  intros Hc Hm. pose proof (nullish_field_source _ _ _ Hm) as Hr.
  do 5 run_with ltac:(by apply get_prop_field).
  run_with ltac:(reflexivity).
  unfold alloc. rewrite length_app, <- app_assoc. simpl.
  by rewrite Nat.add_1_r.
Qed.

End Replies.

(** C5.  [extractReply] by command variant: for a GetMore,
    [{ok: 1, cursor: {id, ns, nextBatch}}] from the reply's cursor id, the
    command's namespace and the reply's documents; for a KillCursors,
    [{ok: 1, cursorsUnknown}] with the command's cursor ids; for a legacy
    find, [{ok: 1, cursor: {id, ns, firstBatch}}]; for any other command the
    reply's [result], the very same value, with the store unchanged.  The
    cursor-shaped replies carry a [message]; the other replies are
    objects. *)
Theorem extractReply_by_variant h command reply :
  (class_of h command = Some GetMoreC ->
   nullish (field h reply "message") = false ->
   extractReply command reply h
   = (Returned (VRef (S (length h))),
      h ++ [ Obj Plain [ ("id", field h (field h reply "message") "cursorId");
                         ("ns", field h command "ns");
                         ("nextBatch", field h (field h reply "message") "documents") ];
             Obj Plain [ ("ok", VNum 1); ("cursor", VRef (length h)) ] ]))
  /\ (class_of h command = Some KillCursorC ->
      extractReply command reply h
      = (Returned (VRef (length h)),
         h ++ [ Obj Plain [ ("ok", VNum 1);
                            ("cursorsUnknown", field h command "cursorIds") ] ]))
  /\ (class_of h command <> Some GetMoreC ->
      class_of h command <> Some KillCursorC ->
      is_legacy_find h command = true ->
      nullish (field h reply "message") = false ->
      extractReply command reply h
      = (Returned (VRef (S (length h))),
         h ++ [ Obj Plain [ ("id", field h (field h reply "message") "cursorId");
                            ("ns", field h command "ns");
                            ("firstBatch", field h (field h reply "message") "documents") ];
                Obj Plain [ ("ok", VNum 1); ("cursor", VRef (length h)) ] ]))
  /\ (nullish command = false ->
      class_of h command <> Some GetMoreC ->
      class_of h command <> Some KillCursorC ->
      is_legacy_find h command = false ->
      nullish reply = false ->
      extractReply command reply h = (Returned (field h reply "result"), h)).
Proof.
  split_and!.
  - intros Hcl Hm. assert (nullish command = false) by (by destruct command).
    unfold extractReply.
    run_with ltac:(apply instanceof_eq). rewrite Hcl, bool_decide_eq_true_2 by done.
    by apply cursor_reply_eq.
  - intros Hcl. assert (nullish command = false) by (by destruct command).
    unfold extractReply.
    run_with ltac:(apply instanceof_eq). rewrite Hcl, bool_decide_eq_false_2 by done.
    run_with ltac:(apply instanceof_eq). rewrite Hcl, bool_decide_eq_true_2 by done.
    run_with ltac:(by apply get_prop_field). reflexivity.
  - intros Hgm Hkc Hleg Hm.
    destruct (legacy_find_is_object _ _ Hleg) as (lc & -> & Hlc).
    unfold extractReply.
    run_with ltac:(apply instanceof_eq). rewrite bool_decide_eq_false_2 by done.
    run_with ltac:(apply instanceof_eq). rewrite bool_decide_eq_false_2 by done.
    rewrite <- bind_assoc.
    run_with ltac:(by apply legacy_test_eq). rewrite Hleg.
    by apply cursor_reply_eq.
  - intros Hc Hgm Hkc Hleg Hr. unfold extractReply.
    run_with ltac:(apply instanceof_eq). rewrite bool_decide_eq_false_2 by done.
    run_with ltac:(apply instanceof_eq). rewrite bool_decide_eq_false_2 by done.
    rewrite <- bind_assoc.
    run_with ltac:(by apply legacy_test_eq). rewrite Hleg.
    by apply get_prop_field.
Qed.

Lemma extractReply_by_variant_witness :
  (let h := store_of (exchange get_more cursor_reply) in
   extractReply (VRef 0) (VRef 4) h
   = (Returned (VRef 7),
      h ++ [ Obj Plain [("id", VNum 0); ("ns", VStr "db.coll"); ("nextBatch", VRef 2)];
             Obj Plain [("ok", VNum 1); ("cursor", VRef 6)] ]))
  /\ (let h := store_of (exchange kill_cursors cursor_reply) in
      extractReply (VRef 1) (VRef 5) h
      = (Returned (VRef 7),
         h ++ [ Obj Plain [("ok", VNum 1); ("cursorsUnknown", VRef 0)] ]))
  /\ (let h := store_of (exchange legacy_find_input cursor_reply) in
      extractReply (VRef 4) (VRef 8) h
      = (Returned (VRef 11),
         h ++ [ Obj Plain [("id", VNum 0); ("ns", VStr "db.coll"); ("firstBatch", VRef 6)];
                Obj Plain [("ok", VNum 1); ("cursor", VRef 10)] ]))
  /\ (let h := store_of (exchange ping ok_reply) in
      extractReply (VRef 1) (VRef 3) h = (Returned (VRef 2), h)).
Proof.
  split_and!; intros h.
  - exact (proj1 (extractReply_by_variant h (VRef 0) (VRef 4)) eq_refl eq_refl).
  - exact (proj1 (proj2 (extractReply_by_variant h (VRef 1) (VRef 5))) eq_refl).
  - exact (proj1 (proj2 (proj2 (extractReply_by_variant h (VRef 4) (VRef 8))))
             ltac:(vm_compute; congruence) ltac:(vm_compute; congruence)
             eq_refl eq_refl).
  - exact (proj2 (proj2 (proj2 (extractReply_by_variant h (VRef 1) (VRef 3))))
             eq_refl ltac:(vm_compute; congruence) ltac:(vm_compute; congruence)
             eq_refl eq_refl).
Defined.

(** ** The translator never writes to an object that existed before *)

Section Keeps.

Context (n : nat).

Lemma keeps_weaken {A} (Q Q' : A -> Prop) m :
  keeps n Q m -> (forall a, Q a -> Q' a) -> keeps n Q' m.
Proof. intros Hm HQ h Hh. destruct (Hm h Hh) as (? & ? & ?). eauto. Qed.

Lemma keeps_ret {A} (a : A) : keeps n any (ret a).
Proof. by intros h Hh. Qed.

Lemma keeps_throw {A} e : keeps n (@any A) (throw e).
Proof. by intros h Hh. Qed.

Lemma keeps_bind {A B} (Q : A -> Prop) (Q' : B -> Prop) m k :
  keeps n Q m -> (forall a, Q a -> keeps n Q' (k a)) -> keeps n Q' (bind m k).
Proof.
  intros Hm Hk h Hh. destruct (Hm h Hh) as (Ht & Hl & HQ).
  unfold bind. destruct (m h) as [[a|e] h'] eqn:E; simpl in *.
  - destruct (Hk a (HQ a eq_refl) h') as (Ht' & Hl' & HQ'); [lia|].
    split_and!; [congruence|lia|done].
  - split_and!; [done|done|]. intros a Ha. discriminate.
Qed.

Lemma keeps_get_prop v k : keeps n any (get_prop v k).
Proof. intros h Hh. by destruct v. Qed.

Lemma keeps_instanceof v c : keeps n any (instanceof v c).
Proof. intros h Hh. by destruct v. Qed.

Lemma keeps_split_dot_at v i : keeps n any (split_dot_at v i).
Proof. intros h Hh. by destruct v. Qed.

Lemma keeps_object_keys v : keeps n any (object_keys v).
Proof. intros h Hh. by destruct v. Qed.

Lemma keeps_alloc c ps : keeps n (fresh_ref n) (alloc c ps).
Proof.
  intros h Hh. unfold alloc. simpl. split_and!.
  - by rewrite take_app_le.
  - rewrite length_app. lia.
  - intros a [= <-]. exact Hh.
Qed.

Lemma keeps_set_prop target k v :
  fresh_ref n target -> keeps n any (set_prop target k v).
Proof.
  intros Hf h Hh. destruct target as [| | | | |l]; try done. simpl in *.
  destruct (h !! l) as [o|]; simpl; [|done]. split_and!.
  - by rewrite take_insert_ge.
  - by rewrite length_insert.
  - done.
Qed.

Lemma keeps_for_each {A} (xs : list A) f :
  (forall x, keeps n any (f x)) -> keeps n any (for_each xs f).
Proof.
  intros Hf. induction xs as [|x xs IH]; simpl.
  - apply keeps_ret.
  - eapply keeps_bind; [apply Hf|]. intros _ _. exact IH.
Qed.

Lemma keeps_if {A} (Q : A -> Prop) (b : bool) m1 m2 :
  keeps n Q m1 -> keeps n Q m2 -> keeps n Q (if b then m1 else m2).
Proof. by destruct b. Qed.

End Keeps.

(** One step of a [keeps] derivation. *)
Ltac keeps_prim :=
  first [ apply keeps_get_prop | apply keeps_instanceof
        | apply keeps_split_dot_at | apply keeps_object_keys
        | apply keeps_alloc | apply keeps_ret | apply keeps_throw
        | apply keeps_set_prop; assumption ].

Ltac keeps_step :=
  lazymatch goal with
  | |- keeps _ _ (bind _ _) => eapply keeps_bind; [|intros ? ?]
  | |- keeps _ _ (if _ then _ else _) => apply keeps_if
  | |- keeps _ _ (for_each _ _) => apply keeps_for_each; intros ?
  | |- keeps _ any _ => keeps_prim
  | |- keeps _ _ _ => first [ keeps_prim | eapply keeps_weaken; [keeps_prim|done] ]
  end.

Lemma keeps_legacy_test n (command : value) :
  keeps n any
    (query <- get_prop command "query" ;;
     if truthy query then
       query' <- get_prop command "query" ;;
       q <- get_prop query' "$query" ;;
       ret (defined q)
     else ret false).
Proof. repeat keeps_step. Qed.

Lemma keeps_upconvert_legacy_find n command :
  keeps n any (upconvert_legacy_find command).
Proof.
  unfold upconvert_legacy_find. repeat keeps_step.
  all: try (eapply keeps_weaken; [keeps_prim|done]).
Qed.

Lemma keeps_extractCommand n command : keeps n any (extractCommand command).
Proof.
  unfold extractCommand. repeat keeps_step.
  all: try (eapply keeps_weaken; [keeps_prim|done]).
  all: try apply keeps_upconvert_legacy_find.
Qed.

Lemma keeps_extractReply n command reply :
  keeps n any (extractReply command reply).
Proof.
  unfold extractReply. repeat keeps_step.
  all: try (eapply keeps_weaken; [keeps_prim|done]).
Qed.

Lemma keeps_prefix {A} (m : js A) h :
  keeps (length h) any m -> h `prefix_of` (m h).2.
Proof.
  intros Hm. destruct (Hm h) as (Ht & _ & _); [done|].
  rewrite firstn_all in Ht.
  pose proof (prefix_take (m h).2 (length h)) as Hp. by rewrite Ht in Hp.
Qed.

Lemma extractCommand_prefix command h :
  h `prefix_of` (extractCommand command h).2.
Proof. apply keeps_prefix, keeps_extractCommand. Qed.

(** ** The translator does not depend on where new objects are placed *)

Section Renaming.

Context (n d : nat).

Local Abbreviation shift := (shift n d).
Local Abbreviation ren := (ren n d).
Local Abbreviation ren_prop := (ren_prop n d).
Local Abbreviation ren_obj := (ren_obj n d).
Local Abbreviation heapR := (heapR n d).
Local Abbreviation valR := (valR n d).
Local Abbreviation related := (related n d).

Lemma shift_inj l l' : shift l = shift l' -> l = l'.
Proof. unfold shift. repeat case_decide; lia. Qed.

Lemma shift_fresh l : (n <= l)%nat -> shift l = (l + d)%nat.
Proof. unfold shift. case_decide; lia. Qed.

Lemma truthy_ren v : truthy (ren v) = truthy v.
Proof. by destruct v. Qed.

Lemma defined_ren v : defined (ren v) = defined v.
Proof. by destruct v. Qed.

Lemma lookup_prop_ren k ps :
  lookup_prop k (map ren_prop ps) = ren (lookup_prop k ps).
Proof.
  induction ps as [|[k' v] ps IH]; simpl; [done|].
  by destruct (String.eqb k k').
Qed.

Lemma assign_prop_ren k v ps :
  assign_prop k (ren v) (map ren_prop ps) = map ren_prop (assign_prop k v ps).
Proof.
  induction ps as [|[k' v'] ps IH]; simpl; [done|].
  destruct (String.eqb k k'); simpl; [done|]. by rewrite IH.
Qed.

Lemma props_at_related h1 h2 l :
  heapR h1 h2 -> props_at h2 (shift l) = map ren_prop (props_at h1 l).
Proof.
  intros (_ & _ & Hl). unfold props_at. rewrite Hl.
  by destruct (h1 !! l).
Qed.

Lemma related_ret {A} (RA : A -> A -> Prop) a1 a2 :
  RA a1 a2 -> related RA (ret a1) (ret a2).
Proof. by intros Ha h1 h2 Hh. Qed.

Lemma related_throw {A} (RA : A -> A -> Prop) e :
  related RA (throw e) (throw e).
Proof. by intros h1 h2 Hh. Qed.

Lemma related_bind {A B} (RA : A -> A -> Prop) (RB : B -> B -> Prop) m1 m2 k1 k2 :
  related RA m1 m2 ->
  (forall a1 a2, RA a1 a2 -> related RB (k1 a1) (k2 a2)) ->
  related RB (bind m1 k1) (bind m2 k2).
Proof.
  intros Hm Hk h1 h2 Hh. destruct (Hm h1 h2 Hh) as [Ho Hh']. unfold bind.
  destruct (m1 h1) as [[a1|e1] h1'], (m2 h2) as [[a2|e2] h2']; simpl in *;
    try done.
  by apply Hk.
Qed.

Lemma related_get_prop v k : related valR (get_prop v k) (get_prop (ren v) k).
Proof.
  intros h1 h2 Hh. destruct v as [| | | | |l]; try done. simpl.
  split; [|done]. unfold valR.
  by rewrite (props_at_related h1), lookup_prop_ren.
Qed.

Lemma related_instanceof v c : related eq (instanceof v c) (instanceof (ren v) c).
Proof.
  intros h1 h2 Hh. destruct v as [| | | | |l]; try done. simpl.
  split; [|done]. destruct Hh as (_ & _ & Hl). rewrite Hl.
  by destruct (h1 !! l).
Qed.

Lemma related_split_dot_at v i :
  related valR (split_dot_at v i) (split_dot_at (ren v) i).
Proof.
  intros h1 h2 Hh. destruct v as [| | | |s|l]; try done. simpl.
  split; [|done]. unfold valR. by destruct (split_on _ s !! i).
Qed.

Lemma related_object_keys v : related eq (object_keys v) (object_keys (ren v)).
Proof.
  intros h1 h2 Hh. destruct v as [| | | | |l]; try done. simpl.
  split; [|done]. rewrite (props_at_related h1) by done.
  rewrite map_map. reflexivity.
Qed.

Lemma related_alloc c ps ps' :
  ps' = map ren_prop ps -> related valR (alloc c ps) (alloc c ps').
Proof.
  intros -> h1 h2 (Hn & Hlen & Hl). unfold alloc. simpl. split.
  - unfold valR. simpl. by rewrite shift_fresh, Hlen.
  - split_and!.
    + rewrite length_app. lia.
    + rewrite !length_app. simpl. lia.
    + intros l. destruct (decide (l < length h1)%nat) as [Hlt|Hge].
      * rewrite (lookup_app_l h1) by done.
        rewrite lookup_app_l; [apply Hl|].
        unfold shift. case_decide; lia.
      * rewrite shift_fresh by lia.
        rewrite !lookup_app_r by lia.
        replace (l + d - length h2)%nat with (l - length h1)%nat by lia.
        by destruct (l - length h1)%nat.
Qed.

Lemma related_set_prop target k v :
  related eq (set_prop target k v) (set_prop (ren target) k (ren v)).
Proof.
  intros h1 h2 Hh. destruct target as [| | | | |l]; try done. simpl.
  destruct Hh as (Hn & Hlen & Hl). rewrite Hl.
  destruct (h1 !! l) as [o|] eqn:Ho; simpl; [|done].
  split; [done|]. split_and!.
  - by rewrite length_insert.
  - by rewrite !length_insert.
  - intros l'. destruct (decide (l' = l)) as [->|Hne].
    + rewrite !list_lookup_insert_eq.
      * simpl. unfold ren_obj. simpl. by rewrite assign_prop_ren.
      * by eapply lookup_lt_Some.
      * eapply lookup_lt_Some. rewrite Hl, Ho. reflexivity.
    + rewrite !list_lookup_insert_ne; [apply Hl|done|].
      intros E. by apply shift_inj in E.
Qed.

Lemma related_for_each {A} (xs : list A) f1 f2 :
  (forall x, related eq (f1 x) (f2 x)) ->
  related eq (for_each xs f1) (for_each xs f2).
Proof.
  intros Hf. induction xs as [|x xs IH]; simpl.
  - by apply related_ret.
  - eapply related_bind; [apply Hf|]. intros _ _ _. exact IH.
Qed.

Lemma related_if {A} (RA : A -> A -> Prop) (b : bool) m1 m2 m1' m2' :
  related RA m1 m2 -> related RA m1' m2' ->
  related RA (if b then m1 else m1') (if b then m2 else m2').
Proof. by destruct b. Qed.

Lemma reify_related h1 h2 v depth :
  heapR h1 h2 -> reify depth h2 (ren v) = reify depth h1 v.
Proof.
  intros Hh. revert v. induction depth as [|depth IH]; intros v.
  - by destruct v.
  - destruct v as [| | | | |l]; try done. simpl.
    destruct Hh as (_ & _ & Hl). rewrite Hl.
    destruct (h1 !! l) as [o|]; simpl; [|done]. f_equal.
    rewrite map_map. apply map_ext. intros [k v]. simpl. by rewrite IH.
Qed.

End Renaming.

(** One step of a [related] derivation. *)
Ltac rel_prim :=
  first [ apply related_get_prop | apply related_instanceof
        | apply related_split_dot_at | apply related_object_keys
        | apply related_set_prop | apply related_throw
        | apply related_alloc; reflexivity
        | apply (related_ret _ _ eq); rewrite ?defined_ren; reflexivity
        | apply (related_ret _ _ (valR _ _)); reflexivity ].

Ltac rel_go :=
  rewrite ?truthy_ren, ?defined_ren;
  lazymatch goal with
  | |- related _ _ _ (bind _ _) (bind _ _) =>
      eapply related_bind;
      [rel_go|intros ? ? ?; unfold valR in *; subst; rel_go]
  | |- related _ _ _ (if _ then _ else _) (if _ then _ else _) =>
      apply related_if; rel_go
  | |- related _ _ _ (for_each _ _) (for_each _ _) =>
      apply related_for_each; intros ?; rel_go
  | |- _ => first [rel_prim|idtac]
  end.

Section RenamingTranslator.

Context (n d : nat).

Lemma related_upconvert_legacy_find command :
  related n d (valR n d) (upconvert_legacy_find command)
                         (upconvert_legacy_find (ren n d command)).
Proof. unfold upconvert_legacy_find. rel_go. Qed.

Lemma related_extractCommand command :
  related n d (valR n d) (extractCommand command)
                         (extractCommand (ren n d command)).
Proof.
  unfold extractCommand. rel_go.
  apply related_upconvert_legacy_find.
Qed.

Lemma related_extractReply command reply :
  related n d (valR n d) (extractReply command reply)
                         (extractReply (ren n d command) (ren n d reply)).
Proof. unfold extractReply. rel_go. Qed.

End RenamingTranslator.

(** ** The translator builds closed stores from closed stores *)

Section Closed.

Lemma below_mono n n' v : below n v -> (n <= n')%nat -> below n' v.
Proof. destruct v; simpl; auto. lia. Qed.

Lemma valid_below h v : valid h v <-> below (length h) v.
Proof. by destruct v. Qed.

Lemma closed_lookup h l o k :
  closed h -> h !! l = Some o -> below (length h) (lookup_prop k (props o)).
Proof.
  intros Hcl Ho. unfold closed in Hcl. rewrite Forall_lookup in Hcl.
  specialize (Hcl l o Ho). induction Hcl as [|[k' v] ps Hv _ IH]; simpl; [done|].
  destruct (String.eqb k k'); [by apply valid_below|done].
Qed.

Lemma closed_app h o :
  closed h -> Forall (fun kv => below (S (length h)) kv.2) (props o) ->
  closed (h ++ [o]).
Proof.
  intros Hcl Ho. unfold closed in *. apply Forall_app. split.
  - eapply Forall_impl; [exact Hcl|]. intros o' Ho'. simpl in Ho'.
    eapply Forall_impl; [exact Ho'|]. intros kv Hkv. simpl in *.
    apply valid_below. apply valid_below in Hkv.
    eapply below_mono; [exact Hkv|]. rewrite length_app. lia.
  - constructor; [|constructor].
    eapply Forall_impl; [exact Ho|]. intros kv Hkv. simpl in *.
    apply valid_below. rewrite length_app. simpl.
    by rewrite Nat.add_1_r.
Qed.

Lemma assign_prop_Forall (P : string * value -> Prop) k v ps :
  P (k, v) -> Forall P ps -> Forall P (assign_prop k v ps).
Proof.
  intros Hv. induction 1 as [|[k' v'] ps Hp Hps IH]; simpl.
  - by constructor.
  - destruct (String.eqb k k'); by constructor.
Qed.

Lemma closed_insert h l o k v :
  closed h -> h !! l = Some o -> below (length h) v ->
  closed (<[l := Obj (cls o) (assign_prop k v (props o))]> h).
Proof.
  intros Hcl Ho Hv. unfold closed in *.
  assert (Hcl' : Forall (fun o => Forall (fun kv => below (length h) kv.2) (props o)) h).
  { eapply Forall_impl; [exact Hcl|]. intros o' Ho'. simpl in *.
    eapply Forall_impl; [exact Ho'|]. intros kv. apply valid_below. }
  clear Hcl.
  eapply Forall_impl.
  - apply Forall_insert; [exact Hcl'|]. simpl.
    apply assign_prop_Forall; [done|].
    rewrite Forall_lookup in Hcl'. by apply (Hcl' l o).
  - intros o' Ho'. simpl in *. eapply Forall_impl; [exact Ho'|].
    intros kv Hkv. simpl in *. apply valid_below. by rewrite length_insert.
Qed.

Context (n : nat).

Lemma sound_mono {A} n' (Q : nat -> A -> Prop) m :
  (n <= n')%nat -> sound n Q m -> sound n' Q m.
Proof. intros Hn Hm h Hcl Hh. apply Hm; [done|lia]. Qed.

Lemma sound_weaken {A} (Q Q' : nat -> A -> Prop) m :
  sound n Q m -> (forall n' a, Q n' a -> Q' n' a) -> sound n Q' m.
Proof.
  intros Hm HQ h Hcl Hh. destruct (Hm h Hcl Hh) as (? & ? & ?). eauto.
Qed.

Lemma sound_ret {A} (a : A) : sound n unconstrained (ret a).
Proof. by intros h Hcl Hh. Qed.

Lemma sound_ret_below v : below n v -> sound n below (ret v).
Proof.
  intros Hv h Hcl Hh. simpl. split_and!; [done|done|].
  intros a [= <-]. by eapply below_mono.
Qed.

Lemma sound_throw {A} (Q : nat -> A -> Prop) e : sound n Q (throw e).
Proof. by intros h Hcl Hh. Qed.

Lemma sound_bind {A B} (Q : nat -> A -> Prop) (Q' : nat -> B -> Prop) m k :
  sound n Q m ->
  (forall n' a, (n <= n')%nat -> Q n' a -> sound n' Q' (k a)) ->
  sound n Q' (bind m k).
Proof.
  intros Hm Hk h Hcl Hh. destruct (Hm h Hcl Hh) as (Hcl' & Hl & HQ).
  unfold bind. destruct (m h) as [[a|e] h'] eqn:E; simpl in *.
  - destruct (Hk (length h') a ltac:(lia) (HQ a eq_refl) h' Hcl')
      as (Hcl'' & Hl' & HQ'); [lia|].
    split_and!; [done|lia|done].
  - split_and!; [done|done|]. intros a Ha. discriminate.
Qed.

Lemma sound_get_prop v k : sound n below (get_prop v k).
Proof.
  intros h Hcl Hh.
  destruct v as [| | | | |l]; simpl; (split_and!; [done|done|]);
    intros a Ha; simplify_eq; try done.
  unfold props_at.
  destruct (h !! l) as [o|] eqn:Ho; [|done]. by eapply closed_lookup.
Qed.

Lemma sound_instanceof v c : sound n unconstrained (instanceof v c).
Proof. intros h Hcl Hh. by destruct v. Qed.

Lemma sound_split_dot_at v i : sound n below (split_dot_at v i).
Proof.
  intros h Hcl Hh. destruct v as [| | | |s|]; try done. simpl.
  split_and!; [done|done|]. intros a [= <-]. by destruct (_ !! i).
Qed.

Lemma sound_alloc c ps :
  Forall (fun kv => below n kv.2) ps -> sound n below (alloc c ps).
Proof.
  intros Hps h Hcl Hh. unfold alloc. simpl. split_and!.
  - apply closed_app; [done|]. simpl.
    eapply Forall_impl; [exact Hps|]. intros kv Hkv. simpl in *.
    eapply below_mono; [exact Hkv|lia].
  - rewrite length_app. lia.
  - intros a [= <-]. simpl. rewrite length_app. simpl. lia.
Qed.

Lemma sound_set_prop target k v :
  below n v -> sound n unconstrained (set_prop target k v).
Proof.
  intros Hv h Hcl Hh. destruct target as [| | | | |l]; try done. simpl.
  destruct (h !! l) as [o|] eqn:Ho; simpl; [|done]. split_and!.
  - apply closed_insert; [done|done|]. by eapply below_mono.
  - by rewrite length_insert.
  - done.
Qed.

Lemma sound_if {A} (Q : nat -> A -> Prop) (b : bool) m1 m2 :
  sound n Q m1 -> sound n Q m2 -> sound n Q (if b then m1 else m2).
Proof. by destruct b. Qed.

End Closed.

Lemma sound_for_each {A} n (xs : list A) f :
  (forall n' x, (n <= n')%nat -> sound n' unconstrained (f x)) ->
  sound n unconstrained (for_each xs f).
Proof.
  revert n. induction xs as [|x xs IH]; intros n Hf; simpl.
  - apply sound_ret.
  - eapply sound_bind; [by apply Hf|]. intros n' _ Hn _.
    apply IH. intros n'' x' Hn'. apply Hf. lia.
Qed.

Ltac below_tac :=
  lazymatch goal with
  | |- below _ _ =>
      first [ exact I
            | eapply below_mono; [eassumption|lia] ]
  | |- Forall _ _ => repeat (constructor; [cbn [snd]; below_tac|]); constructor
  end.

Ltac sound_prim :=
  first [ apply sound_get_prop | apply sound_instanceof
        | apply sound_split_dot_at | apply sound_throw
        | apply sound_alloc; below_tac
        | apply sound_set_prop; below_tac
        | apply sound_ret_below; below_tac
        | apply sound_ret ].

Ltac sound_go :=
  lazymatch goal with
  | |- sound _ _ (bind _ _) =>
      eapply sound_bind; [sound_go|intros ? ? ? ?; sound_go]
  | |- sound _ _ (if _ then _ else _) => apply sound_if; sound_go
  | |- sound _ _ (for_each _ _) => apply sound_for_each; intros ? ? ?; sound_go
  | |- sound _ unconstrained _ =>
      first [ sound_prim
            | eapply sound_weaken; [sound_prim|intros; exact I]
            | idtac ]
  | |- _ => first [sound_prim|idtac]
  end.

Lemma sound_upconvert_legacy_find n command :
  below n command -> sound n below (upconvert_legacy_find command).
Proof. intros Hc. unfold upconvert_legacy_find. sound_go. Qed.

Lemma sound_extractCommand n command :
  below n command -> sound n below (extractCommand command).
Proof.
  intros Hc. unfold extractCommand. sound_go.
  apply sound_upconvert_legacy_find. below_tac.
Qed.

(** ** Purity of the translator *)

Lemma reify_prefix h1 h2 v depth :
  closed h1 -> valid h1 v -> h1 `prefix_of` h2 ->
  reify depth h2 v = reify depth h1 v.
Proof.
  intros Hcl Hv [ex ->]. revert v Hv.
  induction depth as [|depth IH]; intros v Hv; [by destruct v|].
  destruct v as [| | | | |l]; try done. simpl in *.
  rewrite lookup_app_l by done.
  destruct (h1 !! l) as [o|] eqn:Ho; [|done]. f_equal.
  unfold closed in Hcl. rewrite Forall_lookup in Hcl.
  specialize (Hcl l o Ho). simpl in Hcl.
  induction Hcl as [|[k v] ps Hkv _ IHps]; simpl; [done|].
  rewrite IH by done. by rewrite IHps.
Qed.

Lemma heapR_extension h ex :
  closed h -> heapR (length h) (length ex) h (h ++ ex).
Proof.
  intros Hcl. split_and!; [done|by rewrite length_app|].
  intros l. unfold shift. case_decide as Hl.
  - rewrite lookup_app_l by done.
    destruct (h !! l) as [o|] eqn:Ho; [|done]. simpl. f_equal.
    destruct o as [c ps]. unfold ren_obj. simpl. f_equal.
    unfold closed in Hcl. rewrite Forall_lookup in Hcl.
    specialize (Hcl l _ Ho). simpl in Hcl. clear Ho.
    induction Hcl as [|[k v] ps Hkv _ IHps]; simpl; [done|].
    rewrite <- IHps. f_equal. unfold ren_prop. simpl. f_equal.
    destruct v as [| | | | |l']; try done. simpl in *.
    unfold shift. by rewrite decide_True.
  - rewrite !lookup_ge_None_2; [done|lia|rewrite length_app; lia].
Qed.

Lemma ren_valid h d v : valid h v -> ren (length h) d v = v.
Proof.
  destruct v as [| | | | |l]; try done. simpl. intros Hl.
  unfold shift. by rewrite decide_True.
Qed.

(** C6.  [extractCommand] is pure.  In a closed store, calling it on a
    command and then calling it again on the same command changes no object
    that existed before either call (both calls only add objects), and the
    two calls have the same outcome: either both throw the same error, or
    both return, and the two returned values denote the same document, with
    the same fields, the same values and the same field order to every
    depth. *)
Theorem extractCommand_is_pure h command :
  closed h -> valid h command ->
  let '(o1, h1) := extractCommand command h in
  let '(o2, h2) := extractCommand command h1 in
  h `prefix_of` h1
  /\ h1 `prefix_of` h2
  /\ match o1, o2 with
     | Returned v1, Returned v2 => same_document h2 v1 v2
     | Thrown e1, Thrown e2 => e1 = e2
     | _, _ => False
     end.
Proof.
  intros Hcl Hv.
  pose proof (extractCommand_prefix command h) as Hp1.
  destruct (sound_extractCommand (length h) command
              ltac:(by apply valid_below) h Hcl ltac:(done)) as (Hcl1 & _ & Hv1).
  destruct (extractCommand command h) as [o1 h1] eqn:E1. simpl in *.
  pose proof (extractCommand_prefix command h1) as Hp2.
  destruct Hp1 as [ex ->].
  destruct (related_extractCommand (length h) (length ex) command
              h (h ++ ex) (heapR_extension h ex Hcl)) as [Ho Hh].
  rewrite ren_valid, E1 in * by done.
  destruct (extractCommand command (h ++ ex)) as [o2 h2] eqn:E2. simpl in *.
  split_and!; [by eexists|done|].
  destruct o1 as [v1|e1], o2 as [v2|e2]; simpl in Ho; try done.
  unfold valR in Ho. subst v2. intros depth.
  rewrite (reify_related _ _ _ h2 v1 depth Hh).
  apply reify_prefix; [done| |done].
  apply valid_below. by apply Hv1.
Qed.

Lemma extractCommand_is_pure_witness :
  let h := store_of legacy_find_input in
  let command := value_of legacy_find_input in
  let '(o1, h1) := extractCommand command h in
  let '(o2, h2) := extractCommand command h1 in
  h `prefix_of` h1
  /\ h1 `prefix_of` h2
  /\ match o1, o2 with
     | Returned v1, Returned v2 => same_document h2 v1 v2
     | Thrown e1, Thrown e2 => e1 = e2
     | _, _ => False
     end.
Proof.
  apply (extractCommand_is_pure (store_of legacy_find_input)
           (value_of legacy_find_input)).
  - repeat constructor.
  - vm_compute. lia.
Defined.

(** ** The event constructors *)

(** Reading a field of the event after the assignment of its fields. *)
Ltac read_assigned :=
  unfold assign_all, terminal_fields; cbn [fold_left fst snd];
  repeat first [ rewrite lookup_assign_eq
               | rewrite lookup_assign_ne by discriminate ].


Section Events.

Implicit Types (h : heap) (command cmd this : value).

Lemma for_each_set_prop h t o fields :
  h !! t = Some o ->
  for_each fields (fun kv => set_prop (VRef t) kv.1 kv.2) h
  = (Returned tt, <[t := Obj (cls o) (assign_all fields (props o))]> h).
Proof.
  revert h o. induction fields as [|[k v] fields IH]; intros h o Ho; simpl.
  - destruct o. by rewrite list_insert_id.
  - unfold bind. simpl. rewrite Ho.
    rewrite (IH _ (Obj (cls o) (assign_prop k v (props o)))).
    + by rewrite list_insert_insert_eq.
    + apply list_lookup_insert_eq. by eapply lookup_lt_Some.
Qed.

Lemma object_assign_eq h t o fields :
  h !! t = Some o ->
  object_assign (VRef t) fields h
  = (Returned tt,
     <[t := Obj (cls o) (assign_all fields (props o))]> (h ++ [Obj Plain fields])).
Proof.
  intros Ho. unfold object_assign.
  run_with ltac:(reflexivity).
  apply for_each_set_prop. rewrite lookup_app_l; [done|].
  by eapply lookup_lt_Some.
Qed.

Lemma extractCommand_input_not_nullish command h cmd h1 :
  extractCommand command h = (Returned cmd, h1) -> nullish command = false.
Proof. by destruct command. Qed.

Lemma keeps_upconvert_fresh n command :
  keeps n (fresh_ref n) (upconvert_legacy_find command).
Proof.
  unfold upconvert_legacy_find.
  eapply keeps_bind; [keeps_prim|intros ns _].
  eapply keeps_bind; [keeps_prim|intros coll _].
  eapply keeps_bind; [keeps_prim|intros result Hresult].
  do 7 (eapply keeps_bind; [repeat keeps_step|intros ? _]).
  apply keeps_if; [apply keeps_alloc|].
  intros h Hh. by split_and!; [done|done|intros ? [= <-]].
Qed.

Lemma extractCommand_output_not_nullish command h cmd h1 :
  extractCommand command h = (Returned cmd, h1) -> nullish cmd = false.
Proof.
  intros E. pose proof (extractCommand_input_not_nullish _ _ _ _ E) as Hc.
  destruct (decide (class_of h command = Some GetMoreC)) as [Hgm|Hgm].
  { unfold extractCommand in E.
    run_in E ltac:(apply instanceof_eq).
    rewrite Hgm, bool_decide_eq_true_2 in E by done.
    do 2 run_in E ltac:(by apply get_prop_field).
    destruct (field h command "ns"); try discriminate.
    run_in E ltac:(reflexivity).
    run_in E ltac:(by apply get_prop_field).
    by injection E as <- _. }
  destruct (decide (class_of h command = Some KillCursorC)) as [Hkc|Hkc].
  { unfold extractCommand in E.
    run_in E ltac:(apply instanceof_eq).
    rewrite bool_decide_eq_false_2 in E by done.
    run_in E ltac:(apply instanceof_eq).
    rewrite Hkc, bool_decide_eq_true_2 in E by done.
    run_in E ltac:(by apply get_prop_field).
    destruct (field h command "ns"); try discriminate.
    run_in E ltac:(reflexivity).
    run_in E ltac:(by apply get_prop_field).
    by injection E as <- _. }
  rewrite extractCommand_generic in E by done.
  destruct (is_legacy_find h command).
  - destruct (keeps_upconvert_fresh 0 command h ltac:(lia)) as (_ & _ & HQ).
    rewrite E in HQ. specialize (HQ cmd eq_refl). by destruct cmd.
  - injection E as <- _.
    destruct (truthy (field h command "query")) eqn:Hq; [|done].
    by destruct (field h command "query").
Qed.

Lemma extractCommandName_eq cmd h :
  nullish cmd = false ->
  extractCommandName cmd h = (Returned (first_key h cmd), h).
Proof.
  intros Hn. unfold extractCommandName, first_key, bind.
  destruct cmd; try done.
Qed.

Lemma extractCommand_keeps_object command h o h1 t :
  h !! t = Some o -> (extractCommand command h).2 = h1 -> h1 !! t = Some o.
Proof.
  intros Ho <-. destruct (extractCommand_prefix command h) as [ex ->].
  rewrite lookup_app_l; [done|]. by eapply lookup_lt_Some.
Qed.

Lemma extractCommand_keeps_field command h h1 v k :
  valid h v -> (extractCommand command h).2 = h1 -> field h1 v k = field h v k.
Proof.
  intros Hv <-. destruct (extractCommand_prefix command h) as [ex ->].
  by apply field_app_l.
Qed.

Lemma maybeRedact_eq name v h :
  maybeRedact name v h
  = if is_sensitive name then (Returned (VRef (length h)), h ++ [Obj Plain []])
    else (Returned v, h).
Proof. unfold maybeRedact. by destruct (is_sensitive name). Qed.

Lemma set_prop_eq h l o k v :
  h !! l = Some o ->
  set_prop (VRef l) k v h
  = (Returned tt, <[l := Obj (cls o) (assign_prop k v (props o))]> h).
Proof. intros Ho. simpl. by rewrite Ho. Qed.

Lemma props_at_insert_eq h l o :
  (l < length h)%nat -> props_at (<[l := o]> h) l = props o.
Proof. intros Hl. unfold props_at. by rewrite list_lookup_insert_eq. Qed.

Lemma props_at_insert_ne h l l' o :
  l <> l' -> props_at (<[l := o]> h) l' = props_at h l'.
Proof. intros Hl. unfold props_at. by rewrite list_lookup_insert_ne. Qed.

Lemma extractReply_prefix command reply h :
  h `prefix_of` (extractReply command reply h).2.
Proof. apply keeps_prefix, keeps_extractReply. Qed.

Lemma CommandFailedEvent_eq now pool command error started t o h cmd h1 :
  h !! t = Some o ->
  extractCommand command h = (Returned cmd, h1) ->
  let name := first_key h1 cmd in
  let h2 := if is_sensitive name then h1 ++ [Obj Plain []] else h1 in
  let redacted := if is_sensitive name then VRef (length h1) else error in
  let fields := terminal_fields now pool started "failure" name redacted
                  (field h2 command "requestId") in
  CommandFailedEvent now pool command error started (VRef t) h
  = (Returned tt,
     <[t := Obj (cls o) (assign_all fields (props o))]> (h2 ++ [Obj Plain fields])).
Proof.
  intros Ho E name h2 redacted fields.
  pose proof (extractCommand_input_not_nullish _ _ _ _ E) as Hc.
  pose proof (extractCommand_output_not_nullish _ _ _ _ E) as Hcmd.
  assert (Ho1 : h1 !! t = Some o).
  { eapply extractCommand_keeps_object; [done|]. by rewrite E. }
  assert (Ho2 : h2 !! t = Some o).
  { subst h2. destruct (is_sensitive name); [|done].
    rewrite lookup_app_l; [done|]. by eapply lookup_lt_Some. }
  unfold CommandFailedEvent.
  run_with ltac:(exact E).
  run_with ltac:(by apply extractCommandName_eq). fold name.
  run_with ltac:(
    instantiate (1 := h2); instantiate (1 := redacted);
    rewrite maybeRedact_eq; subst h2 redacted;
    by destruct (is_sensitive name)).
  run_with ltac:(by apply get_prop_field).
  by apply object_assign_eq.
Qed.

Lemma CommandSucceededEvent_eq now pool command reply started t o h cmd h1 r h2 :
  h !! t = Some o ->
  extractCommand command h = (Returned cmd, h1) ->
  extractReply command reply h1 = (Returned r, h2) ->
  let name := first_key h1 cmd in
  let h3 := if is_sensitive name then h2 ++ [Obj Plain []] else h2 in
  let redacted := if is_sensitive name then VRef (length h2) else r in
  let fields := terminal_fields now pool started "reply" name redacted
                  (field h3 command "requestId") in
  CommandSucceededEvent now pool command reply started (VRef t) h
  = (Returned tt,
     <[t := Obj (cls o) (assign_all fields (props o))]> (h3 ++ [Obj Plain fields])).
Proof.
  intros Ho E Er name h3 redacted fields.
  pose proof (extractCommand_input_not_nullish _ _ _ _ E) as Hc.
  pose proof (extractCommand_output_not_nullish _ _ _ _ E) as Hcmd.
  assert (Ho1 : h1 !! t = Some o).
  { eapply extractCommand_keeps_object; [done|]. by rewrite E. }
  assert (Ho2 : h2 !! t = Some o).
  { pose proof (extractReply_prefix command reply h1) as [ex Hex].
    rewrite Er in Hex. simpl in Hex. subst h2.
    rewrite lookup_app_l; [done|]. by eapply lookup_lt_Some. }
  assert (Ho3 : h3 !! t = Some o).
  { subst h3. destruct (is_sensitive name); [|done].
    rewrite lookup_app_l; [done|]. by eapply lookup_lt_Some. }
  unfold CommandSucceededEvent.
  run_with ltac:(exact E).
  run_with ltac:(by apply extractCommandName_eq). fold name.
  run_with ltac:(exact Er).
  run_with ltac:(
    instantiate (1 := h3); instantiate (1 := redacted);
    rewrite maybeRedact_eq; subst h3 redacted;
    by destruct (is_sensitive name)).
  run_with ltac:(by apply get_prop_field).
  by apply object_assign_eq.
Qed.

Lemma terminal_event_fields now pool started payload name redacted requestId
    h t o :
  let fields := terminal_fields now pool started payload name redacted requestId in
  let hf := <[t := Obj (cls o) (assign_all fields (props o))]> (h ++ [Obj Plain fields]) in
  h !! t = Some o ->
  payload = "failure" \/ payload = "reply" ->
  field hf (VRef t) "duration" = VNum (calculateDuration now started)
  /\ field hf (VRef t) "commandName" = name
  /\ field hf (VRef t) payload = redacted
  /\ field hf (VRef t) "requestId" = requestId
  /\ field hf (VRef t) "connectionId" = VStr (generateConnectionId pool)
  /\ forall l, l <> t -> (l < length h)%nat -> hf !! l = h !! l.
Proof.
  intros fields hf Ho Hp.
  assert (Ht : (t < length (h ++ [Obj Plain fields]))%nat).
  { rewrite length_app. apply lookup_lt_Some in Ho. lia. }
  subst hf. simpl. rewrite props_at_insert_eq by done. simpl. subst fields.
  split_and!; try (destruct Hp as [-> | ->]; by read_assigned).
  intros l Hl Hlt. rewrite list_lookup_insert_ne by done.
  by rewrite lookup_app_l.
Qed.

End Events.

(** C3.  When [extractCommand] returns the normalized command [cmd], whose
    first key is the command name, the constructor of a Failed event
    returns, and so does the constructor of a Succeeded event when
    [extractReply] returns the normalized reply [r].  If the command name is
    sensitive, [failure] and [reply] are new empty documents; otherwise
    [failure] is the error it was given and [reply] is [r], and in both
    cases no object other than the event itself is written. *)
Theorem terminal_events_redact_sensitive_commands
    now pool command reply error started h t o cmd h1 :
  h !! t = Some o ->
  extractCommand command h = (Returned cmd, h1) ->
  let name := first_key h1 cmd in
  extractCommandName cmd h1 = (Returned name, h1)
  /\ (exists hf,
       CommandFailedEvent now pool command error started (VRef t) h
       = (Returned tt, hf)
       /\ field hf (VRef t) "commandName" = name
       /\ (is_sensitive name = true ->
           empty_document hf (field hf (VRef t) "failure"))
       /\ (is_sensitive name = false -> field hf (VRef t) "failure" = error)
       /\ (forall l, l <> t -> (l < length h1)%nat -> hf !! l = h1 !! l))
  /\ (forall r h2,
       extractReply command reply h1 = (Returned r, h2) ->
       exists hf,
         CommandSucceededEvent now pool command reply started (VRef t) h
         = (Returned tt, hf)
         /\ field hf (VRef t) "commandName" = name
         /\ (is_sensitive name = true ->
             empty_document hf (field hf (VRef t) "reply"))
         /\ (is_sensitive name = false -> field hf (VRef t) "reply" = r)
         /\ (forall l, l <> t -> (l < length h2)%nat -> hf !! l = h2 !! l)).
Proof.
  intros Ho E name.
  pose proof (extractCommand_output_not_nullish _ _ _ _ E) as Hcmd.
  assert (Ho1 : h1 !! t = Some o).
  { eapply extractCommand_keeps_object; [done|]. by rewrite E. }
  split_and!.
  - by apply extractCommandName_eq.
  - eexists. split; [by apply CommandFailedEvent_eq|]. fold name.
    set (h2 := if is_sensitive name then h1 ++ [Obj Plain []] else h1).
    assert (Ho2 : h2 !! t = Some o).
    { subst h2. destruct (is_sensitive name); [|done].
      rewrite lookup_app_l; [done|]. by eapply lookup_lt_Some. }
    edestruct (terminal_event_fields now pool started "failure") as
      (_ & Hname & Hpay & _ & _ & Hother); [exact Ho2|by left|].
    split_and!.
    + exact Hname.
    + intros Hs. rewrite Hpay. exists (length h1). split; [by rewrite Hs|].
      apply lookup_lt_Some in Ho1.
      rewrite Hother; [|lia|subst h2; rewrite Hs, length_app; simpl; lia].
      subst h2. rewrite Hs. by apply list_lookup_middle.
    + intros Hs. by rewrite Hpay, Hs.
    + intros l Hl Hlt.
      rewrite Hother; [|done|subst h2; destruct (is_sensitive name);
                              rewrite ?length_app; lia].
      subst h2. destruct (is_sensitive name); [|done]. by rewrite lookup_app_l.
  - intros r h2 Er.
    eexists. split; [by eapply CommandSucceededEvent_eq|]. fold name.
    assert (Ho2 : h2 !! t = Some o).
    { pose proof (extractReply_prefix command reply h1) as [ex Hex].
      rewrite Er in Hex. simpl in Hex. subst h2.
      rewrite lookup_app_l; [done|]. by eapply lookup_lt_Some. }
    set (h3 := if is_sensitive name then h2 ++ [Obj Plain []] else h2).
    assert (Ho3 : h3 !! t = Some o).
    { subst h3. destruct (is_sensitive name); [|done].
      rewrite lookup_app_l; [done|]. by eapply lookup_lt_Some. }
    edestruct (terminal_event_fields now pool started "reply") as
      (_ & Hname & Hpay & _ & _ & Hother); [exact Ho3|by right|].
    split_and!.
    + exact Hname.
    + intros Hs. rewrite Hpay. exists (length h2). split; [by rewrite Hs|].
      apply lookup_lt_Some in Ho2.
      rewrite Hother; [|lia|subst h3; rewrite Hs, length_app; simpl; lia].
      subst h3. rewrite Hs. by apply list_lookup_middle.
    + intros Hs. by rewrite Hpay, Hs.
    + intros l Hl Hlt.
      rewrite Hother; [|done|subst h3; destruct (is_sensitive name);
                              rewrite ?length_app; lia].
      subst h3. destruct (is_sensitive name); [|done]. by rewrite lookup_app_l.
Qed.

Lemma terminal_events_redact_sensitive_commands_witness :
  let h := store_of (exchange sasl_start ok_reply) ++ [Obj FailedC []] in
  (exists hf,
     CommandFailedEvent 100 local_pool (VRef 1) (VStr "AuthenticationFailed") 90
       (VRef 5) h = (Returned tt, hf)
     /\ field hf (VRef 5) "commandName" = VStr "saslStart"
     /\ empty_document hf (field hf (VRef 5) "failure"))
  /\ (exists hf,
       CommandSucceededEvent 100 local_pool (VRef 1) (VRef 3) 90 (VRef 5) h
       = (Returned tt, hf)
       /\ field hf (VRef 5) "commandName" = VStr "saslStart"
       /\ empty_document hf (field hf (VRef 5) "reply")).
Proof.
  intros h.
  destruct (terminal_events_redact_sensitive_commands
              100 local_pool (VRef 1) (VRef 3) (VStr "AuthenticationFailed") 90
              h 5 (Obj FailedC []) (VRef 0) h eq_refl eq_refl)
    as (_ & (hf & E & Hname & Hs & _) & Hsucc).
  split.
  - exists hf. split_and!; [exact E|exact Hname|exact (Hs eq_refl)].
  - destruct (Hsucc (VRef 2) h eq_refl) as (hf' & E' & Hname' & Hs' & _).
    exists hf'. split_and!; [exact E'|exact Hname'|exact (Hs' eq_refl)].
Defined.

(** C2, as the code has it.  The duration of a Succeeded and of a Failed
    event is the clock value at construction minus the start timestamp,
    whatever their order: it is not clamped, and it is non-negative exactly
    when the start timestamp is not after the clock value. *)
Theorem terminal_events_duration
    now pool command reply error started h t o cmd h1 :
  h !! t = Some o ->
  extractCommand command h = (Returned cmd, h1) ->
  (exists hf,
     CommandFailedEvent now pool command error started (VRef t) h
     = (Returned tt, hf)
     /\ field hf (VRef t) "duration" = VNum (now - started))
  /\ (forall r h2,
       extractReply command reply h1 = (Returned r, h2) ->
       exists hf,
         CommandSucceededEvent now pool command reply started (VRef t) h
         = (Returned tt, hf)
         /\ field hf (VRef t) "duration" = VNum (now - started))
  /\ (0 <= calculateDuration now started <-> started <= now)%Z.
Proof.
  intros Ho E.
  assert (Ho1 : h1 !! t = Some o).
  { eapply extractCommand_keeps_object; [done|]. by rewrite E. }
  split_and!.
  - eexists. split; [by apply CommandFailedEvent_eq|].
    set (name := first_key h1 cmd).
    set (h2 := if is_sensitive name then h1 ++ [Obj Plain []] else h1).
    assert (Ho2 : h2 !! t = Some o).
    { subst h2. destruct (is_sensitive name); [|done].
      rewrite lookup_app_l; [done|]. by eapply lookup_lt_Some. }
    edestruct (terminal_event_fields now pool started "failure") as
      (Hd & _); [exact Ho2|by left|]. exact Hd.
  - intros r h2 Er.
    eexists. split; [by eapply CommandSucceededEvent_eq|].
    set (name := first_key h1 cmd).
    assert (Ho2 : h2 !! t = Some o).
    { pose proof (extractReply_prefix command reply h1) as [ex Hex].
      rewrite Er in Hex. simpl in Hex. subst h2.
      rewrite lookup_app_l; [done|]. by eapply lookup_lt_Some. }
    set (h3 := if is_sensitive name then h2 ++ [Obj Plain []] else h2).
    assert (Ho3 : h3 !! t = Some o).
    { subst h3. destruct (is_sensitive name); [|done].
      rewrite lookup_app_l; [done|]. by eapply lookup_lt_Some. }
    edestruct (terminal_event_fields now pool started "reply") as
      (Hd & _); [exact Ho3|by right|]. exact Hd.
  - unfold calculateDuration. lia.
Qed.

Lemma terminal_events_duration_witness :
  let h := store_of (exchange ping ok_reply) ++ [Obj SucceededC []] in
  exists hf,
    CommandSucceededEvent 100 local_pool (VRef 1) (VRef 3) 90 (VRef 5) h
    = (Returned tt, hf)
    /\ field hf (VRef 5) "duration" = VNum 10.
Proof.
  intros h.
  destruct (terminal_events_duration
              100 local_pool (VRef 1) (VRef 3) VUndefined 90
              h 5 (Obj SucceededC []) (VRef 0) h eq_refl eq_refl)
    as (_ & Hsucc & _).
  exact (Hsucc (VRef 2) h eq_refl).
Defined.

(** C2 as stated fails: a Failed event built when the clock reads 90 for a
    command started at 100 has the negative duration -10. *)
Lemma duration_is_not_clamped :
  let h := store_of (exchange ping ok_reply) in
  exists ev hf,
    new_object FailedC
      (CommandFailedEvent 90 local_pool (VRef 1) (VStr "boom") 100) h
    = (Returned ev, hf)
    /\ field hf ev "duration" = VNum (-10)
    /\ ~ (0 <= -10)%Z.
Proof.
  intros h. do 2 eexists. split_and!; [reflexivity|reflexivity|lia].
Qed.

Section StartedEvent.

Implicit Types (h : heap) (command cmd : value).

Lemma sensitive_branch_eq command t o h h1 name :
  h !! t = Some o -> valid h command -> h `prefix_of` h1 ->
  exists hm om,
    (if is_sensitive name then
       commandObj <- alloc Plain [] ;;
       set_prop (VRef t) "commandObj" commandObj ;;;
       commandObj' <- get_prop (VRef t) "commandObj" ;;
       match name with
       | VStr nm => set_prop commandObj' nm (VBool true)
       | _ => ret tt
       end
     else ret tt) h1 = (Returned tt, hm)
    /\ hm !! t = Some om
    /\ (forall k, k <> "commandObj" -> field hm command k = field h command k)
    /\ (forall nm, name = VStr nm -> is_sensitive name = true ->
          name_only_marker hm nm (lookup_prop "commandObj" (props om))
          /\ lookup_prop "commandObj" (props om) <> VRef t).
Proof.
  intros Ho Hv [ex ->].
  assert (Ht : (t < length h)%nat) by (by eapply lookup_lt_Some).
  assert (Ho1 : (h ++ ex) !! t = Some o) by (by rewrite lookup_app_l).
  destruct (is_sensitive name) eqn:Hs.
  - destruct name as [| | | |nm|]; try done.
    set (l := length (h ++ ex)).
    assert (Hl : (length h <= l)%nat) by (subst l; rewrite length_app; lia).
    set (om := Obj (cls o) (assign_prop "commandObj" (VRef l) (props o))).
    set (hA := <[t := om]> ((h ++ ex) ++ [Obj Plain []])).
    assert (HAl : hA !! l = Some (Obj Plain [])).
    { subst hA. rewrite list_lookup_insert_ne by lia.
      by apply list_lookup_middle. }
    exists (<[l := Obj Plain [(nm, VBool true)]]> hA), om.
    split_and!.
    + run_with ltac:(reflexivity).
      run_with ltac:(apply (set_prop_eq _ _ o); rewrite lookup_app_l; [done|];
                     rewrite length_app; lia).
      fold l om hA.
      run_with ltac:(apply get_prop_ref).
      assert (field hA (VRef t) "commandObj" = VRef l) as ->.
      { simpl. unfold hA. rewrite props_at_insert_eq
          by (rewrite !length_app; simpl; lia).
        apply lookup_assign_eq. }
      by rewrite (set_prop_eq _ _ _ _ _ HAl).
    + rewrite list_lookup_insert_ne by lia.
      subst hA. apply list_lookup_insert_eq. rewrite !length_app. lia.
    + intros k Hk. destruct command as [| | | | |lc]; try done. simpl in *.
      rewrite props_at_insert_ne by lia. subst hA.
      destruct (decide (lc = t)) as [->|Hne].
      * rewrite props_at_insert_eq by (rewrite !length_app; lia).
        subst om. simpl. rewrite lookup_assign_ne by done.
        by rewrite (props_at_Some _ _ _ Ho).
      * rewrite props_at_insert_ne by done.
        rewrite props_at_app_l by (rewrite length_app; lia).
        by rewrite props_at_app_l.
    + intros nm' [= <-] _. subst om. simpl. rewrite lookup_assign_eq. split.
      * exists l. split; [done|]. apply list_lookup_insert_eq.
        by eapply lookup_lt_Some.
      * intros [= ?]. lia.
  - exists (h ++ ex), o. split_and!; [done|done| |done].
    intros k _. by apply field_app_l.
Qed.

Lemma CommandStartedEvent_eq pool command t o h cmd h1 ns :
  h !! t = Some o -> valid h command ->
  extractCommand command h = (Returned cmd, h1) ->
  field h command "ns" = VStr ns ->
  exists hf,
    CommandStartedEvent pool command (VRef t) h = (Returned tt, hf)
    /\ field hf (VRef t) "command" = cmd
    /\ field hf (VRef t) "databaseName"
       = match split_on "."%char ns !! 0%nat with
         | Some db => VStr db
         | None => VUndefined
         end
    /\ field hf (VRef t) "requestId" = field h command "requestId"
    /\ field hf (VRef t) "connectionId" = VStr (generateConnectionId pool)
    /\ (forall nm, first_key h1 cmd = VStr nm -> is_sensitive (VStr nm) = true ->
          name_only_marker hf nm (field hf (VRef t) "commandObj")).
Proof.
  intros Ho Hv E Hns.
  pose proof (extractCommand_input_not_nullish _ _ _ _ E) as Hc.
  pose proof (extractCommand_output_not_nullish _ _ _ _ E) as Hcmd.
  pose proof (extractCommand_prefix command h) as Hp. rewrite E in Hp.
  destruct (sensitive_branch_eq command t o h h1 (first_key h1 cmd) Ho Hv Hp)
    as (hm & om & Em & Hom & Hfield & Hmark).
  assert (Ht : (t < length hm)%nat) by (by eapply lookup_lt_Some).
  eexists. split.
  { unfold CommandStartedEvent.
    run_with ltac:(exact E).
    run_with ltac:(by apply extractCommandName_eq).
    run_with ltac:(exact Em).
    run_with ltac:(by apply get_prop_field).
    rewrite Hfield, Hns by done.
    run_with ltac:(reflexivity).
    run_with ltac:(by apply extractCommandName_eq).
    run_with ltac:(by apply get_prop_field).
    rewrite Hfield by done.
    by apply object_assign_eq. }
  simpl field. rewrite props_at_insert_eq by (rewrite length_app; lia).
  simpl props.
  split_and!; try by read_assigned.
  intros nm Hnm Hs. rewrite Hnm in Hmark.
  destruct (Hmark nm eq_refl Hs) as [(l & Hl & Hml) Hne].
  read_assigned. exists l. split; [done|].
  rewrite list_lookup_insert_ne by congruence.
  rewrite lookup_app_l; [done|]. by eapply lookup_lt_Some.
Qed.

End StartedEvent.

(** ** The connection *)

Module ConnectionFacts.
Import Connection.

Section Counting.

Context {A : Type}.
Implicit Types (p : A -> bool) (l : list A).

Lemma count_nil p : count p [] = 0%nat.
Proof. reflexivity. Qed.

Lemma count_cons p x l :
  count p (x :: l) = ((if p x then 1 else 0) + count p l)%nat.
Proof.
  unfold count. rewrite filter_cons. destruct (p x) eqn:E.
  - by rewrite decide_True.
  - by rewrite decide_False by congruence.
Qed.

Lemma count_app p l1 l2 : count p (l1 ++ l2) = (count p l1 + count p l2)%nat.
Proof. unfold count. by rewrite filter_app, length_app. Qed.

Lemma count_snoc p l x :
  count p (l ++ [x]) = (count p l + if p x then 1 else 0)%nat.
Proof. rewrite count_app, count_cons, count_nil. lia. Qed.

End Counting.

Lemma if_bool_decide_ext_nat (P Q : Prop) `{Decision P, Decision Q} (a b : nat) :
  (P <-> Q) -> (if bool_decide P then a else b) = (if bool_decide Q then a else b).
Proof. intros HPQ. by rewrite (bool_decide_ext P Q). Qed.

Lemma count_key_nodup {B} r (l : list (nat * B)) :
  NoDup (map fst l) ->
  count_key r l = if bool_decide (r ∈ map fst l) then 1%nat else 0%nat.
Proof.
  unfold count_key. induction l as [|[r' b] l IH]; intros Hnd; simpl.
  - by rewrite count_nil.
  - apply NoDup_cons in Hnd as [Hr' Hnd]. rewrite count_cons, IH by done.
    simpl. destruct (decide (r' = r)) as [->|Hne].
    + rewrite bool_decide_eq_true_2 by done.
      rewrite (bool_decide_eq_false_2 (r ∈ map fst l)) by done.
      rewrite bool_decide_eq_true_2 by left. reflexivity.
    + rewrite (bool_decide_eq_false_2 (r' = r)) by done. simpl.
      apply if_bool_decide_ext_nat. rewrite elem_of_cons.
      split; [by right|]. intros [?|?]; [congruence|done].
Qed.

Lemma count_key_waiters (ws : gmap nat waiter) r :
  count_key r (map_to_list ws)
  = if bool_decide (is_Some (ws !! r)) then 1%nat else 0%nat.
Proof.
  rewrite count_key_nodup by apply NoDup_fst_map_to_list.
  apply if_bool_decide_ext_nat. rewrite list_elem_of_fmap. split.
  - intros ([r' w] & -> & Hin). apply elem_of_map_to_list in Hin. by eexists.
  - intros [w Hw]. exists (r, w). split; [done|]. by apply elem_of_map_to_list.
Qed.

(** Failing a list of waiters adds a Failed event (under monitoring) and a
    resolution for each, and changes nothing else. *)
Lemma fold_fail_waiter e l c :
  let c' := fold_left (fail_waiter e) l c in
  monitoring c' = monitoring c
  /\ requestCounter c' = requestCounter c
  /\ dispatched c' = dispatched c
  /\ waiters c' = waiters c
  /\ state c' = state c
  /\ now c' = now c
  /\ forall r,
       started_count c' r = started_count c r
       /\ succeeded_count c' r = succeeded_count c r
       /\ failed_count c' r
          = (failed_count c r + if monitoring c then count_key r l else 0)%nat
       /\ resolved_count c' r = (resolved_count c r + count_key r l)%nat.
Proof.
  revert c. induction l as [|[r' w] l IH]; intros c; simpl.
  - split_and!; try done. intros r. unfold count_key. rewrite count_nil.
    split_and!; try done; destruct (monitoring c); lia.
  - destruct (IH (fail_waiter e c (r', w)))
      as (Hm & Hc & Hd & Hw & Hs & Hn & Hcount).
    split_and!; try (etrans; [eassumption|reflexivity]).
    intros r. destruct (Hcount r) as (H1 & H2 & H3 & H4).
    rewrite H1, H2, H3, H4. clear.
    unfold started_count, succeeded_count, failed_count, resolved_count,
      count_key, fail_waiter, resolve, emit. simpl.
    rewrite !(count_cons _ (r', w)). simpl.
    destruct (monitoring c); simpl; rewrite ?count_snoc; simpl; split_and!; lia.
Qed.

Lemma teardown_facts c e :
  let c' := teardown c e in
  state c' = CLOSED
  /\ transportDestroyed c' = true
  /\ waiters c' = ∅
  /\ monitoring c' = monitoring c
  /\ requestCounter c' = requestCounter c
  /\ dispatched c' = dispatched c
  /\ now c' = now c
  /\ forall r,
       started_count c' r = started_count c r
       /\ succeeded_count c' r = succeeded_count c r
       /\ failed_count c' r
          = (failed_count c r + if monitoring c && pending c r then 1 else 0)%nat
       /\ resolved_count c' r
          = (resolved_count c r + if pending c r then 1 else 0)%nat.
Proof.
  destruct (fold_fail_waiter e (map_to_list (waiters c)) c)
    as (Hm & Hc & Hd & Hw & Hs & Hn & Hcount).
  unfold teardown. split_and!; try done.
  intros r. destruct (Hcount r) as (H1 & H2 & H3 & H4).
  rewrite count_key_waiters in H3, H4. unfold pending.
  split_and!; try done.
  - etrans; [exact H3|]. by destruct (monitoring c), (bool_decide _).
Qed.

Lemma awaited_pending_below c r :
  invariant c -> pending c r = true -> (r < requestCounter c)%nat.
Proof.
  intros Hinv Hp. apply (inv_below c Hinv).
  apply (inv_pending c Hinv) in Hp. unfold awaited in Hp.
  apply bool_decide_eq_true_1 in Hp.
  apply list_elem_of_fmap. by exists (r, false).
Qed.

Lemma invariant_teardown c e : invariant c -> invariant (teardown c e).
Proof.
  intros Hinv.
  destruct (teardown_facts c e)
    as (Hs & _ & Hw & Hm & Hc & Hd & _ & Hcount).
  assert (Hp : forall r, pending (teardown c e) r = false).
  { intros r. unfold pending. rewrite Hw, lookup_empty.
    apply bool_decide_eq_false_2. by intros [? ?]. }
  assert (Ha : forall r, awaited (teardown c e) r = awaited c r).
  { intros r. unfold awaited. by rewrite Hd. }
  constructor.
  - rewrite Hd. apply Hinv.
  - intros r. rewrite Hd, Hc. apply Hinv.
  - intros r. by rewrite Hp.
  - intros r. destruct (Hcount r) as (-> & _). rewrite Hm, Hc. apply Hinv.
  - intros r. destruct (Hcount r) as (_ & -> & -> & _).
    rewrite Hm, Ha, Hp. pose proof (inv_terminal c Hinv r) as Ht.
    pose proof (inv_pending c Hinv r) as Hpa.
    destruct (monitoring c), (pending c r), (awaited c r); simpl in *;
      first [lia|by specialize (Hpa eq_refl)].
  - intros r. destruct (Hcount r) as (_ & _ & _ & ->).
    rewrite Hc, Hp. pose proof (inv_resolved c Hinv r) as Hr.
    pose proof (awaited_pending_below c r Hinv) as Hb.
    destruct (pending c r); simpl in *.
    + rewrite bool_decide_eq_true_2 by auto. rewrite Hr.
      by destruct (bool_decide _).
    + rewrite Hr. destruct (bool_decide _); simpl; lia.
  - done.
Qed.

Lemma invariant_create st lb mon t : invariant (create st lb mon t).
Proof.
  assert (Hp : forall r, pending (create st lb mon t) r = false).
  { intros r. unfold pending, create. cbn [waiters]. rewrite lookup_empty.
    apply bool_decide_eq_false_2. by intros [? ?]. }
  assert (Ha : forall r, awaited (create st lb mon t) r = false).
  { intros r. unfold awaited, create. cbn [dispatched].
    apply bool_decide_eq_false_2, not_elem_of_nil. }
  constructor.
  - constructor.
  - intros r. unfold create. cbn [dispatched requestCounter map].
    split; [by intros ?%elem_of_nil|lia].
  - intros r. by rewrite Hp.
  - intros r. unfold create at 2 3. cbn [requestCounter].
    rewrite (bool_decide_eq_false_2 (r < 0)%nat) by lia.
    by rewrite andb_false_r.
  - intros r. rewrite Ha, andb_false_r. reflexivity.
  - intros r. unfold create at 2. cbn [requestCounter].
    rewrite (bool_decide_eq_false_2 (r < 0)%nat) by lia. reflexivity.
  - done.
Qed.

Ltac conn_simpl :=
  unfold started_count, succeeded_count, failed_count, resolved_count,
    pending, awaited, fail_waiter, resolve, emit, set_waiters, set_now,
    set_state, assign_request_id in *;
  cbn [logicalSessionTimeoutMinutes loadBalanced monitoring state
       transportDestroyed requestCounter waiters now dispatched events
       resolutions fst snd] in *.

Lemma invariant_dispatch_forget c res :
  invariant c ->
  invariant (resolve (emit (assign_request_id c true).2
                           (Started (requestCounter c)))
                     (requestCounter c) res).
Proof.
  intros [Hnd Hb Hp Hs Ht Hr Hc].
  destruct c as [st lb mon sta des ctr ws t D E R]. conn_simpl.
  assert (Hfresh : ctr ∉ map fst D) by (rewrite Hb; lia).
  constructor; conn_simpl.
  - rewrite map_app. apply NoDup_app. split_and!; [done| |apply NoDup_singleton].
    intros x Hx ->%list_elem_of_singleton. done.
  - intros r. rewrite map_app, elem_of_app, Hb. simpl.
    rewrite list_elem_of_singleton. lia.
  - intros r Hpr. specialize (Hp r Hpr).
    apply bool_decide_eq_true_1 in Hp. apply bool_decide_eq_true_2.
    apply elem_of_app. by left.
  - intros r. specialize (Hs r).
    assert (count (is_started r) (if mon then E ++ [Started ctr] else E)
            = (count (is_started r) E
               + if mon && bool_decide (ctr = r) then 1 else 0)%nat) as ->.
    { destruct mon; simpl; [|lia]. by rewrite count_snoc. }
    rewrite Hs. destruct mon; simpl; [|done].
    repeat case_bool_decide; lia.
  - intros r. specialize (Ht r).
    assert (forall p, (forall x, p (Started x) = false) ->
              count p (if mon then E ++ [Started ctr] else E) = count p E) as Hsame.
    { intros p Hpx. destruct mon; [|done]. by rewrite count_snoc, Hpx, Nat.add_0_r. }
    rewrite !Hsame by done. rewrite Ht.
    rewrite (bool_decide_ext ((r, false) ∈ D ++ [(ctr, true)]) ((r, false) ∈ D));
      [done|].
    rewrite elem_of_app, list_elem_of_singleton.
    split; [by intros [?|?]|by left].
  - intros r. specialize (Hr r). rewrite count_snoc. simpl. rewrite Hr.
    assert (Hnp : bool_decide (is_Some (ws !! ctr)) = false).
    { apply not_true_is_false. intros Hpr. specialize (Hp _ Hpr).
      apply bool_decide_eq_true_1 in Hp. apply Hfresh.
      apply list_elem_of_fmap. by exists (ctr, false). }
    destruct (decide (ctr = r)) as [<-|Hne].
    + rewrite Hnp. repeat case_bool_decide; simpl; lia.
    + destruct (bool_decide (is_Some (ws !! r))); simpl;
        repeat case_bool_decide; simpl; lia.
  - done.
Qed.

Lemma invariant_dispatch_await c w :
  invariant c -> state c = OPEN ->
  let c2 := emit (assign_request_id c false).2 (Started (requestCounter c)) in
  invariant (set_waiters c2 (<[requestCounter c := w]> (waiters c2))).
Proof.
  intros [Hnd Hb Hp Hs Ht Hr Hc] Hopen.
  destruct c as [st lb mon sta des ctr ws t D E R]. conn_simpl.
  assert (Hfresh : ctr ∉ map fst D) by (rewrite Hb; lia).
  assert (Hnp : bool_decide (is_Some (ws !! ctr)) = false).
  { apply not_true_is_false. intros Hpr. specialize (Hp _ Hpr).
    apply bool_decide_eq_true_1 in Hp. apply Hfresh.
    apply list_elem_of_fmap. by exists (ctr, false). }
  assert (Hpend : forall r,
            bool_decide (is_Some (<[ctr := w]> ws !! r))
            = bool_decide (ctr = r) || bool_decide (is_Some (ws !! r))).
  { intros r. destruct (decide (ctr = r)) as [<-|Hne].
    - rewrite lookup_insert_eq. rewrite !bool_decide_eq_true_2 by eauto. done.
    - rewrite lookup_insert_ne by done.
      by rewrite (bool_decide_eq_false_2 (ctr = r)). }
  assert (Haw : forall r,
            bool_decide ((r, false) ∈ D ++ [(ctr, false)])
            = bool_decide (ctr = r) || bool_decide ((r, false) ∈ D)).
  { intros r. destruct (decide (ctr = r)) as [<-|Hne].
    - rewrite (bool_decide_eq_true_2 (ctr = ctr)) by done. simpl.
      apply bool_decide_eq_true_2.
      apply elem_of_app. right. by apply list_elem_of_singleton.
    - rewrite (bool_decide_eq_false_2 (ctr = r)) by done. simpl.
      apply bool_decide_ext. rewrite elem_of_app, list_elem_of_singleton.
      split; [|by left]. intros [?|?]; [done|congruence]. }
  assert (Hsame : forall p, (forall x, p (Started x) = false) ->
            count p (if mon then E ++ [Started ctr] else E) = count p E).
  { intros p Hpx. destruct mon; [|done]. by rewrite count_snoc, Hpx, Nat.add_0_r. }
  constructor; conn_simpl.
  - rewrite map_app. apply NoDup_app. split_and!; [done| |apply NoDup_singleton].
    intros x Hx ->%list_elem_of_singleton. done.
  - intros r. rewrite map_app, elem_of_app, Hb. simpl.
    rewrite list_elem_of_singleton. lia.
  - intros r. rewrite Hpend, Haw. intros Hpr.
    destruct (bool_decide (ctr = r)); [done|]. simpl in *. by apply Hp.
  - intros r. specialize (Hs r).
    assert (count (is_started r) (if mon then E ++ [Started ctr] else E)
            = (count (is_started r) E
               + if mon && bool_decide (ctr = r) then 1 else 0)%nat) as ->.
    { destruct mon; simpl; [|lia]. by rewrite count_snoc. }
    rewrite Hs. destruct mon; simpl; [|done].
    repeat case_bool_decide; lia.
  - intros r. specialize (Ht r). rewrite !Hsame by done.
    rewrite Ht, Hpend, Haw.
    destruct (decide (ctr = r)) as [<-|Hne].
    + rewrite (bool_decide_eq_true_2 (ctr = ctr)) by done. rewrite Hnp. simpl.
      rewrite (bool_decide_eq_false_2 ((ctr, false) ∈ D)).
      * by rewrite !andb_false_r.
      * intros Hin. apply Hfresh. apply list_elem_of_fmap. by exists (ctr, false).
    + by rewrite (bool_decide_eq_false_2 (ctr = r)).
  - intros r. specialize (Hr r). rewrite Hr, Hpend.
    destruct (decide (ctr = r)) as [<-|Hne].
    + rewrite (bool_decide_eq_true_2 (ctr = ctr)) by done. simpl.
      rewrite (bool_decide_eq_false_2 (ctr < ctr)%nat) by lia.
      by rewrite andb_false_r.
    + rewrite (bool_decide_eq_false_2 (ctr = r)) by done. simpl.
      destruct (bool_decide (is_Some (ws !! r))); simpl;
        [by rewrite !andb_false_r|].
      rewrite !andb_true_r. apply if_bool_decide_ext_nat. lia.
  - intros Hsta. by rewrite Hopen in Hsta.
Qed.

(** Removing the waiter of a request and resolving its caller, with an
    event that is terminal for the request. *)
Lemma invariant_settle c r w e res :
  invariant c -> waiters c !! r = Some w ->
  (e = Succeeded r (now c - dispatchedAt w) \/ e = Failed r (now c - dispatchedAt w)) ->
  invariant (resolve (emit (set_waiters c (delete r (waiters c))) e) r res).
Proof.
  intros [Hnd Hb Hp Hs Ht Hr Hc] Hw He.
  destruct c as [st lb mon sta des ctr ws t D E R]. conn_simpl.
  assert (Hpr : bool_decide (is_Some (ws !! r)) = true)
    by (apply bool_decide_eq_true_2; eauto).
  pose proof (Hp r Hpr) as Har.
  assert (Hlt : (r < ctr)%nat).
  { apply Hb. apply bool_decide_eq_true_1 in Har.
    apply list_elem_of_fmap. by exists (r, false). }
  assert (Hpend : forall r',
            bool_decide (is_Some (delete r ws !! r'))
            = negb (bool_decide (r = r')) && bool_decide (is_Some (ws !! r'))).
  { intros r'. destruct (decide (r = r')) as [<-|Hne].
    - rewrite lookup_delete_eq. rewrite (bool_decide_eq_true_2 (r = r)) by done.
      apply bool_decide_eq_false_2. by intros [? ?].
    - rewrite lookup_delete_ne by done.
      by rewrite (bool_decide_eq_false_2 (r = r')). }
  assert (Hstart : forall r',
            count (is_started r') (if mon then E ++ [e] else E)
            = count (is_started r') E).
  { intros r'. destruct mon; [|done]. rewrite count_snoc.
    destruct He as [-> | ->]; simpl; lia. }
  assert (Hterm : forall r',
            (count (is_succeeded r') (if mon then E ++ [e] else E)
             + count (is_failed r') (if mon then E ++ [e] else E))%nat
            = (count (is_succeeded r') E + count (is_failed r') E
               + if mon && bool_decide (r = r') then 1 else 0)%nat).
  { intros r'. destruct mon; simpl; [|lia]. rewrite !count_snoc.
    destruct He as [-> | ->]; simpl; destruct (bool_decide (r = r')); lia. }
  constructor; conn_simpl.
  - done.
  - done.
  - intros r'. rewrite Hpend. intros [_ H]%andb_prop. by apply Hp.
  - intros r'. by rewrite Hstart.
  - intros r'. rewrite Hterm, Ht, Hpend.
    destruct (decide (r = r')) as [<-|Hne].
    + rewrite (bool_decide_eq_true_2 (r = r)) by done.
      rewrite Hpr, Har. simpl. rewrite !andb_false_r, !andb_true_r.
      by destruct mon.
    + rewrite (bool_decide_eq_false_2 (r = r')) by done. simpl.
      rewrite andb_false_r. lia.
  - intros r'. rewrite count_snoc. simpl. rewrite Hr, Hpend.
    destruct (decide (r = r')) as [<-|Hne].
    + rewrite (bool_decide_eq_true_2 (r = r)) by done. rewrite Hpr. simpl.
      rewrite (bool_decide_eq_true_2 (r < ctr)%nat) by done. done.
    + rewrite (bool_decide_eq_false_2 (r = r')) by done. simpl. lia.
  - intros Hsta. rewrite (Hc Hsta). apply delete_empty.
Qed.

Lemma invariant_set_now c t : invariant c -> invariant (set_now c t).
Proof. intros [Hnd Hb Hp Hs Ht Hr Hc]. by constructor. Qed.

Lemma invariant_step c i c' : invariant c -> step c i = Some c' -> invariant c'.
Proof.
  intros Hinv Hstep. unfold step in Hstep.
  destruct (state c) eqn:Hst; try discriminate.
  destruct i as [noResponse timeout written|r|r e|t].
  - cbn [assign_request_id] in Hstep.
    destruct noResponse, written; injection Hstep as <-.
    + by apply invariant_dispatch_forget.
    + by apply invariant_teardown, invariant_dispatch_forget.
    + by apply (invariant_dispatch_await c).
    + by apply invariant_teardown, (invariant_dispatch_await c).
  - destruct (waiters c !! r) as [w|] eqn:Hw; injection Hstep as <-; [|done].
    eapply invariant_settle; eauto.
  - destruct (waiters c !! r) as [w|] eqn:Hw; [|by injection Hstep as <-].
    destruct e; injection Hstep as <-;
      try (eapply (invariant_settle c r w (Failed r _)); eauto).
    by apply invariant_teardown.
  - destruct (t <? now c)%Z; [discriminate|].
    destruct (bool_decide _); injection Hstep as <-.
    + by apply invariant_teardown, invariant_set_now.
    + by apply invariant_set_now.
Qed.

Lemma invariant_run c inputs c' :
  invariant c -> run c inputs = Some c' -> invariant c'.
Proof.
  revert c. induction inputs as [|i inputs IH]; intros c Hinv Hrun; simpl in *.
  - by injection Hrun as <-.
  - destruct (step c i) as [c1|] eqn:Hstep; [|discriminate].
    eapply IH; [|exact Hrun]. by eapply invariant_step.
Qed.

Lemma monitoring_teardown c e : monitoring (teardown c e) = monitoring c.
Proof. by destruct (teardown_facts c e) as (_ & _ & _ & -> & _). Qed.

Lemma monitoring_step c i c' : step c i = Some c' -> monitoring c' = monitoring c.
Proof.
  intros Hstep. unfold step in Hstep.
  destruct (state c); try discriminate.
  destruct i as [noResponse timeout written|r|r e|t].
  - cbn [assign_request_id] in Hstep.
    destruct noResponse, written; injection Hstep as <-;
      by rewrite ?monitoring_teardown.
  - destruct (waiters c !! r); by injection Hstep as <-.
  - destruct (waiters c !! r); [|by injection Hstep as <-].
    destruct e; injection Hstep as <-; by rewrite ?monitoring_teardown.
  - destruct (t <? now c)%Z; [discriminate|].
    destruct (bool_decide _); injection Hstep as <-;
      by rewrite ?monitoring_teardown.
Qed.

Lemma monitoring_run c inputs c' :
  run c inputs = Some c' -> monitoring c' = monitoring c.
Proof.
  revert c. induction inputs as [|i inputs IH]; intros c Hrun; simpl in *.
  - by injection Hrun as <-.
  - destruct (step c i) as [c1|] eqn:Hstep; [|discriminate].
    rewrite (IH _ Hrun). by eapply monitoring_step.
Qed.

Lemma fold_fail_waiter_resolutions e l c :
  resolutions (fold_left (fail_waiter e) l c)
  = resolutions c ++ map (fun rw : nat * waiter => (rw.1, Failure e)) l.
Proof.
  revert c. induction l as [|[r w] l IH]; intros c; simpl.
  - by rewrite app_nil_r.
  - rewrite IH. simpl. by rewrite <- app_assoc.
Qed.

Lemma teardown_resolves_pending c e r :
  pending c r = true -> (r, Failure e) ∈ resolutions (teardown c e).
Proof.
  intros Hp. unfold teardown, set_state, set_waiters. cbn [resolutions].
  rewrite fold_fail_waiter_resolutions. apply elem_of_app. right.
  apply bool_decide_eq_true_1 in Hp as [w Hw].
  apply list_elem_of_fmap. exists (r, w). split; [done|].
  by apply elem_of_map_to_list.
Qed.

Lemma waiters_teardown c e : waiters (teardown c e) = ∅.
Proof. by destruct (teardown_facts c e) as (_ & _ & -> & _). Qed.

Lemma requestCounter_teardown c e :
  requestCounter (teardown c e) = requestCounter c.
Proof. by destruct (teardown_facts c e) as (_ & _ & _ & _ & -> & _). Qed.

Lemma stable_step r w c i c' :
  stable r w c -> step c i = Some c' -> stable r w c'.
Proof.
  intros [Hlt Hw] Hstep. unfold step in Hstep.
  destruct (state c); try discriminate.
  assert (Hdel : forall r',
            delete r' (waiters c) !! r = Some w \/ delete r' (waiters c) !! r = None).
  { intros r'. destruct (decide (r' = r)) as [->|Hne].
    - right. apply lookup_delete_eq.
    - by rewrite lookup_delete_ne. }
  destruct i as [noResponse timeout written|r'|r' e|t].
  - cbn [assign_request_id] in Hstep.
    destruct noResponse, written; injection Hstep as <-; unfold stable;
      rewrite ?waiters_teardown, ?requestCounter_teardown; conn_simpl;
      rewrite ?lookup_empty, ?lookup_insert_ne by lia; split; auto.
  - destruct (waiters c !! r') as [w'|] eqn:Hw'; injection Hstep as <-;
      [|done]. split; conn_simpl; auto.
  - destruct (waiters c !! r') as [w'|] eqn:Hw'; [|by injection Hstep as <-].
    destruct e; injection Hstep as <-; unfold stable;
      rewrite ?waiters_teardown, ?requestCounter_teardown; conn_simpl;
      rewrite ?lookup_empty; split; auto.
  - destruct (t <? now c)%Z; [discriminate|].
    destruct (bool_decide _); injection Hstep as <-; unfold stable;
      rewrite ?waiters_teardown, ?requestCounter_teardown; conn_simpl;
      rewrite ?lookup_empty; split; auto.
Qed.

Lemma stable_run r w c inputs c' :
  stable r w c -> run c inputs = Some c' -> stable r w c'.
Proof.
  revert c. induction inputs as [|i inputs IH]; intros c Hst Hrun; simpl in *.
  - by injection Hrun as <-.
  - destruct (step c i) as [c1|] eqn:Hstep; [|discriminate].
    eapply IH; [|exact Hrun]. by eapply stable_step.
Qed.

Lemma step_tick_timeout c r w t :
  state c = OPEN -> (now c <= t)%Z ->
  waiters c !! r = Some w -> timed_out t w = true ->
  step c (Tick t) = Some (teardown (set_now c t) TimeoutError).
Proof.
  intros Hopen Hnow Hw Hto. unfold step. rewrite Hopen.
  destruct (Z.ltb_spec t (now c)); [lia|].
  rewrite bool_decide_eq_true_2; [done|]. by exists r, w.
Qed.

End ConnectionFacts.

Import Connection ConnectionFacts.

(** C8.  A dispatch that sets [socketTimeout], on a connection driven in
    any way from its creation: if it is still pending (no outcome has
    arrived) when the clock passes the end of the window, the connection is
    torn down as a whole.  The transport is
    destroyed, the connection is CLOSED, no waiter remains, and every waiter
    that was pending, the one that timed out and all the others, is
    resolved at that same step, once, with a timeout error, with one Failed
    event each when monitoring is enabled. *)
Theorem socket_timeout_tears_connection_down
    st lb mon t0 history c noResponse ms written c1 inputs c2 t :
  run (create st lb mon t0) history = Some c ->
  step c (Dispatch noResponse (Some ms) written) = Some c1 ->
  run c1 inputs = Some c2 ->
  pending c2 (requestCounter c) = true ->
  (now c + ms <= t)%Z ->
  (now c2 <= t)%Z ->
  exists c3,
    step c2 (Tick t) = Some c3
    /\ state c3 = CLOSED
    /\ transportDestroyed c3 = true
    /\ waiters c3 = ∅
    /\ forall r, pending c2 r = true ->
         resolved_count c2 r = 0%nat
         /\ (r, Failure TimeoutError) ∈ resolutions c3
         /\ resolved_count c3 r = 1%nat
         /\ succeeded_count c3 r = 0%nat
         /\ failed_count c3 r = if monitoring c3 then 1%nat else 0%nat.
Proof.
  intros Hhist Hdisp Hrun Hpend Hwin Hnow.
  pose proof (invariant_run _ _ _ (invariant_create st lb mon t0) Hhist) as Hinv.
  pose proof (invariant_step _ _ _ Hinv Hdisp) as Hinv1.
  pose proof (invariant_run _ _ _ Hinv1 Hrun) as Hinv2.
  set (r0 := requestCounter c) in *.
  set (w := Waiter (now c) (Some ms)).
  assert (Hfresh : waiters c !! r0 = None).
  { destruct (waiters c !! r0) as [w0|] eqn:Hw0; [|done].
    assert (pending c r0 = true) as Hp0
      by (apply bool_decide_eq_true_2; rewrite Hw0; eauto).
    apply (awaited_pending_below c r0 Hinv) in Hp0. subst r0. lia. }
  assert (Hst1 : stable r0 w c1).
  { unfold step in Hdisp. destruct (state c); try discriminate.
    cbn [assign_request_id] in Hdisp.
    destruct noResponse, written; injection Hdisp as <-; unfold stable;
      rewrite ?waiters_teardown, ?requestCounter_teardown; conn_simpl;
      rewrite ?lookup_empty, ?lookup_insert_eq; (split; [lia|auto]). }
  pose proof (stable_run _ _ _ _ _ Hst1 Hrun) as [_ Hw2].
  assert (Hw : waiters c2 !! r0 = Some w).
  { destruct Hw2 as [?|Hnone]; [done|].
    unfold pending in Hpend. apply bool_decide_eq_true_1 in Hpend as [? Hsome].
    congruence. }
  assert (Hopen : state c2 = OPEN).
  { destruct (state c2) eqn:Hs; [done| |];
      rewrite (inv_closed c2 Hinv2) in Hw by congruence;
      by rewrite lookup_empty in Hw. }
  assert (Hto : timed_out t w = true).
  { unfold timed_out, w. simpl. apply Z.leb_le. lia. }
  exists (teardown (set_now c2 t) TimeoutError).
  pose proof (step_tick_timeout c2 r0 w t Hopen Hnow Hw Hto) as Hstep.
  pose proof (invariant_step _ _ _ Hinv2 Hstep) as Hinv3.
  destruct (teardown_facts (set_now c2 t) TimeoutError)
    as (Hs3 & Hd3 & Hw3 & Hm3 & Hc3 & Hdis3 & _ & Hcount).
  split_and!; try done.
  intros r Hp.
  pose proof (inv_resolved c2 Hinv2 r) as Hr2. rewrite Hp in Hr2.
  rewrite andb_false_r in Hr2.
  pose proof (inv_terminal c2 Hinv2 r) as Ht2. rewrite Hp in Ht2.
  rewrite andb_false_r in Ht2.
  destruct (Hcount r) as (_ & Hsucc & Hfail & Hres).
  change (pending (set_now c2 t) r) with (pending c2 r) in *.
  change (monitoring (set_now c2 t)) with (monitoring c2) in *.
  change (resolved_count (set_now c2 t) r) with (resolved_count c2 r) in *.
  change (failed_count (set_now c2 t) r) with (failed_count c2 r) in *.
  change (succeeded_count (set_now c2 t) r) with (succeeded_count c2 r) in *.
  rewrite Hp in *. split_and!.
  - exact Hr2.
  - apply teardown_resolves_pending. exact Hp.
  - rewrite Hres, Hr2. reflexivity.
  - rewrite Hsucc. lia.
  - rewrite Hfail, Hm3. destruct (monitoring c2); simpl; lia.
Qed.

Lemma socket_timeout_tears_connection_down_witness :
  let c := after (create None false true 0) [Dispatch false None true] in
  let c1 := after c [Dispatch false (Some 50%Z) true] in
  exists c3,
    step c1 (Tick 50) = Some c3
    /\ state c3 = CLOSED
    /\ transportDestroyed c3 = true
    /\ waiters c3 = ∅
    /\ (0%nat, Failure TimeoutError) ∈ resolutions c3
    /\ (1%nat, Failure TimeoutError) ∈ resolutions c3.
Proof.
  intros c c1.
  destruct (socket_timeout_tears_connection_down
              None false true 0%Z [Dispatch false None true] c
              false 50%Z true c1 [] c1 50%Z)
    as (c3 & Hstep & Hs & Hd & Hw & Hall).
  - vm_compute. reflexivity.
  - vm_compute. reflexivity.
  - reflexivity.
  - vm_compute. reflexivity.
  - vm_compute. discriminate.
  - vm_compute. discriminate.
  - exists c3. split_and!; try done.
    + apply (Hall 0%nat). vm_compute. reflexivity.
    + apply (Hall 1%nat). vm_compute. reflexivity.
Defined.

(** C9.  [hasSessionSupport] is true for a connection with a defined
    session-timeout value, true for a load-balanced connection whatever the
    session-timeout value is, undefined included, and false when neither
    holds; so it is for the three connections of the unit test. *)
Theorem hasSessionSupport_cases :
  (forall c minutes,
     logicalSessionTimeoutMinutes c = Some minutes -> hasSessionSupport c = true)
  /\ (forall c, loadBalanced c = true -> hasSessionSupport c = true)
  /\ (forall c,
       logicalSessionTimeoutMinutes c = None -> loadBalanced c = false ->
       hasSessionSupport c = false)
  /\ (forall monitor t,
       hasSessionSupport (create (Some 5%Z) false monitor t) = true
       /\ hasSessionSupport (create None true monitor t) = true
       /\ hasSessionSupport (create None false monitor t) = false).
Proof.
  unfold hasSessionSupport. split_and!.
  - by intros c minutes ->.
  - intros c ->. by destruct (logicalSessionTimeoutMinutes c).
  - by intros c -> ->.
  - done.
Qed.

Lemma hasSessionSupport_cases_witness :
  hasSessionSupport (create (Some 30%Z) false true 0) = true
  /\ hasSessionSupport (create (Some 30%Z) true true 0) = true
  /\ hasSessionSupport (create None false true 0) = false.
Proof.
  destruct hasSessionSupport_cases as (Hdefined & Hbalanced & Hneither & _).
  split_and!.
  - exact (Hdefined (create (Some 30%Z) false true 0) 30%Z eq_refl).
  - exact (Hbalanced (create (Some 30%Z) true true 0) eq_refl).
  - exact (Hneither (create None false true 0) eq_refl eq_refl).
Defined.

(** C1, at the failing input.  For the sensitive command [saslStart] the
    Started event has the name-only marker [{saslStart: true}] in a field of
    its own, [commandObj], while its [command] field is the whole command,
    mechanism and payload included. *)
Theorem started_event_keeps_sensitive_command :
  run_on sasl_start
    (fun command =>
       new_object StartedC (CommandStartedEvent local_pool command)) 5
  = Returned
      (DObj StartedC
         [ ("commandObj", DObj Plain [("saslStart", DBool true)]);
           ("command", DObj Plain [ ("saslStart", DNum 1);
                                    ("mechanism", DStr "PLAIN");
                                    ("payload", DStr "AHVzZXIAcGVuY2ls") ]);
           ("databaseName", DStr "admin");
           ("commandName", DStr "saslStart");
           ("requestId", DNum 7);
           ("connectionId", DStr "localhost:27017") ]).
Proof. reflexivity. Qed.

Lemma field_prefix h h' v k :
  valid h v -> h `prefix_of` h' -> field h' v k = field h v k.
Proof. intros Hv [ex ->]. by apply field_app_l. Qed.

(** C7, as the connection and the code have it.  On a connection with
    monitoring enabled, driven in any way from its creation, every request
    dispatched with a reply awaited has exactly one Started event; it has no
    terminal event while it is pending and exactly one, Succeeded or Failed,
    from the moment its caller is resolved, which happens once.  On a
    connection with monitoring disabled, driven in any way from its
    creation, no request has a Started, a Succeeded or a Failed event, and
    the caller of a request dispatched with a reply awaited is resolved once
    all the same.  The Started event and the Failed or Succeeded event built
    from one command with one pool carry the same [requestId], the
    command's, and the same [connectionId], made of the pool's host and
    port. *)
Theorem monitored_dispatch_events_are_correlated :
  (forall st lb t0 inputs c r,
     run (create st lb true t0) inputs = Some c ->
     awaited c r = true ->
     started_count c r = 1%nat
     /\ (succeeded_count c r + failed_count c r)%nat
        = (if pending c r then 0%nat else 1%nat)
     /\ resolved_count c r = (if pending c r then 0%nat else 1%nat))
  /\ (forall st lb t0 inputs c r,
       run (create st lb false t0) inputs = Some c ->
       started_count c r = 0%nat
       /\ succeeded_count c r = 0%nat
       /\ failed_count c r = 0%nat
       /\ (awaited c r = true ->
           resolved_count c r = (if pending c r then 0%nat else 1%nat)))
  /\ (forall pool command reply error now started
             hs ts os cmd hs1 ns ht te ot cmd' ht1,
       hs !! ts = Some os -> valid hs command ->
       extractCommand command hs = (Returned cmd, hs1) ->
       field hs command "ns" = VStr ns ->
       ht !! te = Some ot -> valid ht command ->
       extractCommand command ht = (Returned cmd', ht1) ->
       field ht command "requestId" = field hs command "requestId" ->
       exists hfs,
         CommandStartedEvent pool command (VRef ts) hs = (Returned tt, hfs)
         /\ field hfs (VRef ts) "requestId" = field hs command "requestId"
         /\ field hfs (VRef ts) "connectionId" = VStr (generateConnectionId pool)
         /\ (exists hff,
               CommandFailedEvent now pool command error started (VRef te) ht
               = (Returned tt, hff)
               /\ field hff (VRef te) "requestId" = field hfs (VRef ts) "requestId"
               /\ field hff (VRef te) "connectionId"
                  = field hfs (VRef ts) "connectionId")
         /\ (forall r h2,
               extractReply command reply ht1 = (Returned r, h2) ->
               exists hfo,
                 CommandSucceededEvent now pool command reply started (VRef te) ht
                 = (Returned tt, hfo)
                 /\ field hfo (VRef te) "requestId" = field hfs (VRef ts) "requestId"
                 /\ field hfo (VRef te) "connectionId"
                    = field hfs (VRef ts) "connectionId")).
Proof.
  split; [|split].
  - intros st lb t0 inputs c r Hrun Haw.
    pose proof (invariant_run _ _ _ (invariant_create st lb true t0) Hrun) as Hinv.
    pose proof (monitoring_run _ _ _ Hrun) as Hmon. simpl in Hmon.
    pose proof (inv_started c Hinv r) as Hs.
    pose proof (inv_terminal c Hinv r) as Ht.
    pose proof (inv_resolved c Hinv r) as Hr.
    rewrite Hmon, Haw in *. simpl in *.
    assert (Hlt : (r < requestCounter c)%nat).
    { apply (inv_below c Hinv). apply bool_decide_eq_true_1 in Haw.
      apply list_elem_of_fmap. by exists (r, false). }
    rewrite bool_decide_eq_true_2 in Hs, Hr by done. simpl in *.
    split_and!; [done| |]; by destruct (pending c r).
  - intros st lb t0 inputs c r Hrun.
    pose proof (invariant_run _ _ _ (invariant_create st lb false t0) Hrun)
      as Hinv.
    pose proof (monitoring_run _ _ _ Hrun) as Hmon. simpl in Hmon.
    pose proof (inv_started c Hinv r) as Hs.
    pose proof (inv_terminal c Hinv r) as Ht.
    pose proof (inv_resolved c Hinv r) as Hr.
    rewrite Hmon in Hs, Ht. simpl in Hs, Ht.
    split_and!; [done|lia|lia|].
    intros Haw.
    assert (Hlt : (r < requestCounter c)%nat).
    { apply (inv_below c Hinv). apply bool_decide_eq_true_1 in Haw.
      apply list_elem_of_fmap. by exists (r, false). }
    rewrite bool_decide_eq_true_2 in Hr by done. simpl in Hr.
    by destruct (pending c r).
  - intros pool command reply error now started hs ts os cmd hs1 ns
      ht te ot cmd' ht1 Hos Hvs Es Hns Hot Hvt Et Hrid.
    destruct (CommandStartedEvent_eq pool command ts os hs cmd hs1 ns
                Hos Hvs Es Hns) as (hfs & Ehfs & _ & _ & Hsrid & Hscid & _).
    exists hfs. rewrite Hsrid, Hscid.
    pose proof (extractCommand_prefix command ht) as Hp1. rewrite Et in Hp1.
    simpl in Hp1.
    assert (Hot1 : ht1 !! te = Some ot).
    { eapply extractCommand_keeps_object; [done|]. by rewrite Et. }
    split_and!; [done..| |].
    + eexists. split; [by apply CommandFailedEvent_eq|].
      set (name := first_key ht1 cmd').
      set (h2 := if is_sensitive name then ht1 ++ [Obj Plain []] else ht1).
      assert (Hp2 : ht `prefix_of` h2).
      { subst h2. destruct (is_sensitive name); [|done].
        etrans; [exact Hp1|]. by apply prefix_app_r. }
      assert (Ho2 : h2 !! te = Some ot).
      { subst h2. destruct (is_sensitive name); [|done].
        rewrite lookup_app_l; [done|]. by eapply lookup_lt_Some. }
      edestruct (terminal_event_fields now pool started "failure") as
        (_ & _ & _ & Hfrid & Hfcid & _); [exact Ho2|by left|].
      rewrite Hfrid, Hfcid. split; [|done].
      rewrite (field_prefix ht h2) by done. exact Hrid.
    + intros r h2 Er.
      eexists. split; [by eapply CommandSucceededEvent_eq|].
      set (name := first_key ht1 cmd').
      pose proof (extractReply_prefix command reply ht1) as Hpr.
      rewrite Er in Hpr. simpl in Hpr.
      set (h3 := if is_sensitive name then h2 ++ [Obj Plain []] else h2).
      assert (Hp3 : ht `prefix_of` h3).
      { etrans; [exact Hp1|]. etrans; [exact Hpr|].
        subst h3. destruct (is_sensitive name); [|done]. by apply prefix_app_r. }
      assert (Ho3 : h3 !! te = Some ot).
      { destruct Hp3 as [ex ->]. rewrite lookup_app_l; [done|].
        by eapply lookup_lt_Some. }
      edestruct (terminal_event_fields now pool started "reply") as
        (_ & _ & _ & Hfrid & Hfcid & _); [exact Ho3|by right|].
      rewrite Hfrid, Hfcid. split; [|done].
      rewrite (field_prefix ht h3) by done. exact Hrid.
Qed.

Lemma monitored_dispatch_events_are_correlated_witness :
  (let c := after (create None false true 0) [Dispatch false None true; Reply 0] in
   started_count c 0 = 1%nat
   /\ (succeeded_count c 0 + failed_count c 0)%nat = 1%nat
   /\ resolved_count c 0 = 1%nat)
  /\ (let c := after (create None false false 0)
                 [Dispatch false None true; Reply 0] in
      started_count c 0 = 0%nat
      /\ succeeded_count c 0 = 0%nat
      /\ failed_count c 0 = 0%nat
      /\ resolved_count c 0 = 1%nat)
  /\ (let store := store_of (exchange ping ok_reply) in
      exists hfs hff,
        CommandStartedEvent local_pool (VRef 1) (VRef 5) (store ++ [Obj StartedC []])
        = (Returned tt, hfs)
        /\ CommandFailedEvent 100 local_pool (VRef 1) (VStr "boom") 90 (VRef 5)
             (store ++ [Obj FailedC []])
           = (Returned tt, hff)
        /\ field hfs (VRef 5) "requestId" = VNum 7
        /\ field hff (VRef 5) "requestId" = VNum 7
        /\ field hfs (VRef 5) "connectionId" = VStr "localhost:27017"
        /\ field hff (VRef 5) "connectionId" = VStr "localhost:27017").
Proof.
  destruct monitored_dispatch_events_are_correlated as (Hmodel & Hoff & Hcode).
  split_and!.
  - intros c.
    exact (Hmodel None false 0%Z [Dispatch false None true; Reply 0] c 0%nat
             ltac:(vm_compute; reflexivity) ltac:(vm_compute; reflexivity)).
  - intros c.
    destruct (Hoff None false 0%Z [Dispatch false None true; Reply 0] c 0%nat
                ltac:(vm_compute; reflexivity)) as (Hs & Hk & Hf & Hr).
    split_and!; [exact Hs|exact Hk|exact Hf|].
    exact (Hr ltac:(vm_compute; reflexivity)).
  - intros store.
    destruct (Hcode local_pool (VRef 1) (VRef 3) (VStr "boom") 100%Z 90%Z
                (store ++ [Obj StartedC []]) 5%nat (Obj StartedC []) (VRef 0)
                (store ++ [Obj StartedC []]) "admin.$cmd"
                (store ++ [Obj FailedC []]) 5%nat (Obj FailedC []) (VRef 0)
                (store ++ [Obj FailedC []])
                eq_refl ltac:(vm_compute; lia) eq_refl eq_refl
                eq_refl ltac:(vm_compute; lia) eq_refl eq_refl)
      as (hfs & Es & Hrid & Hcid & (hff & Ef & Hfrid & Hfcid) & _).
    exists hfs, hff. split_and!; try done.
    + by rewrite Hfrid, Hrid.
    + by rewrite Hfcid, Hcid.
Defined.

(** C7 as stated fails: with monitoring disabled, a command dispatched with
    a reply awaited and answered has its caller resolved and produces no
    Started and no terminal event. *)
Lemma unmonitored_dispatch_emits_nothing :
  exists c,
    run (create None false false 0) [Dispatch false None true; Reply 0] = Some c
    /\ awaited c 0 = true
    /\ pending c 0 = false
    /\ resolved_count c 0 = 1%nat
    /\ started_count c 0 = 0%nat
    /\ (succeeded_count c 0 + failed_count c 0)%nat = 0%nat.
Proof.
  eexists. split; [vm_compute; reflexivity|]. vm_compute. done.
Qed.

(** * Further properties of connection/apm.js *)

Ltac throw_with tac :=
  lazymatch goal with
  | |- bind ?m ?k ?h = _ => erewrite (bind_thrown m k h) by tac
  end.

Section TranslatorOutcomes.

Implicit Types (h : heap) (command reply : value).

Lemma closed_field_valid h v k : closed h -> valid h (field h v k).
Proof.
  intros Hcl. destruct v as [| | | | |l]; try done. simpl.
  unfold props_at. destruct (h !! l) as [o|] eqn:Ho; [|done].
  apply valid_below. by eapply closed_lookup.
Qed.

Lemma upconvert_throws_without_options h lc ns :
  (lc < length h)%nat ->
  field h (VRef lc) "ns" = VStr ns ->
  is_legacy_find h (VRef lc) = true ->
  nullish (field h (VRef lc) "options") = true ->
  exists h', upconvert_legacy_find (VRef lc) h = (Thrown TypeError, h').
Proof.
  intros Hlc Hns Hleg Hopt.
  apply andb_prop in Hleg as [Hq Hdq].
  set (c := VRef lc) in *.
  set (q := field h c "query") in *.
  set (o := field h c "options") in *.
  assert (Hqv : valid h q).
  { destruct q as [| | | | |lq]; simpl; try done.
    destruct (decide (lq < length h)%nat); [done|].
    simpl in Hdq. unfold props_at in Hdq.
    rewrite lookup_ge_None_2 in Hdq by lia. done. }
  assert (Hqn : nullish q = false) by (by destruct q).
  assert (Hrd : forall v ps k, nullish v = false -> valid h v ->
              get_prop v k (h ++ [Obj Plain ps])
              = (Returned (field h v k), h ++ [Obj Plain ps])).
  { intros v ps k Hn Hv. rewrite get_prop_field by done.
    by rewrite field_app_l. }
  assert (Hc : forall ps k, get_prop c k (h ++ [Obj Plain ps])
                            = (Returned (field h c k), h ++ [Obj Plain ps])).
  { intros. by apply Hrd. }
  eexists. unfold upconvert_legacy_find.
  run_with ltac:(by apply get_prop_field). rewrite Hns.
  run_with ltac:(reflexivity).
  run_with ltac:(reflexivity).
  run_with ltac:(
    apply (for_each_assign _ _ (table_get LEGACY_FIND_QUERY_MAP)
             (fun k => pick defined (field h q k)));
    intros k ps'; run_with ltac:(apply Hc); fold q;
    run_with ltac:(by apply Hrd);
    unfold assign_opt, pick; cbn [fst snd];
    destruct (defined (field h q k)); [|reflexivity];
    run_with ltac:(apply Hc); fold q;
    run_with ltac:(by apply Hrd); apply set_prop_last).
  throw_with ltac:(
    cbn [map fst LEGACY_FIND_OPTIONS_MAP for_each];
    throw_with ltac:(
      run_with ltac:(apply Hc); fold o;
      destruct o; try discriminate; reflexivity);
    reflexivity).
  reflexivity.
Qed.

Lemma split_not_string v i h :
  is_string v = false -> split_dot_at v i h = (Thrown TypeError, h).
Proof. by destruct v. Qed.

Lemma extractCommand_outcome h command :
  closed h -> valid h command ->
  (extractCommand_throws h command = true ->
   exists h', extractCommand command h = (Thrown TypeError, h'))
  /\ (extractCommand_throws h command = false ->
      exists v h', extractCommand command h = (Returned v, h')).
Proof.
  intros Hcl Hv. unfold extractCommand_throws, is_GetMore, is_KillCursor.
  destruct (nullish command) eqn:Hn.
  { split; [|done]. intros _. exists h. by destruct command. }
  cbn [orb].
  destruct (decide (class_of h command = Some GetMoreC)) as [Hgm|Hgm].
  { rewrite (bool_decide_eq_true_2 _ Hgm). cbn [orb].
    destruct (is_string (field h command "ns")) eqn:Hs; cbn [negb]; split;
      try done; intros _.
    - destruct (field h command "ns") as [| | | |ns|] eqn:Hns; try done.
      do 2 eexists. by apply extractCommand_GetMore.
    - exists h. unfold extractCommand.
      run_with ltac:(apply instanceof_eq).
      rewrite Hgm, bool_decide_eq_true_2 by done.
      do 2 run_with ltac:(by apply get_prop_field).
      throw_with ltac:(by apply split_not_string). reflexivity. }
  rewrite (bool_decide_eq_false_2 _ Hgm). cbn [orb].
  destruct (decide (class_of h command = Some KillCursorC)) as [Hkc|Hkc].
  { rewrite (bool_decide_eq_true_2 _ Hkc).
    destruct (is_string (field h command "ns")) eqn:Hs; cbn [negb]; split;
      try done; intros _.
    - destruct (field h command "ns") as [| | | |ns|] eqn:Hns; try done.
      do 2 eexists. by apply extractCommand_KillCursor.
    - exists h. unfold extractCommand.
      run_with ltac:(apply instanceof_eq).
      rewrite bool_decide_eq_false_2 by done.
      run_with ltac:(apply instanceof_eq).
      rewrite Hkc, bool_decide_eq_true_2 by done.
      run_with ltac:(by apply get_prop_field).
      throw_with ltac:(by apply split_not_string). reflexivity. }
  rewrite (bool_decide_eq_false_2 _ Hkc).
  rewrite extractCommand_generic by done.
  destruct (is_legacy_find h command) eqn:Hleg; cbn [andb];
    [|split; [done|eauto]].
  destruct (legacy_find_is_object _ _ Hleg) as (lc & -> & Hlc).
  destruct (is_string (field h (VRef lc) "ns")) eqn:Hs; cbn [negb orb].
  - destruct (field h (VRef lc) "ns") as [| | | |ns|] eqn:Hns; try done.
    destruct (nullish (field h (VRef lc) "options")) eqn:Hopt; split;
      try done; intros _.
    + by apply (upconvert_throws_without_options h lc ns).
    + rewrite (upconvert_legacy_find_eq h lc ns); try done.
      * destruct (truthy _); eauto.
      * by apply closed_field_valid.
  - split; [|done]. intros _. exists h. unfold upconvert_legacy_find.
    run_with ltac:(by apply get_prop_field).
    throw_with ltac:(by apply split_not_string). reflexivity.
Qed.

Lemma cursor_reply_throws h command reply batch :
  nullish (field h reply "message") = true ->
  (message <- get_prop reply "message" ;;
   id <- get_prop message "cursorId" ;;
   ns <- get_prop command "ns" ;;
   message' <- get_prop reply "message" ;;
   documents <- get_prop message' "documents" ;;
   cursor <- alloc Plain [("id", id); ("ns", ns); (batch, documents)] ;;
   alloc Plain [("ok", VNum 1); ("cursor", cursor)]) h
  = (Thrown TypeError, h).
Proof.
  intros Hm. destruct (nullish reply) eqn:Hr.
  - by destruct reply.
  - run_with ltac:(by apply get_prop_field).
    by destruct (field h reply "message").
Qed.

Lemma extractReply_outcome h command reply :
  (extractReply_throws h command reply = true ->
   extractReply command reply h = (Thrown TypeError, h))
  /\ (extractReply_throws h command reply = false ->
      exists v h', extractReply command reply h = (Returned v, h')).
Proof.
  unfold extractReply_throws, is_GetMore, is_KillCursor.
  destruct (decide (class_of h command = Some GetMoreC)) as [Hgm|Hgm].
  { rewrite (bool_decide_eq_true_2 _ Hgm).
    assert (nullish command = false) by (by destruct command).
    split; intros Hm; unfold extractReply.
    - run_with ltac:(apply instanceof_eq).
      rewrite Hgm, bool_decide_eq_true_2 by done.
      by apply cursor_reply_throws.
    - do 2 eexists. run_with ltac:(apply instanceof_eq).
      rewrite Hgm, bool_decide_eq_true_2 by done.
      by apply cursor_reply_eq. }
  rewrite (bool_decide_eq_false_2 _ Hgm).
  destruct (decide (class_of h command = Some KillCursorC)) as [Hkc|Hkc].
  { rewrite (bool_decide_eq_true_2 _ Hkc).
    assert (nullish command = false) by (by destruct command).
    split; [done|]. intros _. do 2 eexists. unfold extractReply.
    run_with ltac:(apply instanceof_eq).
    rewrite bool_decide_eq_false_2 by done.
    run_with ltac:(apply instanceof_eq).
    rewrite Hkc, bool_decide_eq_true_2 by done.
    run_with ltac:(by apply get_prop_field). reflexivity. }
  rewrite (bool_decide_eq_false_2 _ Hkc).
  destruct (nullish command) eqn:Hn; cbn [orb].
  { split; [|done]. intros _. by destruct command. }
  assert (Hstart : forall k : bool -> js value,
            extractReply command reply h
            = (if is_legacy_find h command
               then (message <- get_prop reply "message" ;;
                     id <- get_prop message "cursorId" ;;
                     ns <- get_prop command "ns" ;;
                     message' <- get_prop reply "message" ;;
                     documents <- get_prop message' "documents" ;;
                     cursor <- alloc Plain [("id", id); ("ns", ns);
                                            ("firstBatch", documents)] ;;
                     alloc Plain [("ok", VNum 1); ("cursor", cursor)])
               else get_prop reply "result") h).
  { intros _. unfold extractReply.
    run_with ltac:(apply instanceof_eq).
    rewrite bool_decide_eq_false_2 by done.
    run_with ltac:(apply instanceof_eq).
    rewrite bool_decide_eq_false_2 by done.
    rewrite <- bind_assoc.
    run_with ltac:(by apply legacy_test_eq). reflexivity. }
  rewrite (Hstart (fun _ => ret VUndefined)).
  destruct (is_legacy_find h command); split; intros Hm.
  - by apply cursor_reply_throws.
  - do 2 eexists. by apply cursor_reply_eq.
  - by destruct reply.
  - do 2 eexists. by apply get_prop_field.
Qed.

Lemma first_key_last h c k v ps :
  first_key (h ++ [Obj c ((k, v) :: ps)]) (VRef (length h)) = VStr k.
Proof.
  unfold first_key. simpl. unfold props_at.
  by rewrite list_lookup_middle.
Qed.

Lemma first_key_last_but_one h o c k v ps :
  first_key (h ++ [o; Obj c ((k, v) :: ps)]) (VRef (S (length h))) = VStr k.
Proof.
  unfold first_key. simpl. unfold props_at.
  rewrite (lookup_app_r h) by lia.
  by replace (S (length h) - length h)%nat with 1%nat by lia.
Qed.

Lemma translated_name_eq h command cmd h1 :
  closed h -> valid h command ->
  extractCommand command h = (Returned cmd, h1) ->
  first_key h1 cmd = translated_name h command.
Proof.
  intros Hcl Hv E.
  pose proof (extractCommand_input_not_nullish _ _ _ _ E) as Hn.
  destruct (extractCommand_outcome h command Hcl Hv) as [Hthrow _].
  destruct (extractCommand_throws h command) eqn:Ht.
  { destruct (Hthrow eq_refl) as [h' E']. congruence. }
  clear Hthrow. unfold extractCommand_throws in Ht. rewrite Hn in Ht.
  cbn [orb] in Ht. unfold translated_name.
  destruct (is_GetMore h command) eqn:Hgm.
  { apply bool_decide_eq_true_1 in Hgm. cbn [orb] in Ht.
    destruct (field h command "ns") as [| | | |ns|] eqn:Hns; try done.
    rewrite (extractCommand_GetMore h command ns) in E by done.
    injection E as <- <-. apply first_key_last. }
  cbn [orb] in Ht.
  destruct (is_KillCursor h command) eqn:Hkc.
  { apply bool_decide_eq_true_1 in Hkc.
    destruct (field h command "ns") as [| | | |ns|] eqn:Hns; try done.
    rewrite (extractCommand_KillCursor h command ns) in E by done.
    injection E as <- <-. apply first_key_last. }
  apply bool_decide_eq_false_1 in Hgm, Hkc.
  destruct (is_legacy_find h command) eqn:Hleg.
  - cbn [andb] in Ht. apply orb_false_elim in Ht as [Hs Hopt].
    destruct (field h command "ns") as [| | | |ns|] eqn:Hns; try done.
    rewrite (extractCommand_legacy_find h command ns) in E; try done;
      [|by apply closed_field_valid].
    cbn zeta in E.
    destruct (truthy (field h (field h command "query") "$explain"));
      injection E as <- <-.
    + apply first_key_last_but_one.
    + apply first_key_last.
  - rewrite extractCommand_generic, Hleg in E by done.
    by injection E as <- <-.
Qed.

End TranslatorOutcomes.

(** X1.  In a closed store, [extractCommand] throws a TypeError exactly
    when the command is [undefined] or [null], or is a GetMore, a KillCursor
    or a legacy find whose [ns] is not a string, or is a legacy find without
    an options object; in every other case it returns. *)
Theorem extractCommand_throws_iff h command :
  closed h -> valid h command ->
  (extractCommand_throws h command = true ->
   exists h', extractCommand command h = (Thrown TypeError, h'))
  /\ (extractCommand_throws h command = false ->
      exists v h', extractCommand command h = (Returned v, h')).
Proof. exact (extractCommand_outcome h command). Qed.

(** X2.  [extractReply] throws a TypeError, leaving the store as it is,
    exactly when it has to read a property of [undefined] or [null]: the
    reply's [message] for a GetMore or a legacy find, the command itself,
    or the reply for any other command but a KillCursor, whose reply is
    never read.  In every other case it returns. *)
Theorem extractReply_throws_iff h command reply :
  (extractReply_throws h command reply = true ->
   extractReply command reply h = (Thrown TypeError, h))
  /\ (extractReply_throws h command reply = false ->
      exists v h', extractReply command reply h = (Returned v, h')).
Proof. exact (extractReply_outcome h command reply). Qed.

(** X3.  The name of a translated command, its first key, is [getMore] for
    every GetMore, [killCursors] for every KillCursor, [explain] or [find]
    for every legacy find, and the first key of the query (of the command
    when there is no query) otherwise.  So the translation of a GetMore, a
    KillCursor or a legacy find is never a sensitive command, whatever the
    command holds. *)
Theorem translated_command_name h command cmd h1 :
  closed h -> valid h command ->
  extractCommand command h = (Returned cmd, h1) ->
  first_key h1 cmd = translated_name h command
  /\ (is_GetMore h command || is_KillCursor h command
      || is_legacy_find h command = true ->
      is_sensitive (first_key h1 cmd) = false).
Proof.
  intros Hcl Hv E. rewrite (translated_name_eq h command cmd h1) by done.
  split; [done|]. unfold translated_name.
  destruct (is_GetMore h command); [done|].
  destruct (is_KillCursor h command); [done|].
  destruct (is_legacy_find h command); [|done].
  by destruct (truthy _).
Qed.

Section Namespaces.

Implicit Types (db coll rest : string).

Lemma split_on_prefix db rest :
  contains_dot db = false ->
  split_on "."%char (db ++ String "."%char rest) = db :: split_on "."%char rest.
Proof.
  induction db as [|a db IH]; simpl; [done|].
  intros H. apply orb_false_elim in H as [Ha Hdb].
  by rewrite Ha, IH.
Qed.

Lemma split_on_nonempty s : split_on "."%char s <> [].
Proof.
  destruct s as [|a s]; simpl; [done|].
  destruct (Ascii.eqb a "."); [done|]. by destruct (split_on "." s).
Qed.

Lemma split_on_head db tail :
  contains_dot db = false ->
  (tail = EmptyString \/ exists rest, tail = String "."%char rest) ->
  split_on "."%char (db ++ tail) !! 0%nat = Some db.
Proof.
  intros Hdb [-> | [rest ->]].
  - assert (db ++ "" = db)%string as ->.
    { clear. induction db as [|a db IH]; [done|].
      change (String a (db ++ "") = String a db)%string. by rewrite IH. }
    by rewrite contains_dot_split.
  - by rewrite split_on_prefix.
Qed.


End Namespaces.


(** X5.  The [databaseName] of a Started event is the namespace up to its
    first dot, and the whole namespace when it has no dot. *)
Theorem started_event_database_name pool command t o h cmd h1 db tail :
  h !! t = Some o -> valid h command ->
  extractCommand command h = (Returned cmd, h1) ->
  contains_dot db = false ->
  (tail = EmptyString \/ exists rest, tail = String "."%char rest) ->
  field h command "ns" = VStr (db ++ tail) ->
  exists hf,
    CommandStartedEvent pool command (VRef t) h = (Returned tt, hf)
    /\ field hf (VRef t) "databaseName" = VStr db.
Proof.
  intros Ho Hv E Hdb Htail Hns.
  destruct (CommandStartedEvent_eq pool command t o h cmd h1 _ Ho Hv E Hns)
    as (hf & Ehf & _ & Hname & _).
  exists hf. split; [done|]. by rewrite Hname, split_on_head.
Qed.

Section EventShapes.

Implicit Types (h : heap) (command cmd : value).

Lemma marked_store_eq t o name h1 :
  h1 !! t = Some o ->
  (if is_sensitive name then
     commandObj <- alloc Plain [] ;;
     set_prop (VRef t) "commandObj" commandObj ;;;
     commandObj' <- get_prop (VRef t) "commandObj" ;;
     match name with
     | VStr nm => set_prop commandObj' nm (VBool true)
     | _ => ret tt
     end
   else ret tt) h1 = (Returned tt, marked_store t name h1).
Proof.
  intros Ho. unfold marked_store. rewrite Ho.
  assert (Ht : (t < length h1)%nat) by (by eapply lookup_lt_Some).
  destruct (is_sensitive name) eqn:Hs; [|by destruct name].
  destruct name as [| | | |nm|]; try done. rewrite ?Hs.
  set (l := length h1).
  set (om := Obj (cls o) (assign_prop "commandObj" (VRef l) (props o))).
  set (hA := <[t := om]> (h1 ++ [Obj Plain []])).
  assert (HAl : hA !! l = Some (Obj Plain [])).
  { subst hA. rewrite list_lookup_insert_ne by lia.
    by apply list_lookup_middle. }
  run_with ltac:(reflexivity).
  run_with ltac:(apply (set_prop_eq _ _ o); by rewrite lookup_app_l).
  fold l om hA.
  run_with ltac:(apply get_prop_ref).
  assert (field hA (VRef t) "commandObj" = VRef l) as ->.
  { simpl. unfold hA. rewrite props_at_insert_eq
      by (rewrite !length_app; simpl; lia).
    apply lookup_assign_eq. }
  by rewrite (set_prop_eq _ _ _ _ _ HAl).
Qed.

Lemma marked_store_other t name h1 l :
  l <> t -> (l < length h1)%nat -> marked_store t name h1 !! l = h1 !! l.
Proof.
  intros Hne Hl. unfold marked_store.
  destruct name as [| | | |nm|]; try done.
  destruct (h1 !! t) as [o|]; [|done].
  destruct (is_sensitive _); [|done].
  rewrite !list_lookup_insert_ne by lia. by rewrite lookup_app_l.
Qed.

Lemma marked_store_length t name h1 :
  (length h1 <= length (marked_store t name h1))%nat.
Proof.
  unfold marked_store. destruct name as [| | | |nm|]; try done.
  destruct (h1 !! t) as [o|]; [|done].
  destruct (is_sensitive _); [|done].
  rewrite !length_insert, length_app. lia.
Qed.

(** The event object after [commandObj] has been set. *)
Lemma marked_store_event t o name h1 :
  h1 !! t = Some o ->
  marked_store t name h1 !! t
  = Some (Obj (cls o)
            (if is_sensitive name
             then assign_prop "commandObj" (VRef (length h1)) (props o)
             else props o)).
Proof.
  intros Ho. unfold marked_store. rewrite Ho.
  assert (Ht : (t < length h1)%nat) by (by eapply lookup_lt_Some).
  destruct (is_sensitive name) eqn:Hs.
  - destruct name as [| | | |nm|]; try done. rewrite ?Hs.
    rewrite list_lookup_insert_ne by lia.
    apply list_lookup_insert_eq. rewrite length_app. lia.
  - destruct o. by destruct name; rewrite ?Hs.
Qed.

Lemma marked_store_marker t o nm h1 :
  h1 !! t = Some o -> is_sensitive (VStr nm) = true ->
  marked_store t (VStr nm) h1 !! length h1 = Some (Obj Plain [(nm, VBool true)]).
Proof.
  intros Ho Hs. unfold marked_store. rewrite Ho, Hs.
  apply list_lookup_insert_eq. rewrite length_insert, length_app. simpl. lia.
Qed.

Lemma field_marked_store t name h1 v k :
  valid h1 v -> v <> VRef t ->
  field (marked_store t name h1) v k = field h1 v k.
Proof.
  intros Hv Hne. destruct v as [| | | | |l]; try done. simpl in *.
  unfold props_at. rewrite marked_store_other; [done|congruence|done].
Qed.

Lemma first_key_marked_store t name h1 v :
  valid h1 v -> v <> VRef t ->
  first_key (marked_store t name h1) v = first_key h1 v.
Proof.
  intros Hv Hne. destruct v as [| | | | |l]; try done.
  unfold first_key. simpl in *.
  unfold props_at. rewrite marked_store_other; [done|congruence|done].
Qed.

Lemma CommandStartedEvent_store pool command t o h cmd h1 ns :
  h !! t = Some o ->
  extractCommand command h = (Returned cmd, h1) ->
  let name := first_key h1 cmd in
  let hm := marked_store t name h1 in
  field hm command "ns" = VStr ns ->
  let fields :=
    [ ("command", cmd);
      ("databaseName", match split_on "."%char ns !! 0%nat with
                       | Some db => VStr db
                       | None => VUndefined
                       end);
      ("commandName", first_key hm cmd);
      ("requestId", field hm command "requestId");
      ("connectionId", VStr (generateConnectionId pool)) ] in
  CommandStartedEvent pool command (VRef t) h
  = (Returned tt,
     <[t := Obj (cls o)
              (assign_all fields
                 (if is_sensitive name
                  then assign_prop "commandObj" (VRef (length h1)) (props o)
                  else props o))]>
       (hm ++ [Obj Plain fields])).
Proof.
  intros Ho E name hm Hns fields.
  pose proof (extractCommand_input_not_nullish _ _ _ _ E) as Hc.
  pose proof (extractCommand_output_not_nullish _ _ _ _ E) as Hcmd.
  assert (Ho1 : h1 !! t = Some o).
  { eapply extractCommand_keeps_object; [done|]. by rewrite E. }
  pose proof (marked_store_event t o name h1 Ho1) as Hom.
  unfold CommandStartedEvent.
  run_with ltac:(exact E).
  run_with ltac:(by apply extractCommandName_eq).
  run_with ltac:(by apply (marked_store_eq t o)).
  fold name hm.
  run_with ltac:(by apply get_prop_field).
  rewrite Hns.
  run_with ltac:(reflexivity).
  run_with ltac:(by apply extractCommandName_eq).
  run_with ltac:(by apply get_prop_field).
  by rewrite (object_assign_eq _ _ _ _ Hom).
Qed.

End EventShapes.

Section Extensions.

Implicit Types (h : heap) (command cmd : value).

Lemma prefix_of_lookup h h' :
  (length h <= length h')%nat ->
  (forall l, (l < length h)%nat -> h' !! l = h !! l) -> h `prefix_of` h'.
Proof.
  intros Hlen Hl. exists (drop (length h) h').
  rewrite <- (take_drop (length h) h') at 1. f_equal.
  apply list_eq. intros i. destruct (decide (i < length h)%nat).
  - rewrite lookup_take_lt by done. by apply Hl.
  - rewrite lookup_take_ge by lia. symmetry. apply lookup_ge_None. lia.
Qed.

Lemma class_of_prefix h h' v :
  valid h v -> h `prefix_of` h' -> class_of h' v = class_of h v.
Proof.
  intros Hv [ex ->]. destruct v as [| | | | |l]; try done.
  simpl in *. by rewrite lookup_app_l.
Qed.

Lemma first_key_prefix h h' v :
  valid h v -> h `prefix_of` h' -> first_key h' v = first_key h v.
Proof.
  intros Hv [ex ->]. destruct v as [| | | | |l]; try done.
  unfold first_key. simpl in *. by rewrite props_at_app_l.
Qed.

Lemma is_legacy_find_prefix h h' command :
  closed h -> valid h command -> h `prefix_of` h' ->
  is_legacy_find h' command = is_legacy_find h command.
Proof.
  intros Hcl Hv Hp. unfold is_legacy_find.
  rewrite (field_prefix h h' command) by done.
  by rewrite (field_prefix h h') by (done || by apply closed_field_valid).
Qed.

Lemma extractCommand_throws_prefix h h' command :
  closed h -> valid h command -> h `prefix_of` h' ->
  extractCommand_throws h' command = extractCommand_throws h command.
Proof.
  intros Hcl Hv Hp. unfold extractCommand_throws, is_GetMore, is_KillCursor.
  rewrite (class_of_prefix h h'), (is_legacy_find_prefix h h') by done.
  by rewrite !(field_prefix h h' command) by done.
Qed.

Lemma extractReply_throws_prefix h h' command reply :
  closed h -> valid h command -> valid h reply -> h `prefix_of` h' ->
  extractReply_throws h' command reply = extractReply_throws h command reply.
Proof.
  intros Hcl Hv Hr Hp. unfold extractReply_throws, is_GetMore, is_KillCursor.
  rewrite (class_of_prefix h h'), (is_legacy_find_prefix h h') by done.
  by rewrite !(field_prefix h h' reply) by done.
Qed.

Lemma translated_name_prefix h h' command :
  closed h -> valid h command -> h `prefix_of` h' ->
  translated_name h' command = translated_name h command.
Proof.
  intros Hcl Hv Hp. unfold translated_name, is_GetMore, is_KillCursor.
  rewrite (class_of_prefix h h'), (is_legacy_find_prefix h h') by done.
  rewrite !(field_prefix h h' command) by done.
  rewrite (field_prefix h h' (field h command "query"))
    by (done || by apply closed_field_valid).
  rewrite (first_key_prefix h h'); [done| |done].
  destruct (truthy _); [by apply closed_field_valid|done].
Qed.

Lemma closed_new_object h c : closed h -> closed (h ++ [Obj c []]).
Proof. intros Hcl. apply closed_app; [done|]. by constructor. Qed.

(** What [extractCommand] returns in a store with one more object is never
    that object: it is an object of the input or one built after it. *)
Lemma extractCommand_result_location h c command cmd h1 :
  closed h -> valid h command ->
  extractCommand command (h ++ [Obj c []]) = (Returned cmd, h1) ->
  cmd <> VRef (length h) /\ valid h1 cmd.
Proof.
  intros Hcl Hv E. split.
  - pose proof (related_extractCommand (length h) 1 command h
                  (h ++ [Obj c []]) (heapR_extension h [Obj c []] Hcl)) as [Ho _].
    rewrite (ren_valid h 1 command Hv), E in Ho. simpl in Ho.
    destruct (extractCommand command h).1 as [v0|]; [|done].
    simpl in Ho. unfold valR in Ho. subst cmd.
    destruct v0 as [| | | | |l]; try done. simpl. unfold shift.
    intros [= Hl]. destruct (decide (l < length h)%nat); lia.
  - pose proof (sound_extractCommand (length (h ++ [Obj c []])) command) as Hs.
    destruct (Hs) with (h := h ++ [Obj c []]) as (_ & _ & Hb).
    + apply valid_below. destruct command; try done. simpl in *.
      rewrite length_app. lia.
    + by apply closed_new_object.
    + done.
    + rewrite E in Hb. apply valid_below. by apply Hb.
Qed.

End Extensions.

Section NewEvents.

Implicit Types (h : heap) (command cmd : value).

Lemma new_object_eq c constructor h :
  new_object c constructor h
  = match constructor (VRef (length h)) (h ++ [Obj c []]) with
    | (Returned _, hf) => (Returned (VRef (length h)), hf)
    | (Thrown e, hf) => (Thrown e, hf)
    end.
Proof.
  unfold new_object, bind, alloc, ret.
  by destruct (constructor _ _) as [[[]|e] hf].
Qed.

Lemma prefix_new_object h c : h `prefix_of` h ++ [Obj c []].
Proof. by eexists. Qed.

Lemma prefix_marked_store h t name h1 :
  (length h <= t)%nat -> h `prefix_of` h1 ->
  h `prefix_of` marked_store t name h1.
Proof.
  intros Ht Hp. pose proof (prefix_length _ _ Hp) as Hlen.
  apply prefix_of_lookup.
  - pose proof (marked_store_length t name h1). lia.
  - intros l Hl. rewrite marked_store_other by lia.
    destruct Hp as [ex ->]. by rewrite lookup_app_l.
Qed.

Lemma prefix_assigned h t o fields hm :
  (length h <= t)%nat -> h `prefix_of` hm ->
  h `prefix_of` <[t := o]> (hm ++ [Obj Plain fields]).
Proof.
  intros Ht Hp. pose proof (prefix_length _ _ Hp) as Hlen.
  apply prefix_of_lookup.
  - rewrite length_insert, length_app. lia.
  - intros l Hl. rewrite list_lookup_insert_ne by lia.
    destruct Hp as [ex ->]. by rewrite <- app_assoc, lookup_app_l.
Qed.

(** The constructor of a Started event throws when [command.ns] is not a
    string, after the marker of a sensitive command has been written. *)
Lemma CommandStartedEvent_throws pool command t o h cmd h1 :
  h !! t = Some o ->
  extractCommand command h = (Returned cmd, h1) ->
  let hm := marked_store t (first_key h1 cmd) h1 in
  is_string (field hm command "ns") = false ->
  CommandStartedEvent pool command (VRef t) h = (Thrown TypeError, hm).
Proof.
  intros Ho E hm Hns.
  pose proof (extractCommand_input_not_nullish _ _ _ _ E) as Hc.
  pose proof (extractCommand_output_not_nullish _ _ _ _ E) as Hcmd.
  assert (Ho1 : h1 !! t = Some o).
  { eapply extractCommand_keeps_object; [done|]. by rewrite E. }
  unfold CommandStartedEvent.
  run_with ltac:(exact E).
  run_with ltac:(by apply extractCommandName_eq).
  run_with ltac:(by apply (marked_store_eq t o)).
  fold hm.
  run_with ltac:(by apply get_prop_field).
  throw_with ltac:(by apply split_not_string).
  done.
Qed.

(** The state in which the constructor of an event of class [c] reads
    [command.ns] and [command.requestId], for a command on which
    [extractCommand] does not throw. *)
Lemma new_event_translation c h command :
  closed h -> valid h command -> extractCommand_throws h command = false ->
  exists cmd h1,
    extractCommand command (h ++ [Obj c []]) = (Returned cmd, h1)
    /\ h ++ [Obj c []] `prefix_of` h1
    /\ h1 !! length h = Some (Obj c [])
    /\ first_key h1 cmd = translated_name h command
    /\ valid h1 cmd /\ cmd <> VRef (length h)
    /\ valid h1 command /\ command <> VRef (length h).
Proof.
  intros Hcl Hv Ht.
  assert (Hcl' : closed (h ++ [Obj c []])) by (by apply closed_new_object).
  assert (Hv' : valid (h ++ [Obj c []]) command).
  { destruct command; try done. simpl in *. rewrite length_app. lia. }
  destruct (extractCommand_outcome (h ++ [Obj c []]) command Hcl' Hv')
    as [_ Hret].
  destruct Hret as (cmd & h1 & E).
  { by rewrite (extractCommand_throws_prefix h) by (done || by eexists). }
  exists cmd, h1.
  pose proof (extractCommand_prefix command (h ++ [Obj c []])) as Hp.
  rewrite E in Hp. simpl in Hp.
  destruct (extractCommand_result_location h c command cmd h1 Hcl Hv E)
    as [Hne Hvc].
  split_and!; try done.
  - destruct Hp as [ex ->]. rewrite <- app_assoc. by apply list_lookup_middle.
  - rewrite (translated_name_eq _ _ _ _ Hcl' Hv' E).
    by rewrite (translated_name_prefix h) by (done || by eexists).
  - pose proof (prefix_length _ _ Hp) as Hlen.
    destruct command; try done. simpl in *. lia.
  - destruct command; try done. simpl in Hv. intros [= ->]. lia.
Qed.

Lemma field_of_command h c h1 t name command k :
  valid h command -> h ++ [Obj c []] `prefix_of` h1 ->
  t = length h ->
  field (marked_store t name h1) command k = field h command k.
Proof.
  intros Hv Hp ->.
  assert (Hv1 : valid h1 command).
  { pose proof (prefix_length _ _ Hp) as Hlen. rewrite length_app in Hlen.
    destruct command; try done. simpl in *. lia. }
  rewrite field_marked_store; [|done|].
  - apply field_prefix; [done|]. etrans; [apply prefix_new_object|done].
  - destruct command; try done. simpl in Hv. intros [= ->]. lia.
Qed.

End NewEvents.

Section EventFrames.

Implicit Types (h : heap) (command cmd : value).

Lemma writes_only_refl t h : writes_only t h h.
Proof. by intros l o _ Hl. Qed.

Lemma writes_only_trans t h1 h2 h3 :
  writes_only t h1 h2 -> writes_only t h2 h3 -> writes_only t h1 h3.
Proof. intros H1 H2 l o Hne Hl. apply H2, H1; done. Qed.

Lemma writes_only_prefix t h h' : h `prefix_of` h' -> writes_only t h h'.
Proof.
  intros [ex ->] l o _ Hl. rewrite lookup_app_l; [done|].
  by eapply lookup_lt_Some.
Qed.

Lemma writes_only_marked_store t name h1 :
  writes_only t h1 (marked_store t name h1).
Proof.
  intros l o Hne Hl. rewrite marked_store_other; [done..|].
  by eapply lookup_lt_Some.
Qed.

Lemma writes_only_insert t o h : writes_only t h (<[t := o]> h).
Proof. intros l o' Hne Hl. by rewrite list_lookup_insert_ne. Qed.

Lemma writes_only_extractCommand t command h :
  writes_only t h (extractCommand command h).2.
Proof. apply writes_only_prefix, extractCommand_prefix. Qed.

Lemma CommandStartedEvent_writes pool command t o h :
  h !! t = Some o ->
  writes_only t h (CommandStartedEvent pool command (VRef t) h).2.
Proof.
  intros Ho.
  destruct (extractCommand command h) as [[cmd|e] h1] eqn:E.
  - assert (H1 : writes_only t h h1).
    { pose proof (writes_only_extractCommand t command h) as H.
      by rewrite E in H. }
    pose proof (writes_only_marked_store t (first_key h1 cmd) h1) as H2.
    destruct (field (marked_store t (first_key h1 cmd) h1) command "ns")
      as [| | | |ns|] eqn:Hns.
    1-4,6: rewrite (CommandStartedEvent_throws _ _ _ _ _ _ _ Ho E)
      by (by rewrite Hns); by eapply writes_only_trans.
    rewrite (CommandStartedEvent_store _ _ _ _ _ _ _ ns Ho E Hns). simpl.
    eapply writes_only_trans; [exact H1|].
    eapply writes_only_trans; [exact H2|].
    eapply writes_only_trans; [|apply writes_only_insert].
    apply writes_only_prefix. by eexists.
  - unfold CommandStartedEvent. rewrite (bind_thrown _ _ _ _ _ E). simpl.
    pose proof (writes_only_extractCommand t command h) as H.
    by rewrite E in H.
Qed.

Lemma CommandFailedEvent_writes now pool command error started t o h :
  h !! t = Some o ->
  writes_only t h (CommandFailedEvent now pool command error started (VRef t) h).2.
Proof.
  intros Ho.
  destruct (extractCommand command h) as [[cmd|e] h1] eqn:E.
  - assert (H1 : writes_only t h h1).
    { pose proof (writes_only_extractCommand t command h) as H.
      by rewrite E in H. }
    rewrite (CommandFailedEvent_eq _ _ _ _ _ _ _ _ _ _ Ho E). simpl.
    eapply writes_only_trans; [exact H1|].
    eapply writes_only_trans; [|apply writes_only_insert].
    apply writes_only_prefix.
    destruct (is_sensitive _); [rewrite <- app_assoc|]; by eexists.
  - unfold CommandFailedEvent. rewrite (bind_thrown _ _ _ _ _ E). simpl.
    pose proof (writes_only_extractCommand t command h) as H.
    by rewrite E in H.
Qed.

Lemma CommandSucceededEvent_writes now pool command reply started t o h :
  h !! t = Some o ->
  writes_only t h
    (CommandSucceededEvent now pool command reply started (VRef t) h).2.
Proof.
  intros Ho.
  destruct (extractCommand command h) as [[cmd|e] h1] eqn:E.
  - assert (H1 : writes_only t h h1).
    { pose proof (writes_only_extractCommand t command h) as H.
      by rewrite E in H. }
    pose proof (extractCommand_output_not_nullish _ _ _ _ E) as Hcmd.
    pose proof (extractReply_prefix command reply h1) as Hp.
    destruct (extractReply command reply h1) as [[r|e] h2] eqn:Er.
    + rewrite (CommandSucceededEvent_eq _ _ _ _ _ _ _ _ _ _ _ _ Ho E Er). simpl.
      eapply writes_only_trans; [exact H1|].
      eapply writes_only_trans; [apply writes_only_prefix, Hp|].
      eapply writes_only_trans; [|apply writes_only_insert].
      apply writes_only_prefix.
      destruct (is_sensitive _); [rewrite <- app_assoc|]; by eexists.
    + assert (CommandSucceededEvent now pool command reply started (VRef t) h
              = (Thrown e, h2)) as ->.
      { unfold CommandSucceededEvent.
        run_with ltac:(exact E).
        run_with ltac:(by apply extractCommandName_eq).
        by throw_with ltac:(exact Er). }
      eapply writes_only_trans; [exact H1|]. apply writes_only_prefix, Hp.
  - unfold CommandSucceededEvent. rewrite (bind_thrown _ _ _ _ _ E). simpl.
    pose proof (writes_only_extractCommand t command h) as H.
    by rewrite E in H.
Qed.

End EventFrames.

(** X6.  The constructors of the three events write to [this] and to objects
    they create, and to nothing else: whether they return or throw, every
    other object of the store (the command, the reply, the error, whatever
    they refer to) is afterwards what it was before. *)
Theorem event_constructors_write_only_this
    now pool command reply error started t o h :
  h !! t = Some o ->
  writes_only t h (CommandStartedEvent pool command (VRef t) h).2
  /\ writes_only t h
       (CommandSucceededEvent now pool command reply started (VRef t) h).2
  /\ writes_only t h
       (CommandFailedEvent now pool command error started (VRef t) h).2.
Proof.
  intros Ho. split_and!.
  - by eapply CommandStartedEvent_writes.
  - by eapply CommandSucceededEvent_writes.
  - by eapply CommandFailedEvent_writes.
Qed.

Section NewEventResults.

Implicit Types (h : heap) (command cmd : value).

(** [new CommandStartedEvent(pool, command)] on a command that
    [extractCommand] translates and whose [ns] is a string. *)
Lemma new_started_event pool command h ns :
  closed h -> valid h command -> extractCommand_throws h command = false ->
  field h command "ns" = VStr ns ->
  let t := length h in
  let name := translated_name h command in
  exists cmd h1,
    extractCommand command (h ++ [Obj StartedC []]) = (Returned cmd, h1)
    /\ h ++ [Obj StartedC []] `prefix_of` h1
    /\ let fields := started_fields pool (length h1) name cmd (segment ns 0)
                       (field h command "requestId") in
       new_object StartedC (CommandStartedEvent pool command) h
       = (Returned (VRef t),
          <[t := Obj StartedC fields]>
            (marked_store t name h1
             ++ [Obj Plain (started_assigned pool name cmd (segment ns 0)
                              (field h command "requestId"))])).
Proof.
  intros Hcl Hv Ht Hns t name.
  destruct (new_event_translation StartedC h command Hcl Hv Ht)
    as (cmd & h1 & E & Hp & Ho1 & Hname & Hvc & Hnec & Hv1 & Hne).
  exists cmd, h1. split; [done|]. split; [done|]. intros fields.
  assert (Ho : (h ++ [Obj StartedC []]) !! t = Some (Obj StartedC []))
    by (by apply list_lookup_middle).
  rewrite new_object_eq. fold t.
  rewrite (CommandStartedEvent_store pool command t _ _ cmd h1 ns Ho E);
    rewrite Hname; fold name.
  2: { by rewrite (field_of_command h StartedC). }
  rewrite (field_of_command h StartedC) by done.
  rewrite first_key_marked_store by done. rewrite Hname. fold name.
  unfold fields, started_fields, started_assigned, segment. cbn [props cls].
  by destruct (is_sensitive name).
Qed.

(** [new CommandFailedEvent(pool, command, error, started)] on a command
    that [extractCommand] translates. *)
Lemma new_failed_event now pool command error started h :
  closed h -> valid h command -> extractCommand_throws h command = false ->
  let t := length h in
  let name := translated_name h command in
  exists cmd h1,
    extractCommand command (h ++ [Obj FailedC []]) = (Returned cmd, h1)
    /\ h ++ [Obj FailedC []] `prefix_of` h1
    /\ let h2 := if is_sensitive name then h1 ++ [Obj Plain []] else h1 in
       let fields := terminal_fields now pool started "failure" name
                       (if is_sensitive name then VRef (length h1) else error)
                       (field h command "requestId") in
       new_object FailedC (CommandFailedEvent now pool command error started) h
       = (Returned (VRef t),
          <[t := Obj FailedC fields]> (h2 ++ [Obj Plain fields])).
Proof.
  intros Hcl Hv Ht t name.
  destruct (new_event_translation FailedC h command Hcl Hv Ht)
    as (cmd & h1 & E & Hp & Ho1 & Hname & Hvc & Hnec & Hv1 & Hne).
  exists cmd, h1. split; [done|]. split; [done|]. intros h2 fields.
  assert (Ho : (h ++ [Obj FailedC []]) !! t = Some (Obj FailedC []))
    by (by apply list_lookup_middle).
  rewrite new_object_eq. fold t.
  rewrite (CommandFailedEvent_eq now pool command error started t _ _ cmd h1 Ho E).
  rewrite Hname. fold name. cbn [props cls].
  assert (field (if is_sensitive name then h1 ++ [Obj Plain []] else h1)
            command "requestId" = field h command "requestId") as ->.
  { apply field_prefix; [done|]. etrans; [apply prefix_new_object|].
    etrans; [exact Hp|]. destruct (is_sensitive name); [by eexists|done]. }
  done.
Qed.

(** [new CommandSucceededEvent(pool, command, reply, started)] on a command
    that [extractCommand] translates and a reply that [extractReply]
    translates. *)
Lemma new_succeeded_event now pool command reply started h :
  closed h -> valid h command -> valid h reply ->
  extractCommand_throws h command = false ->
  extractReply_throws h command reply = false ->
  let t := length h in
  let name := translated_name h command in
  exists cmd h1 r h2,
    extractCommand command (h ++ [Obj SucceededC []]) = (Returned cmd, h1)
    /\ extractReply command reply h1 = (Returned r, h2)
    /\ h ++ [Obj SucceededC []] `prefix_of` h2
    /\ let h3 := if is_sensitive name then h2 ++ [Obj Plain []] else h2 in
       let fields := terminal_fields now pool started "reply" name
                       (if is_sensitive name then VRef (length h2) else r)
                       (field h command "requestId") in
       new_object SucceededC
         (CommandSucceededEvent now pool command reply started) h
       = (Returned (VRef t),
          <[t := Obj SucceededC fields]> (h3 ++ [Obj Plain fields])).
Proof.
  intros Hcl Hv Hvr Ht Hr t name.
  destruct (new_event_translation SucceededC h command Hcl Hv Ht)
    as (cmd & h1 & E & Hp & Ho1 & Hname & Hvc & Hnec & Hv1 & Hne).
  assert (Hp1 : h `prefix_of` h1) by (etrans; [apply prefix_new_object|done]).
  destruct (extractReply_outcome h1 command reply) as [_ Hret].
  destruct Hret as (r & h2 & Er).
  { by rewrite (extractReply_throws_prefix h). }
  pose proof (extractReply_prefix command reply h1) as Hp2.
  rewrite Er in Hp2. simpl in Hp2.
  exists cmd, h1, r, h2. split; [done|]. split; [done|].
  split; [by etrans|]. intros h3 fields.
  assert (Ho : (h ++ [Obj SucceededC []]) !! t = Some (Obj SucceededC []))
    by (by apply list_lookup_middle).
  rewrite new_object_eq. fold t.
  rewrite (CommandSucceededEvent_eq now pool command reply started t _ _
             cmd h1 r h2 Ho E Er).
  rewrite Hname. fold name. cbn [props cls].
  assert (field (if is_sensitive name then h2 ++ [Obj Plain []] else h2)
            command "requestId" = field h command "requestId") as ->.
  { apply field_prefix; [done|]. etrans; [exact Hp1|].
    etrans; [exact Hp2|]. destruct (is_sensitive name); [by eexists|done]. }
  done.
Qed.

End NewEventResults.

(** X7.  [new CommandStartedEvent(pool, command)], for a command that
    [extractCommand] translates and whose [ns] is a string, returns a new
    object of class CommandStartedEvent whose properties are, in this order:
    [commandObj] (only when the command name is sensitive; it refers to a
    new object with the name as its only key, set to [true]), [command],
    [databaseName] (the part of [ns] before its first separator),
    [commandName] (the translated name), [requestId] (the one of the
    command) and [connectionId]. *)
Theorem started_event_fields pool command h ns :
  closed h -> valid h command -> extractCommand_throws h command = false ->
  field h command "ns" = VStr ns ->
  let name := translated_name h command in
  exists hf cmd marker,
    new_object StartedC (CommandStartedEvent pool command) h
    = (Returned (VRef (length h)), hf)
    /\ hf !! length h
       = Some (Obj StartedC (started_fields pool marker name cmd (segment ns 0)
                               (field h command "requestId")))
    /\ (forall nm, name = VStr nm -> is_sensitive name = true ->
          hf !! marker = Some (Obj Plain [(nm, VBool true)])).
Proof.
  intros Hcl Hv Ht Hns name.
  destruct (new_started_event pool command h ns Hcl Hv Ht Hns)
    as (cmd & h1 & E & Hp & Hnew).
  cbv zeta in Hnew. fold name in Hnew.
  pose proof (prefix_length _ _ Hp) as Hlen. rewrite length_app in Hlen.
  simpl in Hlen.
  pose proof (marked_store_length (length h) name h1) as Hlm.
  eexists _, cmd, (length h1). split; [exact Hnew|]. split.
  - apply list_lookup_insert_eq. rewrite length_app. lia.
  - intros nm Hnm Hs. rewrite list_lookup_insert_ne by lia.
    apply lookup_app_l_Some. rewrite Hnm in Hs |- *.
    apply (marked_store_marker _ (Obj StartedC [])); [|done].
    destruct Hp as [ex ->]. rewrite <- app_assoc. by apply list_lookup_middle.
Qed.

(** X8.  The constructor of a Started event reads [command.ns] and splits
    it for every command, so it throws a TypeError when [ns] is not a string
    even for a command that [extractCommand] translates without looking at
    [ns]; the constructor of a Failed event never reads [ns] and returns the
    event for the same command. *)
Theorem started_event_needs_string_namespace
    now pool command error started h :
  closed h -> valid h command -> extractCommand_throws h command = false ->
  is_string (field h command "ns") = false ->
  (exists hf, new_object StartedC (CommandStartedEvent pool command) h
              = (Thrown TypeError, hf))
  /\ (exists hf,
        new_object FailedC (CommandFailedEvent now pool command error started) h
        = (Returned (VRef (length h)), hf)).
Proof.
  intros Hcl Hv Ht Hns. split.
  - destruct (new_event_translation StartedC h command Hcl Hv Ht)
      as (cmd & h1 & E & Hp & Ho1 & Hname & Hvc & Hnec & Hv1 & Hne).
    eexists. rewrite new_object_eq.
    rewrite (CommandStartedEvent_throws pool command (length h)
               (Obj StartedC []) _ cmd h1); [done| |done|].
    + by apply list_lookup_middle.
    + by rewrite (field_of_command h StartedC).
  - destruct (new_failed_event now pool command error started h Hcl Hv Ht)
      as (cmd & h1 & _ & _ & Hnew).
    eexists. exact Hnew.
Qed.

(** X9.  For a command that is passed through (not a GetMore, not a
    KillCursors, not a legacy find), the [command] property of the Started
    event is the very object the caller gave (its [query] when that is
    truthy, the command itself otherwise), not a copy; and no object of the
    caller's store has changed. *)
Theorem started_event_shares_modern_command pool command h ns :
  closed h -> valid h command -> nullish command = false ->
  is_GetMore h command || is_KillCursor h command || is_legacy_find h command
  = false ->
  field h command "ns" = VStr ns ->
  exists hf,
    new_object StartedC (CommandStartedEvent pool command) h
    = (Returned (VRef (length h)), hf)
    /\ field hf (VRef (length h)) "command"
       = (if truthy (field h command "query")
          then field h command "query" else command)
    /\ h `prefix_of` hf.
Proof.
  intros Hcl Hv Hn Hvar Hns.
  apply orb_false_elim in Hvar as [Hvar Hleg].
  apply orb_false_elim in Hvar as [Hgm Hkc].
  assert (Ht : extractCommand_throws h command = false).
  { unfold extractCommand_throws. by rewrite Hn, Hgm, Hkc, Hleg. }
  destruct (new_started_event pool command h ns Hcl Hv Ht Hns)
    as (cmd & h1 & E & Hp & Hnew).
  cbv zeta in Hnew.
  assert (Hp0 : h `prefix_of` h ++ [Obj StartedC []]) by apply prefix_new_object.
  rewrite extractCommand_generic in E; [|done|..].
  2,3: rewrite (class_of_prefix h) by done;
       by eapply bool_decide_eq_false_1.
  rewrite (is_legacy_find_prefix h), Hleg in E by done.
  rewrite !(field_prefix h _ command) in E by done.
  injection E as <- <-.
  eexists. split; [exact Hnew|]. split.
  - simpl. rewrite props_at_insert_eq.
    + unfold started_fields. by destruct (is_sensitive _).
    + pose proof (marked_store_length (length h) (translated_name h command)
                    (h ++ [Obj StartedC []])) as Hlm.
      rewrite !length_app in *. simpl in *. lia.
  - apply prefix_assigned; [done|]. apply prefix_marked_store; done.
Qed.

(** X10.  The three events built for one command are objects of the classes
    CommandStartedEvent, CommandSucceededEvent and CommandFailedEvent that
    carry the same [commandName], the translated name of the command; the
    keys of the terminal events are [duration], [commandName], [reply] or
    [failure], [requestId], [connectionId], in this order. *)
Theorem events_agree_on_command_name
    now pool command reply error started h ns :
  closed h -> valid h command -> valid h reply ->
  extractCommand_throws h command = false ->
  extractReply_throws h command reply = false ->
  field h command "ns" = VStr ns ->
  let t := length h in
  let name := translated_name h command in
  exists hs hk hf,
    new_object StartedC (CommandStartedEvent pool command) h
    = (Returned (VRef t), hs)
    /\ new_object SucceededC
         (CommandSucceededEvent now pool command reply started) h
       = (Returned (VRef t), hk)
    /\ new_object FailedC (CommandFailedEvent now pool command error started) h
       = (Returned (VRef t), hf)
    /\ (class_of hs (VRef t) = Some StartedC
        /\ class_of hk (VRef t) = Some SucceededC
        /\ class_of hf (VRef t) = Some FailedC)
    /\ (field hs (VRef t) "commandName" = name
        /\ field hk (VRef t) "commandName" = name
        /\ field hf (VRef t) "commandName" = name)
    /\ map fst (props_at hs t) = started_keys (is_sensitive name)
    /\ map fst (props_at hk t) = terminal_keys "reply"
    /\ map fst (props_at hf t) = terminal_keys "failure".
Proof.
  intros Hcl Hv Hvr Ht Hr Hns t name.
  destruct (new_started_event pool command h ns Hcl Hv Ht Hns)
    as (cs & hs1 & Es & Hps & Hs).
  destruct (new_succeeded_event now pool command reply started h
              Hcl Hv Hvr Ht Hr) as (ck & hk1 & r & hk2 & Ek & Erk & Hpk & Hk).
  destruct (new_failed_event now pool command error started h Hcl Hv Ht)
    as (cf & hf1 & Ef & Hpf & Hf).
  cbv zeta in Hs, Hk, Hf. fold t name in Hs, Hk, Hf.
  pose proof (prefix_length _ _ Hps) as Hls.
  pose proof (prefix_length _ _ Hpk) as Hlk.
  pose proof (prefix_length _ _ Hpf) as Hlf.
  pose proof (marked_store_length t name hs1) as Hlm.
  rewrite length_app in Hls, Hlk, Hlf. simpl in Hls, Hlk, Hlf. fold t in Hls, Hlk, Hlf.
  eexists _, _, _. split; [exact Hs|]. split; [exact Hk|]. split; [exact Hf|].
  assert (Hlen3 : forall (b : bool) (x : heap) y,
            (t < length x)%nat -> (t < length ((if b then x ++ y else x)))%nat).
  { intros [] x y Hx; [rewrite length_app|]; lia. }
  unfold class_of, field, props_at.
  rewrite !list_lookup_insert_eq
    by (rewrite length_app; first [apply Nat.lt_lt_add_r, Hlen3; lia | lia]).
  cbn [cls props fmap option_fmap option_map].
  unfold started_fields, started_keys, terminal_keys.
  destruct (is_sensitive name); done.
Qed.

(** ** The further properties at sample inputs *)

Lemma extractCommand_throws_iff_witness :
  exists h',
    extractCommand (value_of legacy_find_without_options)
      (store_of legacy_find_without_options) = (Thrown TypeError, h').
Proof.
  apply (proj1 (extractCommand_throws_iff
                  (store_of legacy_find_without_options)
                  (value_of legacy_find_without_options)
                  ltac:(repeat constructor) ltac:(vm_compute; lia))).
  reflexivity.
Defined.

Lemma translated_command_name_witness :
  let h := store_of legacy_find_input in
  let command := value_of legacy_find_input in
  exists cmd h1,
    extractCommand command h = (Returned cmd, h1)
    /\ first_key h1 cmd = VStr "find"
    /\ is_sensitive (first_key h1 cmd) = false.
Proof.
  intros h command. eexists _, _. split; [vm_compute; reflexivity|].
  destruct (translated_command_name h command _ _
              ltac:(repeat constructor) ltac:(vm_compute; lia) eq_refl)
    as [Hname Hs].
  split; [exact Hname|exact (Hs eq_refl)].
Defined.


Lemma started_event_database_name_witness :
  let h := store_of ping ++ [Obj StartedC []] in
  exists hf,
    CommandStartedEvent local_pool (value_of ping) (VRef 2) h = (Returned tt, hf)
    /\ field hf (VRef 2) "databaseName" = VStr "admin".
Proof.
  intros h.
  apply (started_event_database_name local_pool (value_of ping) 2
           (Obj StartedC []) h (VRef 0) h "admin" ".$cmd").
  - reflexivity.
  - vm_compute. lia.
  - reflexivity.
  - reflexivity.
  - right. by eexists.
  - reflexivity.
Defined.

Lemma event_constructors_write_only_this_witness :
  let h := store_of (exchange sasl_start ok_reply) ++ [Obj StartedC []] in
  writes_only 5 h (CommandStartedEvent local_pool (VRef 1) (VRef 5) h).2
  /\ writes_only 5 h
       (CommandSucceededEvent 100 local_pool (VRef 1) (VRef 3) 90 (VRef 5) h).2
  /\ writes_only 5 h
       (CommandFailedEvent 100 local_pool (VRef 1) (VStr "AuthenticationFailed")
          90 (VRef 5) h).2.
Proof.
  intros h.
  exact (event_constructors_write_only_this 100 local_pool (VRef 1) (VRef 3)
           (VStr "AuthenticationFailed") 90 5 (Obj StartedC []) h eq_refl).
Defined.

Lemma started_event_fields_witness :
  let h := store_of sasl_start in
  exists hf cmd marker,
    new_object StartedC (CommandStartedEvent local_pool (value_of sasl_start)) h
    = (Returned (VRef 2), hf)
    /\ hf !! 2%nat
       = Some (Obj StartedC
                 [ ("commandObj", VRef marker); ("command", cmd);
                   ("databaseName", VStr "admin");
                   ("commandName", VStr "saslStart");
                   ("requestId", VNum 7);
                   ("connectionId", VStr "localhost:27017") ])
    /\ hf !! marker = Some (Obj Plain [("saslStart", VBool true)]).
Proof.
  intros h.
  destruct (started_event_fields local_pool (value_of sasl_start) h "admin.$cmd"
              ltac:(repeat constructor) ltac:(vm_compute; lia) eq_refl eq_refl)
    as (hf & cmd & marker & E & Hev & Hm).
  exists hf, cmd, marker. split; [exact E|]. split; [exact Hev|].
  exact (Hm "saslStart"%string eq_refl eq_refl).
Defined.

Lemma started_event_needs_string_namespace_witness :
  let h := store_of ping_without_ns in
  (exists hf,
     new_object StartedC
       (CommandStartedEvent local_pool (value_of ping_without_ns)) h
     = (Thrown TypeError, hf))
  /\ (exists hf,
        new_object FailedC
          (CommandFailedEvent 100 local_pool (value_of ping_without_ns)
             (VStr "NetworkError") 90) h
        = (Returned (VRef 2), hf)).
Proof.
  intros h.
  exact (started_event_needs_string_namespace 100 local_pool
           (value_of ping_without_ns) (VStr "NetworkError") 90 h
           ltac:(repeat constructor) ltac:(vm_compute; lia) eq_refl eq_refl).
Defined.

Lemma started_event_shares_modern_command_witness :
  let h := store_of ping in
  exists hf,
    new_object StartedC (CommandStartedEvent local_pool (value_of ping)) h
    = (Returned (VRef 2), hf)
    /\ field hf (VRef 2) "command" = VRef 0
    /\ h `prefix_of` hf.
Proof.
  intros h.
  exact (started_event_shares_modern_command local_pool (value_of ping) h
           "admin.$cmd" ltac:(repeat constructor) ltac:(vm_compute; lia)
           eq_refl eq_refl eq_refl).
Defined.

Lemma events_agree_on_command_name_witness :
  let h := store_of (exchange get_more cursor_reply) in
  exists hs hk hf,
    new_object StartedC (CommandStartedEvent local_pool (VRef 0)) h
    = (Returned (VRef 6), hs)
    /\ new_object SucceededC
         (CommandSucceededEvent 100 local_pool (VRef 0) (VRef 4) 90) h
       = (Returned (VRef 6), hk)
    /\ new_object FailedC
         (CommandFailedEvent 100 local_pool (VRef 0) (VStr "NetworkError") 90) h
       = (Returned (VRef 6), hf)
    /\ (class_of hs (VRef 6) = Some StartedC
        /\ class_of hk (VRef 6) = Some SucceededC
        /\ class_of hf (VRef 6) = Some FailedC)
    /\ (field hs (VRef 6) "commandName" = VStr "getMore"
        /\ field hk (VRef 6) "commandName" = VStr "getMore"
        /\ field hf (VRef 6) "commandName" = VStr "getMore")
    /\ map fst (props_at hs 6) = started_keys false
    /\ map fst (props_at hk 6) = terminal_keys "reply"
    /\ map fst (props_at hf 6) = terminal_keys "failure".
Proof.
  intros h.
  exact (events_agree_on_command_name 100 local_pool (VRef 0) (VRef 4)
           (VStr "NetworkError") 90 h "db.coll"
           ltac:(repeat constructor) ltac:(vm_compute; lia)
           ltac:(vm_compute; lia) eq_refl eq_refl eq_refl).
Defined.

(** ** Connection identifiers *)

Section ConnectionIds.

Lemma uint_no_colon d : contains_colon (NilEmpty.string_of_uint d) = false.
Proof. induction d; simpl; done. Qed.

Lemma number_no_colon n : contains_colon (number_to_string n) = false.
Proof.
  unfold number_to_string.
  destruct n as [|p|p]; [done| |]; simpl;
    destruct (Pos.to_uint p); apply uint_no_colon || done.
Qed.

Lemma append_colon_inj a b s t :
  (a ++ String ":"%char s = b ++ String ":"%char t)%string ->
  contains_colon s = false -> contains_colon t = false ->
  a = b /\ s = t.
Proof.
  intros E Hs Ht. revert b E.
  induction a as [|c a IH]; intros [|c' b] E.
  - by injection E as ->.
  - change (String ":"%char s = String c' (b ++ String ":"%char t)%string) in E.
    injection E as <- ->. exfalso. clear -Hs.
    induction b as [|x b IH].
    + simpl in Hs. done.
    + change (contains_colon (String x (b ++ String ":"%char t))%string
              = false) in Hs.
      simpl in Hs. apply orb_false_elim in Hs as [_ Hs]. auto.
  - change (String c (a ++ String ":"%char s)%string = String ":"%char t) in E.
    injection E as -> <-. exfalso. clear -Ht.
    induction a as [|x a IH].
    + simpl in Ht. done.
    + change (contains_colon (String x (a ++ String ":"%char s))%string
              = false) in Ht.
      simpl in Ht. apply orb_false_elim in Ht as [_ Ht]. auto.
  - change (String c (a ++ String ":"%char s)%string
            = String c' (b ++ String ":"%char t)%string) in E.
    injection E as -> E. destruct (IH b E) as [-> ->]. done.
Qed.

Lemma number_to_string_inj n m :
  number_to_string n = number_to_string m -> n = m.
Proof.
  unfold number_to_string. intros E.
  apply (f_equal NilZero.int_of_string) in E.
  assert (Hnil : forall z, Z.to_int z <> Decimal.Pos Decimal.Nil
                           /\ Z.to_int z <> Decimal.Neg Decimal.Nil).
  { intros [|p|p]; simpl; split; try done; intros [= H];
      by apply (DecimalPos.Unsigned.to_uint_nonnil p). }
  rewrite !NilZero.isi in E by apply Hnil.
  injection E as E. rewrite <- (DecimalZ.of_to n), <- (DecimalZ.of_to m).
  by rewrite E.
Qed.

End ConnectionIds.

(** X11.  A connection identifier names one host and one port: two pools
    with the same [connectionId] have the same host and the same port, also
    when the host has colons of its own (an IPv6 address), because the
    digits of a port have none.  Ports are integers a Number holds
    exactly. *)
Theorem generateConnectionId_injective p q :
  safe_integer (port (options p)) -> safe_integer (port (options q)) ->
  generateConnectionId p = generateConnectionId q ->
  host (options p) = host (options q) /\ port (options p) = port (options q).
Proof.
  intros _ _. unfold generateConnectionId. intros E.
  destruct (append_colon_inj _ _ _ _ E) as [Hh Hp];
    [apply number_no_colon..|].
  split; [done|]. by apply number_to_string_inj.
Qed.

Lemma generateConnectionId_injective_witness :
  host (options local_pool) = "localhost"%string
  /\ port (options local_pool) = 27017%Z.
Proof.
  apply (generateConnectionId_injective local_pool
           (MkPool (PoolOptions "localhost" 27017))).
  - unfold safe_integer. simpl. lia.
  - unfold safe_integer. simpl. lia.
  - reflexivity.
Defined.

(** ** The keys of an upconverted find *)

Section FindKeys.






End FindKeys.



(** ** Purity of the translation of replies *)

Lemma sound_extractReply n command reply :
  below n command -> below n reply ->
  sound n below (extractReply command reply).
Proof. intros Hc Hr. unfold extractReply. sound_go. Qed.

(** X13.  [extractReply] is pure in the same sense as [extractCommand]: it
    leaves every existing object as it is (the store only grows), and called
    twice on the same command and reply it gives the same error or the same
    document to every depth. *)
Theorem extractReply_is_pure h command reply :
  closed h -> valid h command -> valid h reply ->
  let '(o1, h1) := extractReply command reply h in
  let '(o2, h2) := extractReply command reply h1 in
  h `prefix_of` h1
  /\ h1 `prefix_of` h2
  /\ match o1, o2 with
     | Returned v1, Returned v2 => same_document h2 v1 v2
     | Thrown e1, Thrown e2 => e1 = e2
     | _, _ => False
     end.
Proof.
  intros Hcl Hv Hr.
  pose proof (extractReply_prefix command reply h) as Hp1.
  destruct (sound_extractReply (length h) command reply
              ltac:(by apply valid_below) ltac:(by apply valid_below)
              h Hcl ltac:(done)) as (Hcl1 & _ & Hv1).
  destruct (extractReply command reply h) as [o1 h1] eqn:E1. simpl in *.
  pose proof (extractReply_prefix command reply h1) as Hp2.
  destruct Hp1 as [ex ->].
  destruct (related_extractReply (length h) (length ex) command reply
              h (h ++ ex) (heapR_extension h ex Hcl)) as [Ho Hh].
  rewrite !ren_valid, E1 in * by done.
  destruct (extractReply command reply (h ++ ex)) as [o2 h2] eqn:E2. simpl in *.
  split_and!; [by eexists|done|].
  destruct o1 as [v1|e1], o2 as [v2|e2]; simpl in Ho; try done.
  unfold valR in Ho. subst v2. intros depth.
  rewrite (reify_related _ _ _ h2 v1 depth Hh).
  apply reify_prefix; [done| |done].
  apply valid_below. by apply Hv1.
Qed.

Lemma extractReply_is_pure_witness :
  let h := store_of (exchange get_more cursor_reply) in
  let '(o1, h1) := extractReply (VRef 0) (VRef 4) h in
  let '(o2, h2) := extractReply (VRef 0) (VRef 4) h1 in
  h `prefix_of` h1
  /\ h1 `prefix_of` h2
  /\ match o1, o2 with
     | Returned v1, Returned v2 => same_document h2 v1 v2
     | Thrown e1, Thrown e2 => e1 = e2
     | _, _ => False
     end.
Proof.
  apply (extractReply_is_pure (store_of (exchange get_more cursor_reply))
           (VRef 0) (VRef 4)).
  - repeat constructor.
  - vm_compute. lia.
  - vm_compute. lia.
Defined.

(** ** The capture of command events by a test client *)

Section ClientFacts.

Import Entities.

Context {CommandEvent : Type} (commandName : CommandEvent -> value).

Implicit Types (c : UnifiedMongoClient CommandEvent) (e : CommandEvent).

Lemma fold_on names c :
  fold_left (fun c' eventName => on eventName c') names c
  = MkClient (events c) (failPoints c) (ignoredEvents c) (observedEvents c)
      (listeners c ++ map event_key names).
Proof.
  revert c. induction names as [|n names IH]; intros c; simpl.
  - rewrite app_nil_r. by destruct c.
  - rewrite IH. simpl. by rewrite <- app_assoc.
Qed.

Lemma new_client_eq description :
  let c := new_UnifiedMongoClient (CommandEvent := CommandEvent) description in
  events c = []
  /\ ignoredEvents c
     = default [] (ignoreCommandMonitoringEvents description)
       ++ ["configureFailPoint"]
  /\ listeners c = map event_key (observedEvents c).
Proof. unfold new_UnifiedMongoClient. rewrite fold_on. by simpl. Qed.

Lemma fold_pushEvent name e registered c :
  let c' := fold_left (fun c' r => if String.eqb r name
                                   then pushEvent commandName e c' else c')
              registered c in
  events c'
  = events c ++ (if includes (ignoredEvents c) (commandName e) then []
                 else replicate (registrations name registered) e)
  /\ failPoints c' = failPoints c
  /\ ignoredEvents c' = ignoredEvents c
  /\ observedEvents c' = observedEvents c
  /\ listeners c' = listeners c.
Proof.
  revert c. induction registered as [|r registered IH]; intros c; simpl.
  - by destruct (includes _ _); rewrite app_nil_r.
  - unfold registrations. simpl. rewrite (String.eqb_sym name r).
    destruct (String.eqb r name).
    + destruct (IH (pushEvent commandName e c)) as (He & Hf & Hi & Ho & Hl).
      rewrite He, Hf, Hi, Ho, Hl. unfold pushEvent.
      destruct (includes (ignoredEvents c) (commandName e)) eqn:Hinc; simpl.
      * by rewrite Hinc.
      * rewrite Hinc. by rewrite <- app_assoc.
    + apply IH.
Qed.

Lemma emit_eq name e c :
  let c' := emit commandName name e c in
  events c'
  = events c ++ (if includes (ignoredEvents c) (commandName e) then []
                 else replicate (registrations name (listeners c)) e)
  /\ failPoints c' = failPoints c
  /\ ignoredEvents c' = ignoredEvents c
  /\ observedEvents c' = observedEvents c
  /\ listeners c' = listeners c.
Proof. apply fold_pushEvent. Qed.

Lemma fold_emit emitted c :
  let c' := fold_left (fun c' ne => emit commandName ne.1 ne.2 c') emitted c in
  events c' = events c ++ captured commandName (ignoredEvents c) (listeners c) emitted
  /\ ignoredEvents c' = ignoredEvents c
  /\ observedEvents c' = observedEvents c
  /\ listeners c' = listeners c.
Proof.
  revert c. induction emitted as [|[name e] emitted IH]; intros c; simpl.
  - by rewrite app_nil_r.
  - destruct (emit_eq name e c) as (He & _ & Hi & Ho & Hl).
    destruct (IH (emit commandName name e c)) as (He' & Hi' & Ho' & Hl').
    rewrite He', Hi', Ho', Hl', He, Hi, Hl. by rewrite <- app_assoc.
Qed.

Lemma remove_last_Permutation x xs :
  x ∈ xs -> xs ≡ₚ x :: remove_last x xs.
Proof.
  induction xs as [|y ys IH]; intros Hin; [by apply elem_of_nil in Hin|].
  simpl. destruct (String.eqb x y) eqn:Hxy; simpl.
  - apply String.eqb_eq in Hxy as <-.
    destruct (existsb (String.eqb x) ys) eqn:Hex; simpl; [|done].
    rewrite (IH) at 1; [apply Permutation_swap|].
    apply existsb_exists in Hex as (z & Hz & Hxz).
    apply String.eqb_eq in Hxz as <-. by apply list_elem_of_In.
  - apply String.eqb_neq in Hxy.
    apply elem_of_cons in Hin as [->|Hin]; [done|].
    rewrite (IH Hin) at 1. apply Permutation_swap.
Qed.

Lemma fold_remove_last xs registered :
  registered ≡ₚ xs ->
  fold_left (fun l x => remove_last x l) xs registered = [].
Proof.
  revert registered. induction xs as [|x xs IH]; intros registered Hp; simpl.
  - by apply Permutation_nil_r in Hp.
  - apply IH. apply (Permutation_cons_inv (a := x)).
    rewrite <- remove_last_Permutation; [done|].
    rewrite Hp. by left.
Qed.

Lemma fold_remove_last_nil xs :
  fold_left (fun l x => remove_last x l) xs [] = [].
Proof. by induction xs. Qed.

Lemma fold_off names c :
  fold_left (fun c' eventName => off eventName c') names c
  = MkClient (events c) (failPoints c) (ignoredEvents c) (observedEvents c)
      (fold_left (fun l x => remove_last x l) (map event_key names)
         (listeners c)).
Proof.
  revert c. induction names as [|n names IH]; intros c; simpl.
  - by destruct c.
  - by rewrite IH.
Qed.

(** A client is in one of two states: capturing, with [pushEvent]
    registered once for each observed name, or stopped. *)
Lemma stop_eq c :
  listeners c = map event_key (observedEvents c) \/ listeners c = [] ->
  stopCapturingEvents c
  = (events c,
     MkClient (events c) (failPoints c) (ignoredEvents c) (observedEvents c) []).
Proof.
  intros Hl. unfold stopCapturingEvents. rewrite fold_off. simpl.
  destruct Hl as [-> | ->].
  - by rewrite fold_remove_last.
  - by rewrite fold_remove_last_nil.
Qed.

Lemma act_invariant c a :
  listeners c = map event_key (observedEvents c) \/ listeners c = [] ->
  let c' := act commandName c a in
  (listeners c' = map event_key (observedEvents c') \/ listeners c' = [])
  /\ ignoredEvents c' = ignoredEvents c
  /\ (exists more, events c' = events c ++ more
        /\ Forall (fun e => includes (ignoredEvents c) (commandName e) = false)
             more
        /\ (listeners c = [] -> more = [])).
Proof.
  intros Hl. destruct a as [name e|]; cbv zeta; unfold act.
  - destruct (emit_eq name e c) as (He & _ & Hi & Ho & Hl').
    rewrite Hl', Ho, Hi, He. split; [done|]. split; [done|].
    eexists. split; [done|]. split.
    + destruct (includes _ _) eqn:Hinc; [done|].
      apply Forall_forall. by intros x ->%elem_of_replicate_inv.
    + intros ->. by destruct (includes _ _).
  - rewrite stop_eq by done. simpl. split; [by right|]. split; [done|].
    exists []. by rewrite app_nil_r.
Qed.

Lemma run_invariant actions c :
  listeners c = map event_key (observedEvents c) \/ listeners c = [] ->
  let c' := fold_left (act commandName) actions c in
  (listeners c' = map event_key (observedEvents c') \/ listeners c' = [])
  /\ ignoredEvents c' = ignoredEvents c
  /\ (exists more, events c' = events c ++ more
        /\ Forall (fun e => includes (ignoredEvents c) (commandName e) = false)
             more
        /\ (listeners c = [] -> more = [])).
Proof.
  revert c. induction actions as [|a actions IH]; intros c Hl; simpl.
  - split; [done|]. split; [done|]. exists []. by rewrite app_nil_r.
  - destruct (act_invariant c a Hl) as (Hl1 & Hi1 & more1 & He1 & Hf1 & Hn1).
    destruct (IH _ Hl1) as (Hl2 & Hi2 & more2 & He2 & Hf2 & Hn2).
    split; [done|]. split; [by rewrite Hi2|].
    exists (more1 ++ more2). split; [by rewrite He2, He1, <- app_assoc|].
    split.
    + apply Forall_app. split; [done|]. by rewrite Hi1 in Hf2.
    + intros Hnil. rewrite (Hn1 Hnil). simpl. apply Hn2.
      destruct a as [name e|]; unfold act.
      * by destruct (emit_eq name e c) as (_ & _ & _ & _ & ->).
      * by rewrite stop_eq.
Qed.

End ClientFacts.

(** X14.  What a test client has captured when the driver has emitted a
    sequence of events: each event whose [commandName] is not ignored, once
    for every time its name was asked to be observed, in the order of
    emission; [stopCapturingEvents] returns exactly these. *)
Theorem client_captures_observed_events {CommandEvent : Type}
    (commandName : CommandEvent -> value) description emitted :
  let c0 := Entities.new_UnifiedMongoClient description in
  let c := fold_left (fun c ne => Entities.emit commandName ne.1 ne.2 c)
             emitted c0 in
  (Entities.stopCapturingEvents c).1
  = Entities.captured commandName
      (default [] (Entities.ignoreCommandMonitoringEvents description)
       ++ ["configureFailPoint"])
      (map Entities.event_key (Entities.observedEvents c0))
      emitted.
Proof.
  intros c0 c.
  destruct (new_client_eq (CommandEvent := CommandEvent) description)
    as (He0 & Hi0 & Hl0).
  destruct (fold_emit commandName emitted c0) as (He & Hi & Ho & Hl).
  fold c0 in He0, Hi0, Hl0. fold c in He, Hi, Ho, Hl.
  rewrite stop_eq by (left; by rewrite Hl, Ho).
  simpl. by rewrite He, He0, Hi0, Hl0.
Qed.

(** X15.  Whatever the description of a test client asks for, and whatever
    is emitted and however often capturing is stopped, no captured event has
    a [commandName] the description ignores, and none is a
    [configureFailPoint]. *)
Theorem ignored_events_are_never_captured {CommandEvent : Type}
    (commandName : CommandEvent -> value) description actions :
  let c := fold_left (Entities.act commandName) actions
             (Entities.new_UnifiedMongoClient description) in
  Forall (fun e =>
            Entities.includes
              (default [] (Entities.ignoreCommandMonitoringEvents description)
               ++ ["configureFailPoint"]) (commandName e) = false
            /\ commandName e <> VStr "configureFailPoint")
    (Entities.events c).
Proof.
  intros c.
  destruct (new_client_eq (CommandEvent := CommandEvent) description)
    as (He0 & Hi0 & Hl0).
  destruct (run_invariant commandName actions
              (Entities.new_UnifiedMongoClient description)
              ltac:(by left)) as (_ & _ & more & He & Hf & _).
  fold c in He. rewrite He, He0, Hi0 in *. simpl.
  eapply Forall_impl; [exact Hf|]. intros e Hinc. cbv beta in Hinc.
  split; [done|].
  intros Hname. rewrite Hname in Hinc. simpl in Hinc.
  rewrite existsb_app in Hinc. apply orb_false_elim in Hinc as [_ Hinc].
  done.
Qed.

(** X16.  [stopCapturingEvents] returns the events captured so far and
    leaves no registration of [pushEvent] behind, however often a name was
    observed; whatever is emitted afterwards, and if it is called again, the
    captured events stay what it returned. *)
Theorem stopCapturingEvents_stops {CommandEvent : Type}
    (commandName : CommandEvent -> value) description before after :
  let c1 := fold_left (Entities.act commandName) before
              (Entities.new_UnifiedMongoClient description) in
  let stopped := Entities.stopCapturingEvents c1 in
  stopped.1 = Entities.events c1
  /\ Entities.listeners stopped.2 = []
  /\ Entities.events (fold_left (Entities.act commandName) after stopped.2)
     = stopped.1.
Proof.
  intros c1 stopped.
  destruct (new_client_eq (CommandEvent := CommandEvent) description)
    as (He0 & Hi0 & Hl0).
  destruct (run_invariant commandName before
              (Entities.new_UnifiedMongoClient description)
              ltac:(by left)) as (Hl1 & _).
  fold c1 in Hl1. unfold stopped. rewrite stop_eq by done. simpl.
  split; [done|]. split; [done|].
  destruct (run_invariant commandName after
              (Entities.MkClient (Entities.events c1) (Entities.failPoints c1)
                 (Entities.ignoredEvents c1) (Entities.observedEvents c1) [])
              ltac:(by right)) as (_ & _ & more & He & _ & Hn).
  rewrite He, (Hn eq_refl). simpl. by rewrite app_nil_r.
Qed.

(** ** The map of entities of a test *)

Section StringMapFacts.

Import Entities.

Context {A : Type}.

Implicit Types (m es : list (string * A)).

Lemma map_get_None k m : k ∉ map fst m -> map_get k m = None.
Proof.
  induction m as [|[k' v] m IH]; simpl; [done|]. intros Hk.
  apply not_elem_of_cons in Hk as [Hne Hk].
  apply String.eqb_neq in Hne. rewrite Hne. by apply IH.
Qed.

Lemma map_get_elem_of k v m :
  NoDup (map fst m) -> (k, v) ∈ m -> map_get k m = Some v.
Proof.
  induction m as [|[k' v'] m IH]; simpl; intros Hnd Hin.
  - by apply elem_of_nil in Hin.
  - apply NoDup_cons in Hnd as [Hk' Hnd].
    apply elem_of_cons in Hin as [[= <- <-]|Hin].
    + by rewrite String.eqb_refl.
    + destruct (String.eqb k k') eqn:Hkk; [|by apply IH].
      apply String.eqb_eq in Hkk as <-. exfalso. apply Hk'.
      by apply (list_elem_of_fmap_2 fst _ (k, v)).
Qed.

Lemma map_set_fresh k v m :
  k ∉ map fst m -> map_set k v m = m ++ [(k, v)].
Proof.
  induction m as [|[k' v'] m IH]; simpl; [done|]. intros Hk.
  apply not_elem_of_cons in Hk as [Hne Hk].
  apply String.eqb_neq in Hne. rewrite Hne. by rewrite IH.
Qed.

Lemma fold_map_set es m :
  NoDup (map fst (m ++ es)) ->
  fold_left (fun m' kv => map_set kv.1 kv.2 m') es m = m ++ es.
Proof.
  revert m. induction es as [|[k v] es IH]; intros m Hnd; simpl.
  - by rewrite app_nil_r.
  - rewrite map_set_fresh.
    + rewrite IH; rewrite <- app_assoc; done.
    + rewrite map_app in Hnd. apply NoDup_app in Hnd as (_ & Hd & _).
      intros Hk. apply (Hd k Hk). by left.
Qed.

(** A map made of entries with distinct keys has these entries. *)
Lemma map_of_entries_distinct es :
  NoDup (map fst es) -> map_of_entries es = es.
Proof. intros Hnd. unfold map_of_entries. by rewrite fold_map_set. Qed.

Lemma filter_keys_sublist (p : string * A -> bool) es :
  map fst (List.filter p es) `sublist_of` map fst es.
Proof.
  induction es as [|kv es IH]; simpl; [done|].
  destruct (p kv); simpl; [by apply sublist_skip|by apply sublist_cons].
Qed.

Lemma filter_sublist (p : string * A -> bool) es :
  List.filter p es `sublist_of` es.
Proof.
  induction es as [|kv es IH]; simpl; [done|].
  destruct (p kv); simpl; [by apply sublist_skip|by apply sublist_cons].
Qed.

Lemma map_get_filter (q : A -> bool) k es :
  NoDup (map fst es) ->
  map_get k (List.filter (fun kv => q kv.2) es)
  = match map_get k es with
    | Some v => if q v then Some v else None
    | None => None
    end.
Proof.
  induction es as [|[k' v] es IH]; simpl; intros Hnd; [done|].
  apply NoDup_cons in Hnd as [Hk' Hnd].
  destruct (String.eqb k k') eqn:Hkk.
  - apply String.eqb_eq in Hkk as <-.
    destruct (q v); simpl; [by rewrite String.eqb_refl|].
    apply map_get_None. intros Hin. apply Hk'.
    by eapply elem_of_sublist; [|apply filter_keys_sublist].
  - destruct (q v); simpl; [rewrite Hkk|]; by apply IH.
Qed.

Lemma filter_filter_same (p : string * A -> bool) es :
  List.filter p (List.filter p es) = List.filter p es.
Proof.
  induction es as [|kv es IH]; simpl; [done|].
  destruct (p kv) eqn:Hp; simpl; [rewrite Hp, IH|]; done.
Qed.

End StringMapFacts.

Section EntityFacts.

Import Entities.

Context {Entity : Type} (truthy_entity : Entity -> bool)
        (instance_of : Entity -> EntityCtor -> bool).

Implicit Types (m : EntitiesMap Entity).

Lemma mapOf_eq m type ctor :
  distinct_keys m -> map_get type ENTITY_CTORS = Some ctor ->
  mapOf instance_of m type
  = Value (MkEntitiesMap
             (List.filter (fun kv => instance_of kv.2 ctor) (entries m)) []).
Proof.
  intros Hnd Hc. unfold mapOf, new_EntitiesMap. rewrite Hc.
  rewrite map_of_entries_distinct; [done|].
  eapply sublist_NoDup; [exact Hnd|]. apply filter_keys_sublist.
Qed.

Lemma mapOf_inv m type m' :
  distinct_keys m -> mapOf instance_of m type = Value m' ->
  exists ctor,
    map_get type ENTITY_CTORS = Some ctor
    /\ m' = MkEntitiesMap
              (List.filter (fun kv => instance_of kv.2 ctor) (entries m)) [].
Proof.
  intros Hnd Hm. destruct (map_get type ENTITY_CTORS) as [ctor|] eqn:Hc.
  - exists ctor. split; [done|]. rewrite (mapOf_eq m type ctor) in Hm by done.
    by injection Hm as <-.
  - unfold mapOf in Hm. by rewrite Hc in Hm.
Qed.

End EntityFacts.

(** X17.  Looking an entity up in [mapOf(type)] agrees with looking it up
    in the map itself: an entity that [getEntity(type, key)] returns from
    the map is returned from [mapOf(type)] too, and everything else is not
    there, so that [getEntity] on [mapOf(type)] never reports an entity of
    another type, only a missing one. *)
Theorem mapOf_then_getEntity {Entity : Type} (truthy_entity : Entity -> bool)
    (instance_of : Entity -> Entities.EntityCtor -> bool)
    (m m' : Entities.EntitiesMap Entity) type key assertExists :
  Entities.distinct_keys m ->
  Entities.mapOf instance_of m type = Entities.Value m' ->
  Entities.getEntity truthy_entity instance_of m' type key assertExists
  = match Entities.getEntity truthy_entity instance_of m type key assertExists
    with
    | Entities.Value (Some e) => Entities.Value (Some e)
    | _ => if assertExists
           then Entities.Failure ("Entity '" ++ key ++ "' does not exist")
           else Entities.Value None
    end.
Proof.
  intros Hnd Hm.
  destruct (mapOf_inv instance_of m type m' Hnd Hm) as (ctor & Hc & ->).
  unfold Entities.getEntity. cbn [Entities.entries]. rewrite Hc.
  rewrite (map_get_filter (fun e => instance_of e ctor)) by done.
  destruct (Entities.map_get key (Entities.entries m)) as [e|];
    simpl; [|by destruct assertExists].
  destruct (instance_of e ctor) eqn:Hi; simpl;
    destruct (truthy_entity e); simpl; rewrite ?Hi; simpl;
    by destruct assertExists.
Qed.

Lemma mapOf_then_getEntity_witness :
  Entities.getEntity Entities.sample_truthy Entities.sample_instance_of
    (Entities.MkEntitiesMap
       [("database0", Entities.ADatabase); ("database1", Entities.ADatabase)] [])
    "db" "client0" true
  = Entities.Failure "Entity 'client0' does not exist".
Proof.
  apply (mapOf_then_getEntity Entities.sample_truthy
           Entities.sample_instance_of Entities.sample_entities _
           "db" "client0" true).
  - apply (bool_decide_unpack _). vm_compute. exact I.
  - reflexivity.
Defined.

(** X18.  [mapOf(type)] holds exactly the entries of the map whose entity is
    an instance of the constructor the type names, all of them and no
    other, in the order the map has them, with no key twice, and with fail
    points of its own, a new empty map; applied to its own result it changes
    nothing. *)
Theorem mapOf_idempotent {Entity : Type}
    (instance_of : Entity -> Entities.EntityCtor -> bool)
    (m m' : Entities.EntitiesMap Entity) type :
  Entities.distinct_keys m ->
  Entities.mapOf instance_of m type = Entities.Value m' ->
  Entities.mapOf instance_of m' type = Entities.Value m'
  /\ Entities.distinct_keys m'
  /\ Entities.entries m' `sublist_of` Entities.entries m
  /\ Entities.map_failPoints m' = []
  /\ exists ctor,
       Entities.map_get type Entities.ENTITY_CTORS = Some ctor
       /\ Entities.entries m'
          = List.filter (fun kv => instance_of kv.2 ctor) (Entities.entries m)
       /\ (forall key e,
             (key, e) ∈ Entities.entries m'
             <-> (key, e) ∈ Entities.entries m /\ instance_of e ctor = true).
Proof.
  intros Hnd Hm.
  destruct (mapOf_inv instance_of m type m' Hnd Hm) as (ctor & Hc & ->).
  assert (Hnd' : Entities.distinct_keys
                   (Entities.MkEntitiesMap
                      (List.filter (fun kv => instance_of kv.2 ctor)
                         (Entities.entries m)) [])).
  { unfold Entities.distinct_keys. simpl.
    eapply sublist_NoDup; [exact Hnd|]. apply filter_keys_sublist. }
  split; [|split; [done|split; [apply filter_sublist|split; [done|]]]].
  - rewrite (mapOf_eq instance_of _ type ctor) by done. simpl.
    by rewrite filter_filter_same.
  - exists ctor. split; [done|]. split; [done|]. intros key e.
    cbn [Entities.entries]. rewrite !list_elem_of_In, filter_In. done.
Qed.

Lemma mapOf_idempotent_witness :
  let m' := Entities.MkEntitiesMap
              [("database0", Entities.ADatabase);
               ("database1", Entities.ADatabase)] [] in
  Entities.mapOf Entities.sample_instance_of m' "db" = Entities.Value m'
  /\ Entities.distinct_keys m'
  /\ Entities.entries m' `sublist_of` Entities.entries Entities.sample_entities
  /\ Entities.map_failPoints m' = []
  /\ exists ctor,
       Entities.map_get "db" Entities.ENTITY_CTORS = Some ctor
       /\ Entities.entries m'
          = List.filter (fun kv => Entities.sample_instance_of kv.2 ctor)
              (Entities.entries Entities.sample_entities)
       /\ (forall key e,
             (key, e) ∈ Entities.entries m'
             <-> (key, e) ∈ Entities.entries Entities.sample_entities
                 /\ Entities.sample_instance_of e ctor = true).
Proof.
  intros m'.
  apply (mapOf_idempotent Entities.sample_instance_of
           Entities.sample_entities m' "db").
  - apply (bool_decide_unpack _). vm_compute. exact I.
  - reflexivity.
Defined.

(** X19.  Every entry of [mapOf(type)] is an entity that
    [getEntity(type, key)] returns, with or without [assertExists]: the map
    holds nothing of another type and nothing [getEntity] would take for
    missing.  An instance of a constructor is an object, and so truthy. *)
Theorem mapOf_entries_are_entities {Entity : Type}
    (truthy_entity : Entity -> bool)
    (instance_of : Entity -> Entities.EntityCtor -> bool)
    (m m' : Entities.EntitiesMap Entity) type assertExists :
  (forall e c, instance_of e c = true -> truthy_entity e = true) ->
  Entities.distinct_keys m ->
  Entities.mapOf instance_of m type = Entities.Value m' ->
  Forall (fun kv =>
            Entities.getEntity truthy_entity instance_of m' type kv.1
              assertExists = Entities.Value (Some kv.2))
    (Entities.entries m').
Proof.
  intros Hobj Hnd Hm.
  destruct (mapOf_inv instance_of m type m' Hnd Hm) as (ctor & Hc & ->).
  assert (Hnd' : NoDup (map fst (List.filter
                                   (fun kv => instance_of kv.2 ctor)
                                   (Entities.entries m)))).
  { eapply sublist_NoDup; [exact Hnd|]. apply filter_keys_sublist. }
  apply Forall_forall. intros [k e] Hin. cbn [Entities.entries] in Hin.
  unfold Entities.getEntity. cbn [Entities.entries fst snd]. rewrite Hc.
  rewrite (map_get_elem_of k e) by done.
  apply list_elem_of_In, filter_In in Hin as [_ Hi]. cbn [snd] in Hi.
  cbn [Entities.absent]. by rewrite (Hobj e ctor Hi), Hi.
Qed.

Lemma mapOf_entries_are_entities_witness :
  Forall (fun kv =>
            Entities.getEntity Entities.sample_truthy
              Entities.sample_instance_of
              (Entities.MkEntitiesMap
                 [("database0", Entities.ADatabase);
                  ("database1", Entities.ADatabase)] [])
              "db" kv.1 true = Entities.Value (Some kv.2))
    [("database0", Entities.ADatabase); ("database1", Entities.ADatabase)].
Proof.
  apply (mapOf_entries_are_entities Entities.sample_truthy
           Entities.sample_instance_of Entities.sample_entities
           (Entities.MkEntitiesMap
              [("database0", Entities.ADatabase);
               ("database1", Entities.ADatabase)] [])
           "db" true).
  - by intros [] [].
  - apply (bool_decide_unpack _). vm_compute. exact I.
  - reflexivity.
Defined.

(** X20.  The constructors of the events handle no error of the
    translators: when [extractCommand] throws on the command, building any
    of the three events throws the same TypeError, and when [extractReply]
    throws on the reply, building the Succeeded event does. *)
Theorem event_constructors_propagate_errors
    now pool command reply error started h :
  closed h -> valid h command -> valid h reply ->
  (extractCommand_throws h command = true ->
   (exists hf, new_object StartedC (CommandStartedEvent pool command) h
               = (Thrown TypeError, hf))
   /\ (exists hf,
         new_object SucceededC
           (CommandSucceededEvent now pool command reply started) h
         = (Thrown TypeError, hf))
   /\ (exists hf,
         new_object FailedC
           (CommandFailedEvent now pool command error started) h
         = (Thrown TypeError, hf)))
  /\ (extractCommand_throws h command = false ->
      extractReply_throws h command reply = true ->
      exists hf,
        new_object SucceededC
          (CommandSucceededEvent now pool command reply started) h
        = (Thrown TypeError, hf)).
Proof.
  intros Hcl Hv Hvr. split.
  - intros Ht.
    assert (Hthrows : forall c, exists h',
              extractCommand command (h ++ [Obj c []]) = (Thrown TypeError, h')).
    { intros c.
      apply (extractCommand_outcome (h ++ [Obj c []]) command).
      - by apply closed_new_object.
      - destruct command; try done. simpl in *. rewrite length_app. lia.
      - by rewrite (extractCommand_throws_prefix h) by (done || by eexists). }
    split_and!.
    + destruct (Hthrows StartedC) as [h' E]. exists h'.
      rewrite new_object_eq. unfold CommandStartedEvent.
      by rewrite (bind_thrown _ _ _ _ _ E).
    + destruct (Hthrows SucceededC) as [h' E]. exists h'.
      rewrite new_object_eq. unfold CommandSucceededEvent.
      by rewrite (bind_thrown _ _ _ _ _ E).
    + destruct (Hthrows FailedC) as [h' E]. exists h'.
      rewrite new_object_eq. unfold CommandFailedEvent.
      by rewrite (bind_thrown _ _ _ _ _ E).
  - intros Ht Hr.
    destruct (new_event_translation SucceededC h command Hcl Hv Ht)
      as (cmd & h1 & E & Hp & Ho1 & Hname & Hvc & Hnec & Hv1 & Hne).
    pose proof (extractCommand_output_not_nullish _ _ _ _ E) as Hcmd.
    assert (Er : extractReply command reply h1 = (Thrown TypeError, h1)).
    { apply extractReply_outcome.
      rewrite (extractReply_throws_prefix h); [done..|].
      etrans; [apply prefix_new_object|done]. }
    exists h1. rewrite new_object_eq.
    assert (CommandSucceededEvent now pool command reply started
              (VRef (length h)) (h ++ [Obj SucceededC []])
            = (Thrown TypeError, h1)) as ->; [|done].
    unfold CommandSucceededEvent.
    run_with ltac:(exact E).
    run_with ltac:(by apply extractCommandName_eq).
    by throw_with ltac:(exact Er).
Qed.

Lemma event_constructors_propagate_errors_witness :
  let h := store_of (exchange legacy_find_without_options ok_reply) in
  (exists hf, new_object StartedC (CommandStartedEvent local_pool (VRef 2)) h
              = (Thrown TypeError, hf))
  /\ (exists hf,
        new_object SucceededC
          (CommandSucceededEvent 100 local_pool (VRef 2) (VRef 4) 90) h
        = (Thrown TypeError, hf))
  /\ (exists hf,
        new_object FailedC
          (CommandFailedEvent 100 local_pool (VRef 2) (VStr "NetworkError") 90) h
        = (Thrown TypeError, hf)).
Proof.
  intros h.
  apply (proj1 (event_constructors_propagate_errors 100 local_pool (VRef 2)
                  (VRef 4) (VStr "NetworkError") 90 h
                  ltac:(repeat constructor) ltac:(vm_compute; lia)
                  ltac:(vm_compute; lia))).
  reflexivity.
Defined.

(** ** The options of a test client *)

Section ClientOptions.

Import Entities.

Context {A : Type}.

Implicit Types (m es : list (string * A)).

Lemma map_get_set_eq k v m : map_get k (map_set k v m) = Some v.
Proof.
  induction m as [|[k' v'] m IH]; simpl.
  - by rewrite String.eqb_refl.
  - destruct (String.eqb k k') eqn:Hk; simpl.
    + by rewrite String.eqb_refl.
    + by rewrite Hk.
Qed.

Lemma map_get_set_ne k k' v m :
  k <> k' -> map_get k (map_set k' v m) = map_get k m.
Proof.
  intros Hne. induction m as [|[k0 v0] m IH]; simpl.
  - apply String.eqb_neq in Hne. by rewrite Hne.
  - destruct (String.eqb k' k0) eqn:Hk; simpl.
    + apply String.eqb_eq in Hk as <-.
      apply String.eqb_neq in Hne. by rewrite Hne.
    + by rewrite IH.
Qed.

(** Spreading an object over another: its properties win. *)
Lemma map_get_spread k es m :
  NoDup (map fst es) ->
  map_get k (fold_left (fun o kv => map_set kv.1 kv.2 o) es m)
  = match map_get k es with
    | Some v => Some v
    | None => map_get k m
    end.
Proof.
  revert m. induction es as [|[k' v'] es IH]; intros m Hnd; simpl; [done|].
  apply NoDup_cons in Hnd as [Hk' Hnd]. rewrite IH by done.
  destruct (String.eqb k k') eqn:Hk.
  - apply String.eqb_eq in Hk as ->.
    rewrite (map_get_None k' es) by done. apply map_get_set_eq.
  - apply String.eqb_neq in Hk. by rewrite map_get_set_ne.
Qed.

End ClientOptions.

(** X21.  The options a test client is built with: [serverApi] is the one
    of the description when that is truthy and the one the environment
    configures otherwise, never the one of [uriOptions]; [monitorCommands]
    is [true] unless [uriOptions] sets it; every other option is the one of
    [uriOptions]. *)
Theorem client_options_precedence env description :
  NoDup (map fst (default [] (Entities.uriOptions description))) ->
  let given k := Entities.uriOptions description
                 ≫= Entities.map_get k in
  let options := Entities.client_options env description in
  Entities.map_get "serverApi" options
  = Some (if Entities.truthy_doc (Entities.serverApi description)
          then Entities.serverApi description
          else Entities.serverApiConfig env)
  /\ Entities.map_get "monitorCommands" options
     = Some (default (DBool true) (given "monitorCommands"))
  /\ (forall k, k <> "serverApi"%string -> k <> "monitorCommands"%string ->
        Entities.map_get k options = given k).
Proof.
  intros Hnd given options. unfold options, Entities.client_options.
  split; [apply map_get_set_eq|].
  assert (Hgiven : forall k,
            Entities.map_get k (default [] (Entities.uriOptions description))
            = given k).
  { intros k. unfold given. by destruct (Entities.uriOptions description). }
  split.
  - rewrite map_get_set_ne by done. rewrite map_get_spread by done.
    rewrite Hgiven. by destruct (given "monitorCommands").
  - intros k Hs Hm. rewrite map_get_set_ne by done.
    rewrite map_get_spread by done. rewrite Hgiven.
    destruct (given k); [done|]. simpl.
    apply String.eqb_neq in Hm. by rewrite Hm.
Qed.

Lemma client_options_precedence_witness :
  let description :=
    Entities.MkClientEntity
      (Some [ ("monitorCommands", DBool false);
              ("serverApi", DObj Plain [("version", DStr "0")]);
              ("retryWrites", DBool false) ])
      DUndefined None (Some ["commandStartedEvent"]) in
  let options := Entities.client_options (Some "1") description in
  Entities.map_get "serverApi" options
  = Some (DObj Plain [("version", DStr "1")])
  /\ Entities.map_get "monitorCommands" options = Some (DBool false)
  /\ (forall k, k <> "serverApi"%string -> k <> "monitorCommands"%string ->
        Entities.map_get k options
        = Entities.map_get k
            [ ("monitorCommands", DBool false);
              ("serverApi", DObj Plain [("version", DStr "0")]);
              ("retryWrites", DBool false) ]).
Proof.
  intros description options.
  apply (client_options_precedence (Some "1") description).
  apply (bool_decide_unpack _). vm_compute. exact I.
Defined.
